(** * Meridian / AIDev: the agent loop and the model-output parsers

    A shallow embedding of the TypeScript sources

    - [packages/core/src/agent/loop.ts]: [runAgentLoop];
    - [agent/system-prompt.ts]: [buildSystemPrompt];
    - the dead-code tool, whose text follows that of the lint tool in
      [packages/core/src/tools/lint/index.ts]: [DeadCodeTool.run],
      [modelReview], [collectSourceFiles], [extractExports],
      [extractPythonExports], [escapeRegex];
    - the lint tool, in the same file: [LintTool.runModelAnalysis];
    - the comments tool, whose text is in
      [packages/core/src/tools/dead-code/index.ts]: [parseModelResponse],
      [getExtension], [deduplicateRanges], [getCommentAge];
    - [git/conflicts.ts]: [parseConflictMarkers], [parseOneHunk],
      [getConflictFiles];
    - [packages/core/src/utils/index.ts]: [buildScanSummary];

    together with the properties the specification states about them and
    further properties read off the code.

    Conventions of the embedding.

    - A JavaScript string is the list of its UTF-16 code units ([Js.jsstring]).
    - A JavaScript number that the code uses as a counter, a line number or a
      token count is an integer of [Z]; the embedding is exact as long as the
      values stay inside the range in which doubles are exact integers.  The
      theorems that depend on the value of such a number state the range as
      a hypothesis ([Agent.limitsInRange], [Agent.usageInRange],
      [Lint.lineFieldInRange]).
    - The async generator [runAgentLoop] is a tree of suspension points
      ([Agent.Gen]): it either awaits the provider, or yields an action to the
      host and waits to be resumed, or is finished, by returning or by
      throwing. *)

From Stdlib Require Import ZArith NArith List String Ascii Bool Lia DecimalString
  Sorted.
Import ListNotations.

Set Implicit Arguments.
Local Open Scope Z_scope.
Local Open Scope list_scope.

(* ===================================================================== *)
(** * JavaScript strings *)
(* ===================================================================== *)

Module Js.

(** A string is a sequence of UTF-16 code units. *)
Definition jsstring : Type := list N.

(** An ASCII literal of the source, as a [jsstring]. *)
Definition lit (s : string) : jsstring :=
  List.map N_of_ascii (list_ascii_of_string s).

(** Named code units. *)
Definition LF : N := 10%N.
Definition CR : N := 13%N.
Definition DQUOTE : N := 34%N.
Definition PIPE : N := 124%N.
Definition UNDERSCORE : N := 95%N.

Definition eqb (a b : jsstring) : bool :=
  if list_eq_dec N.eq_dec a b then true else false.

(** [Array.prototype.join]. *)
Fixpoint join (sep : jsstring) (parts : list jsstring) : jsstring :=
  match parts with
  | [] => []
  | [p] => p
  | p :: rest => p ++ sep ++ join sep rest
  end.

(** [s.split(c)] for a separator of one code unit: never empty, the empty
    string splits into one empty piece. *)
Fixpoint split (c : N) (s : jsstring) : list jsstring :=
  match s with
  | [] => [[]]
  | x :: rest =>
      if N.eqb x c then [] :: split c rest
      else match split c rest with
           | [] => [[x]]
           | p :: ps => (x :: p) :: ps
           end
  end.

(** [s.startsWith(p)]. *)
Fixpoint startsWith (p s : jsstring) : bool :=
  match p, s with
  | [], _ => true
  | _ :: _, [] => false
  | a :: p', b :: s' => N.eqb a b && startsWith p' s'
  end.

(** [s.slice(n)] for [0 <= n]. *)
Definition slice (n : nat) (s : jsstring) : jsstring := skipn n s.

(** [s.includes(p)]. *)
Fixpoint includes (p s : jsstring) : bool :=
  startsWith p s ||
  match s with
  | [] => false
  | _ :: s' => includes p s'
  end.

(** ECMAScript WhiteSpace and LineTerminator code units: what [trim], [\s]
    and [parseInt] skip. *)
Definition isLineTerminator (c : N) : bool :=
  (N.eqb c 10 || N.eqb c 13 || N.eqb c 8232 || N.eqb c 8233)%N.

Definition isWhiteSpace (c : N) : bool :=
  (N.eqb c 9 || N.eqb c 11 || N.eqb c 12 || N.eqb c 32 || N.eqb c 160
   || N.eqb c 5760 || (N.leb 8192 c && N.leb c 8202)
   || N.eqb c 8239 || N.eqb c 8287 || N.eqb c 12288 || N.eqb c 65279)%N.

Definition isSpace (c : N) : bool := isWhiteSpace c || isLineTerminator c.

Definition isDigit (c : N) : bool := (N.leb 48 c && N.leb c 57)%N.

(** [\w] without the unicode and ignore-case flags: [A-Za-z0-9_]. *)
Definition isWordChar (c : N) : bool :=
  ((N.leb 97 c && N.leb c 122) || (N.leb 65 c && N.leb c 90)
   || isDigit c || N.eqb c 95)%N.

Fixpoint trimStart (s : jsstring) : jsstring :=
  match s with
  | [] => []
  | c :: s' => if isSpace c then trimStart s' else s
  end.

Definition trimEnd (s : jsstring) : jsstring := rev (trimStart (rev s)).

(** [s.trim()]. *)
Definition trim (s : jsstring) : jsstring := trimEnd (trimStart s).

(** [String(n)] for a safe integer [n]: its decimal numeral.  (Beyond the
    safe range [String] prints the nearest double, and from [1e21] on in
    exponent notation.) *)
Definition ofZ (n : Z) : jsstring := lit (NilZero.string_of_int (Z.to_int n)).

(** [Number.MAX_SAFE_INTEGER].  The numbers of the sources are doubles.  An
    integer between [- MAX_SAFE_INTEGER] and [MAX_SAFE_INTEGER] is a double,
    [String] prints it digit by digit, and a sum or a difference of two such
    integers that stays in the range is exact; beyond the range a double is
    rounded.  The theorems on numbers of the sources are stated in this
    range. *)
Definition MAX_SAFE_INTEGER : Z := 2 ^ 53 - 1.

(** [Number.isSafeInteger(n)], for an integer. *)
Definition isSafeInteger (n : Z) : bool :=
  (- MAX_SAFE_INTEGER <=? n) && (n <=? MAX_SAFE_INTEGER).

(** The value of a run of decimal digits, most significant first. *)
Fixpoint digitsValue (acc : Z) (s : jsstring) : Z :=
  match s with
  | [] => acc
  | c :: s' =>
      if isDigit c then digitsValue (10 * acc + (Z.of_N c - 48)) s' else acc
  end.

(** [parseInt(s, 10)]: leading white space is skipped, then an optional
    sign, then the longest run of digits; [None] stands for [NaN].  The
    result is the value of the digits, as that of [parseInt] is when this
    value is a safe integer. *)
Definition parseInt (s : jsstring) : option Z :=
  match trimStart s with
  | [] => None
  | c :: rest =>
      let '(neg, body) :=
        if N.eqb c 45 then (true, rest)
        else if N.eqb c 43 then (false, rest)
        else (false, c :: rest) in
      match body with
      | [] => None
      | d :: _ =>
          if isDigit d
          then Some (if neg : bool then - digitsValue 0 body else digitsValue 0 body)
          else None
      end
  end.

(** [o !== null], for a result that may be [null]. *)
Definition isSome {A : Type} (o : option A) : bool :=
  match o with
  | Some _ => true
  | None => false
  end.

End Js.

Import Js.


(* ===================================================================== *)
(** * Shared data model ([types/common.ts], [types/models.ts],
      [types/analysis.ts]) *)
(* ===================================================================== *)

(** [unknown] values carried in tool arguments and metadata bags. *)
Unset Elimination Schemes.
Inductive JsValue : Type :=
| JsNull
| JsBool (b : bool)
| JsNum (n : Z)
| JsStr (s : jsstring)
| JsArr (items : list JsValue)
| JsObj (fields : list (jsstring * JsValue)).
Set Elimination Schemes.

(** [Record<string, unknown>]. *)
Definition JsRecord : Type := list (jsstring * JsValue).

Inductive ToolId : Type :=
| dead_code | lint | comments | commit | tldr.

Inductive Severity : Type :=
| sev_error | sev_warning | sev_info | sev_hint.

Record CodeLocation : Type := {
  filePath : jsstring;
  startLine : Z;
  endLine : Z;
  startColumn : option Z;
  endColumn : option Z
}.

Record SuggestedFix : Type := {
  fix_description : jsstring;
  fix_replacement : jsstring;
  fix_location : CodeLocation
}.

Record Finding : Type := {
  id : jsstring;
  toolId : ToolId;
  title : jsstring;
  description : jsstring;
  location : CodeLocation;
  severity : Severity;
  suggestedFix : option SuggestedFix;
  metadata : option JsRecord
}.

(** [Omit<Finding, 'id' | 'toolId'>]: what the tools hand to
    [createFinding]. *)
Record FindingDraft : Type := {
  d_title : jsstring;
  d_description : jsstring;
  d_location : CodeLocation;
  d_severity : Severity;
  d_suggestedFix : option SuggestedFix;
  d_metadata : option JsRecord
}.

(** Modelled from the spec: [BaseTool.createFinding] ([tools/base-tool.ts]
    is not part of the sources at hand).  A finding is the draft completed
    with an identifier and the id of the owning tool; the identifier comes
    from [generateId], which reads the clock and a random source, so the
    embedding takes the generated identifier as an argument. *)
Definition createFinding (tool : ToolId) (newId : jsstring) (d : FindingDraft)
  : Finding :=
  {| id := newId; toolId := tool;
     title := d_title d; description := d_description d;
     location := d_location d; severity := d_severity d;
     suggestedFix := d_suggestedFix d; metadata := d_metadata d |}.

Definition loc (path : jsstring) (first last : Z) : CodeLocation :=
  {| filePath := path; startLine := first; endLine := last;
     startColumn := None; endColumn := None |}.

Record ToolDefinition : Type := {
  td_name : jsstring;
  td_description : jsstring;
  td_inputSchema : JsRecord
}.

Record ToolCall : Type := {
  tc_id : jsstring;
  tc_name : jsstring;
  tc_arguments : JsRecord
}.

Record ToolResult : Type := {
  tr_toolCallId : jsstring;
  tr_content : jsstring;
  tr_isError : option bool
}.

Inductive StopReason : Type := end_turn | tool_use | max_tokens.

Inductive Role : Type := r_system | r_user | r_assistant | r_tool_result.

Record ChatMessage : Type := {
  role : Role;
  content : jsstring;
  toolCalls : option (list ToolCall);
  toolCallId : option jsstring
}.

Inductive ModelRole : Type := role_chat | role_tool.

Record ModelRequestOptions : Type := {
  rq_role : ModelRole;
  rq_messages : list ChatMessage;
  rq_tools : option (list ToolDefinition)
}.

Record Usage : Type := { inputTokens : Z; outputTokens : Z }.

Record ModelResponse : Type := {
  rs_content : jsstring;
  rs_usage : option Usage;
  rs_toolCalls : option (list ToolCall);
  rs_stopReason : option StopReason
}.

(** What a rejected [sendRequest] carries, as a [catch] block can read it:
    an [Error] object whose [message] is a string; any other value of which
    [String(err)] is a string; or a value of which the conversion to a string
    throws in its turn, such as [Object.create(null)], which has no
    [toString], or an [Error] whose [message] is a symbol. *)
Inductive Thrown : Type :=
| ThrownError (message : jsstring)
| ThrownValue (asString : jsstring)
| ThrownOpaque.

Inductive ProviderOutcome : Type :=
| Resolved (response : ModelResponse)
| Rejected (err : Thrown).

(** Modelled from the spec: [ToolInvocationMode] and [ToolRegistryEntry]
    ([tools/index.ts] is not part of the sources at hand).  An entry has an
    id, a display name, a description, an invocation mode (autonomous, or
    gated by a confirmation) and the chat command it is routed by. *)
Inductive ToolInvocationMode : Type := autonomous | confirm.

Record ToolRegistryEntry : Type := {
  e_id : ToolId;
  e_name : jsstring;
  e_description : jsstring;
  e_invocation : ToolInvocationMode;
  e_chatCommand : jsstring
}.

(* ===================================================================== *)
(** * The agent loop ([agent/types.ts], [agent/system-prompt.ts],
      [agent/loop.ts]) *)
(* ===================================================================== *)

Module Agent.

Record AgentConfig : Type := {
  maxTurns : Z;
  maxTokenBudget : Z;
  systemPrompt : jsstring;
  availableTools : list ToolDefinition
}.

Record TokenTotals : Type := { totalInputTokens : Z; totalOutputTokens : Z }.

Inductive AgentAction : Type :=
| tool_call (toolId : ToolId) (callId : jsstring) (args : JsRecord)
| confirmation_required (toolId : ToolId) (callId : jsstring) (args : JsRecord)
                        (description : jsstring)
| response (content : jsstring) (usage : TokenTotals)
| error (message : jsstring).

(** ** [buildSystemPrompt] *)

Definition BASE_SYSTEM_PROMPT : jsstring :=
  join [LF]
    [ lit "You are AIDev, an AI-powered developer toolkit assistant.";
      lit "You help developers with code analysis, commit workflows, and change summarization.";
      lit "";
      lit "You have access to the following tools. Use them when they would help answer the user's question.";
      lit "For read-only analysis tools, invoke them directly.";
      lit "For destructive or modifying tools, explain what you plan to do and wait for confirmation.";
      lit "" ].

Definition toolLine (tool : ToolDefinition) : jsstring :=
  lit "- " ++ td_name tool ++ lit ": " ++ td_description tool.

Definition CONSTRAINTS : list jsstring :=
  [ lit "Constraints:";
    lit "- All destructive actions (commits, comment pruning) must be proposed for user approval.";
    lit "- Never auto-apply file modifications or git operations.";
    lit "- Be concise and technical. Prioritize clarity." ].

(** The [parts] array, in the order of the pushes. *)
Definition systemPromptParts (config : AgentConfig) : list jsstring :=
  (match systemPrompt config with
   | [] => [BASE_SYSTEM_PROMPT]
   | _ :: _ => [systemPrompt config; lit ""]
   end)
  ++ (match availableTools config with
      | [] => []
      | _ :: _ => [lit "Available tools:"]
                  ++ List.map toolLine (availableTools config)
                  ++ [lit ""]
      end)
  ++ CONSTRAINTS.

Definition buildSystemPrompt (config : AgentConfig) : jsstring :=
  join [LF] (systemPromptParts config).

(** The prompt as the specification describes it: the custom prompt or
    else the built-in persona, then the tool descriptions, then the fixed
    constraints. *)
Definition describedSystemPrompt (config : AgentConfig) : jsstring :=
  (match systemPrompt config with
   | [] => BASE_SYSTEM_PROMPT ++ [LF]
   | _ :: _ => systemPrompt config ++ [LF; LF]
   end)
  ++ (match availableTools config with
      | [] => []
      | _ :: _ =>
          lit "Available tools:" ++ [LF]
          ++ List.concat (List.map (fun tool => toolLine tool ++ [LF])
                            (availableTools config))
          ++ [LF]
      end)
  ++ join [LF] CONSTRAINTS.

(** ** The generator *)

(** A suspended computation of the generator: finished with a value,
    suspended on a [yield] until the host resumes it with an optional
    [ToolResult], suspended on [await provider.sendRequest(..)] until the
    promise settles, or finished by an exception that nothing catches, in
    which case the promise of [next()] rejects. *)
Inductive Gen (A : Type) : Type :=
| Ret (a : A)
| Yield (action : AgentAction) (k : option ToolResult -> Gen A)
| Await (request : ModelRequestOptions) (k : ProviderOutcome -> Gen A)
| Throw.

Arguments Ret {A} a.
Arguments Yield {A} action k.
Arguments Await {A} request k.
Arguments Throw {A}.

Fixpoint bind {A B : Type} (m : Gen A) (f : A -> Gen B) : Gen B :=
  match m with
  | Ret a => f a
  | Yield action k => Yield action (fun r => bind (k r) f)
  | Await request k => Await request (fun o => bind (k o) f)
  | Throw => Throw
  end.

Notation "x <- m ;; f" := (bind m (fun x => f))
  (at level 61, m at next level, right associativity).

(** [yield action; return;]: whatever the host resumes with is dropped. *)
Definition yieldAndReturn {A : Type} (action : AgentAction) (a : A) : Gen A :=
  Yield action (fun _ => Ret a).

Definition MIN_TOKEN_BUDGET_THRESHOLD : Z := 100.

Definition message (r : Role) (c : jsstring) (calls : option (list ToolCall))
  (callId : option jsstring) : ChatMessage :=
  {| role := r; content := c; toolCalls := calls; toolCallId := callId |}.

Definition budgetExhaustedMessage (tokensUsed budget : Z) : jsstring :=
  lit "Token budget exhausted (" ++ ofZ tokensUsed ++ lit " / "
  ++ ofZ budget ++ lit " tokens used).".

(** The template literal of the [catch] block,
    [`Model request failed: ${err instanceof Error ? err.message : String(err)}`];
    [None] when evaluating it throws. *)
Definition requestFailedMessage (err : Thrown) : option jsstring :=
  match err with
  | ThrownError m => Some (lit "Model request failed: " ++ m)
  | ThrownValue s => Some (lit "Model request failed: " ++ s)
  | ThrownOpaque => None
  end.

Definition turnLimitMessage (turns : Z) : jsstring :=
  lit "Agent loop reached maximum turns (" ++ ofZ turns
  ++ lit "). Stopping to prevent runaway execution.".

Definition SKIPPED : jsstring :=
  lit "Tool execution was skipped or denied by the user.".

(** ** Runs of the generator *)

(** What happens at a suspension point: the provider settles a request, or
    the host receives an action and resumes the generator. *)
Inductive Event : Type :=
| Requested (request : ModelRequestOptions) (outcome : ProviderOutcome)
| Yielded (action : AgentAction) (resumedWith : option ToolResult).

(** [Run g tr a]: driven to completion by a provider and a host whose
    answers are recorded in [tr], the generator [g] finishes with [a].  The
    provider and the host are arbitrary: every answer is allowed at every
    suspension point. *)
Inductive Run {A : Type} : Gen A -> list Event -> A -> Prop :=
| RunRet a :
    Run (Ret a) [] a
| RunYield action k r tr a :
    Run (k r) tr a ->
    Run (Yield action k) (Yielded action r :: tr) a
| RunAwait request k outcome tr a :
    Run (k outcome) tr a ->
    Run (Await request k) (Requested request outcome :: tr) a.

(** [Throws g tr]: driven by a provider and a host whose answers are
    recorded in [tr], the generator [g] ends by throwing: the host, which
    awaits [next()], gets the exception and no action. *)
Inductive Throws {A : Type} : Gen A -> list Event -> Prop :=
| ThrowsNow :
    Throws Throw []
| ThrowsYield action k r tr :
    Throws (k r) tr ->
    Throws (Yield action k) (Yielded action r :: tr)
| ThrowsAwait request k outcome tr :
    Throws (k outcome) tr ->
    Throws (Await request k) (Requested request outcome :: tr).

(** A provider and a host given as functions of what has happened so far. *)
Record Environment : Type := {
  provider : list Event -> ModelRequestOptions -> ProviderOutcome;
  host : list Event -> AgentAction -> option ToolResult
}.

(** The run of [g] in an environment, after the events [past] (most recent
    first): its events, and the value it finishes with, [None] when it
    throws. *)
Fixpoint drive {A : Type} (env : Environment) (g : Gen A) (past : list Event)
  : list Event * option A :=
  match g with
  | Ret a => ([], Some a)
  | Throw => ([], None)
  | Yield action k =>
      let r := host env past action in
      let e := Yielded action r in
      let '(tr, a) := drive env (k r) (e :: past) in
      (e :: tr, a)
  | Await request k =>
      let o := provider env past request in
      let e := Requested request o in
      let '(tr, a) := drive env (k o) (e :: past) in
      (e :: tr, a)
  end.

Definition usageTokens (u : option Usage) : Z :=
  match u with
  | Some u => inputTokens u + outputTokens u
  | None => 0
  end.

(** The tokens the provider has reported in the events of [tr]; a response
    without usage counts for nothing. *)
Fixpoint reportedUsage (tr : list Event) : Z :=
  match tr with
  | [] => 0
  | Requested _ (Resolved resp) :: tr' =>
      usageTokens (rs_usage resp) + reportedUsage tr'
  | _ :: tr' => reportedUsage tr'
  end.

(** The numbers of a configuration are in the range in which the embedding
    is exact: [maxTurns], which the loop counts down and prints,
    [maxTokenBudget], which it prints, and [maxTokenBudget - 100], which it
    compares the tokens with, are safe integers. *)
Definition limitsInRange (config : AgentConfig) : bool :=
  isSafeInteger (maxTurns config)
  && isSafeInteger (maxTokenBudget config)
  && isSafeInteger (maxTokenBudget config - 100).

(** Every token count the provider reports in [tr] is a non-negative
    integer. *)
Fixpoint countsTokens (tr : list Event) : bool :=
  match tr with
  | [] => true
  | Requested _ (Resolved resp) :: tr' =>
      match rs_usage resp with
      | Some u => (0 <=? inputTokens u) && (0 <=? outputTokens u)
      | None => true
      end
      && countsTokens tr'
  | _ :: tr' => countsTokens tr'
  end.

(** The token counts of a run are in the range in which the embedding is
    exact: they are non-negative integers, and their total is a safe
    integer, so that every sum the loop forms is one. *)
Definition usageInRange (tr : list Event) : bool :=
  countsTokens tr && (reportedUsage tr <=? MAX_SAFE_INTEGER).

Definition isRequest (e : Event) : bool :=
  match e with
  | Requested _ _ => true
  | Yielded _ _ => false
  end.

Definition requestCount (tr : list Event) : nat :=
  List.length (List.filter isRequest tr).

Definition isTerminal (a : AgentAction) : bool :=
  match a with
  | response _ _ | error _ => true
  | tool_call _ _ _ | confirmation_required _ _ _ _ => false
  end.

Definition isError (a : AgentAction) : bool :=
  match a with
  | error _ => true
  | _ => false
  end.

Definition isResponse (a : AgentAction) : bool :=
  match a with
  | response _ _ => true
  | _ => false
  end.

Fixpoint yieldedActions (tr : list Event) : list AgentAction :=
  match tr with
  | [] => []
  | Yielded a _ :: tr' => a :: yieldedActions tr'
  | Requested _ _ :: tr' => yieldedActions tr'
  end.

(** An event of a batch: a tool action handed to the host. *)
Definition isToolYield (e : Event) : Prop :=
  match e with
  | Yielded a _ => isTerminal a = false
  | Requested _ _ => False
  end.

(** The response asks for at least one tool call. *)
Definition requestsTools (resp : ModelResponse) : bool :=
  match rs_toolCalls resp with
  | Some (_ :: _) => true
  | _ => false
  end.

(** Every request of [tr] was answered by a response that asks for tools:
    the provider neither fails nor gives a final answer. *)
Definition alwaysRequestsTools (tr : list Event) : Prop :=
  forall request outcome, In (Requested request outcome) tr ->
    exists resp, outcome = Resolved resp /\ requestsTools resp = true.

(** ** The correlation invariant of a message sequence *)

(** The ids of the tool calls an assistant message carries. *)
Definition callIds (m : ChatMessage) : list jsstring :=
  match role m, toolCalls m with
  | r_assistant, Some calls => List.map tc_id calls
  | _, _ => []
  end.

(** Every [tool_result] message carries the id of a tool call of an
    assistant message that comes before it; [seen] are the ids of the calls
    met so far. *)
Fixpoint correlatedFrom (seen : list jsstring) (messages : list ChatMessage)
  : bool :=
  match messages with
  | [] => true
  | m :: rest =>
      match role m with
      | r_tool_result =>
          match toolCallId m with
          | Some i => existsb (Js.eqb i) seen
          | None => false
          end
      | _ => true
      end
      && correlatedFrom (callIds m ++ seen) rest
  end.

Definition correlated (messages : list ChatMessage) : bool :=
  correlatedFrom [] messages.

(** The ids seen once [messages] have been gone through. *)
Definition seenAfter (seen : list jsstring) (messages : list ChatMessage)
  : list jsstring :=
  fold_left (fun acc m => callIds m ++ acc) messages seen.

(** The host answers a tool action with a result for that very call. *)
Definition answersPendingCall (action : AgentAction) (res : ToolResult) : Prop :=
  match action with
  | tool_call _ callId _ | confirmation_required _ callId _ _ =>
      tr_toolCallId res = callId
  | _ => True
  end.

Definition hostFaithful (tr : list Event) : Prop :=
  forall action res, In (Yielded action (Some res)) tr ->
    answersPendingCall action res.

Section Loop.

(** [getToolByCommand] of [tools/index.ts], the lookup in the tool registry;
    the registry is a constant table that is not part of the sources at
    hand, so the loop is embedded over an arbitrary lookup. *)
Variable getToolByCommand : jsstring -> option ToolRegistryEntry.

Variable config : AgentConfig.

Definition availableNames : jsstring :=
  join (lit ", ") (List.map td_name (availableTools config)).

Definition unknownToolMessage (toolCall : ToolCall) : ChatMessage :=
  message r_tool_result
    (lit "Unknown tool: " ++ [DQUOTE] ++ tc_name toolCall ++ [DQUOTE]
     ++ lit ". Available tools: " ++ availableNames)
    None (Some (tc_id toolCall)).

Definition actionFor (entry : ToolRegistryEntry) (toolCall : ToolCall)
  : AgentAction :=
  match e_invocation entry with
  | autonomous =>
      tool_call (e_id entry) (tc_id toolCall) (tc_arguments toolCall)
  | confirm =>
      confirmation_required (e_id entry) (tc_id toolCall)
        (tc_arguments toolCall)
        (e_name entry ++ lit ": " ++ e_description entry)
  end.

(** The message pushed once the host has resumed the generator. *)
Definition resultMessage (toolCall : ToolCall) (toolResult : option ToolResult)
  : ChatMessage :=
  match toolResult with
  | Some r => message r_tool_result (tr_content r) None (Some (tr_toolCallId r))
  | None => message r_tool_result SKIPPED None (Some (tc_id toolCall))
  end.

(** [for (const toolCall of response.toolCalls) { .. }]: the body pushes
    onto [messages]; the value returned is the array after the loop. *)
Fixpoint processToolCalls (calls : list ToolCall) (messages : list ChatMessage)
  : Gen (list ChatMessage) :=
  match calls with
  | [] => Ret messages
  | toolCall :: rest =>
      match getToolByCommand (tc_name toolCall) with
      | None =>
          processToolCalls rest (messages ++ [unknownToolMessage toolCall])
      | Some entry =>
          Yield (actionFor entry toolCall) (fun toolResult =>
            processToolCalls rest
              (messages ++ [resultMessage toolCall toolResult]))
      end
  end.

Definition requestOf (messages : list ChatMessage) : ModelRequestOptions :=
  {| rq_role := role_chat;
     rq_messages := messages;
     rq_tools := match availableTools config with
                 | [] => None
                 | _ :: _ => Some (availableTools config)
                 end |}.

(** [totalInputTokens += ..; totalOutputTokens += ..]: sums of doubles, which
    are the sums of the integers for the token counts of [usageInRange]. *)
Definition accrue (totals : TokenTotals) (usage : option Usage) : TokenTotals :=
  match usage with
  | Some u =>
      {| totalInputTokens := totalInputTokens totals + inputTokens u;
         totalOutputTokens := totalOutputTokens totals + outputTokens u |}
  | None => totals
  end.

Definition tokensUsed (totals : TokenTotals) : Z :=
  totalInputTokens totals + totalOutputTokens totals.

(** [while (turnsRemaining > 0) { .. turnsRemaining--; }] followed by the
    turn-limit error.  [turnsRemaining] counts down from [maxTurns], so the
    loop is a recursion on it.  The generator returns nothing; the embedding
    returns the final contents of the local array [messages].  When the
    [catch] block cannot turn what the provider rejected with into a string,
    the exception it raises leaves the generator. *)
Fixpoint turnLoop (turnsRemaining : nat) (messages : list ChatMessage)
  (totals : TokenTotals) : Gen (list ChatMessage) :=
  match turnsRemaining with
  | O =>
      yieldAndReturn (error (turnLimitMessage (maxTurns config))) messages
  | S turnsRemaining' =>
      if maxTokenBudget config - MIN_TOKEN_BUDGET_THRESHOLD <=? tokensUsed totals
      then
        yieldAndReturn
          (error (budgetExhaustedMessage (tokensUsed totals)
                    (maxTokenBudget config)))
          messages
      else
        Await (requestOf messages) (fun outcome =>
          match outcome with
          | Rejected err =>
              match requestFailedMessage err with
              | Some text => yieldAndReturn (error text) messages
              | None => Throw
              end
          | Resolved resp =>
              let totals' := accrue totals (rs_usage resp) in
              match rs_toolCalls resp with
              | None | Some [] =>
                  yieldAndReturn (response (rs_content resp) totals') messages
              | Some calls =>
                  messages' <-
                    processToolCalls calls
                      (messages
                       ++ [message r_assistant (rs_content resp)
                             (Some calls) None]) ;;
                  turnLoop turnsRemaining' messages' totals'
              end
          end)
  end.

Definition initialMessages (history : list ChatMessage) (userMessage : jsstring)
  : list ChatMessage :=
  [message r_system (buildSystemPrompt config) None None]
  ++ history
  ++ [message r_user userMessage None None].

(** [config.maxTurns] is an integer here, and the loop body runs at most
    that many times; the embedding is that of the code when it is a safe
    integer ([limitsInRange]). *)
Definition runAgentLoop (history : list ChatMessage) (userMessage : jsstring)
  : Gen (list ChatMessage) :=
  turnLoop (Z.to_nat (maxTurns config))
    (initialMessages history userMessage)
    {| totalInputTokens := 0; totalOutputTokens := 0 |}.

(** ** The shape of a run *)

(** How one tool call of a batch is dealt with: the events it causes and
    the message it leaves in [messages]. *)
Definition handles (call : ToolCall) (evs : list Event) (m : ChatMessage)
  : Prop :=
  match getToolByCommand (tc_name call) with
  | None => evs = [] /\ m = unknownToolMessage call
  | Some entry =>
      exists r, evs = [Yielded (actionFor entry call) r]
                /\ m = resultMessage call r
  end.

(** [Batch calls tr results]: handling [calls] in order causes the events
    [tr] and leaves the messages [results]. *)
Inductive Batch : list ToolCall -> list Event -> list ChatMessage -> Prop :=
| BatchNil : Batch [] [] []
| BatchCons call evs m calls tr results :
    handles call evs m ->
    Batch calls tr results ->
    Batch (call :: calls) (evs ++ tr) (m :: results).

(** The message a known call leaves, according to what the host resumed
    the generator with. *)
Definition answered (batch : list Event) (call : ToolCall) (m : ChatMessage)
  : Prop :=
  match getToolByCommand (tc_name call) with
  | None => m = unknownToolMessage call
  | Some entry =>
      (exists res,
          In (Yielded (actionFor entry call) (Some res)) batch
          /\ m = message r_tool_result (tr_content res) None
                   (Some (tr_toolCallId res)))
      \/ (In (Yielded (actionFor entry call) None) batch
          /\ m = message r_tool_result SKIPPED None (Some (tc_id call)))
  end.

Definition assistantMessage (resp : ModelResponse) : ChatMessage :=
  message r_assistant (rs_content resp) (rs_toolCalls resp) None.

(** [Turns t messages totals tr final]: the runs of the [while] loop entered
    with [turnsRemaining = t], told apart by the way the loop is left. *)
Inductive Turns
  : nat -> list ChatMessage -> TokenTotals -> list Event -> list ChatMessage
    -> Prop :=
| TurnsLimit messages totals r :
    Turns 0 messages totals
      [Yielded (error (turnLimitMessage (maxTurns config))) r] messages
| TurnsBudget t messages totals r :
    maxTokenBudget config - 100 <= tokensUsed totals ->
    Turns (S t) messages totals
      [Yielded (error (budgetExhaustedMessage (tokensUsed totals)
                         (maxTokenBudget config))) r]
      messages
| TurnsFailed t messages totals err text r :
    tokensUsed totals < maxTokenBudget config - 100 ->
    requestFailedMessage err = Some text ->
    Turns (S t) messages totals
      [Requested (requestOf messages) (Rejected err);
       Yielded (error text) r]
      messages
| TurnsAnswer t messages totals resp r :
    tokensUsed totals < maxTokenBudget config - 100 ->
    requestsTools resp = false ->
    Turns (S t) messages totals
      [Requested (requestOf messages) (Resolved resp);
       Yielded (response (rs_content resp) (accrue totals (rs_usage resp))) r]
      messages
| TurnsTools t messages totals resp calls batch results tr final :
    tokensUsed totals < maxTokenBudget config - 100 ->
    requestsTools resp = true ->
    rs_toolCalls resp = Some calls ->
    Batch calls batch results ->
    Turns t (messages ++ [assistantMessage resp] ++ results)
      (accrue totals (rs_usage resp)) tr final ->
    Turns (S t) messages totals
      (Requested (requestOf messages) (Resolved resp) :: batch ++ tr) final.

End Loop.

End Agent.

(* ===================================================================== *)
(** * Regular expressions *)
(* ===================================================================== *)

(** The regular expressions of the sources are embedded as syntax trees and
    run by a backtracking matcher that follows the ECMAScript semantics for
    the constructs in use: alternatives are tried left to right, [*], [+]
    and [?] are greedy, a search takes the leftmost match. *)
Module Regex.

Inductive regex : Type :=
| Empty
| Char (p : N -> bool)           (* a literal, a class, [.], [\s], [\w], [\d] *)
| Seq (r1 r2 : regex)
| Alt (r1 r2 : regex)
| Star (r : regex)
| Group (i : nat) (r : regex)    (* the [i]-th capturing group *)
| Bol                            (* [^], without the [m] flag *)
| Eol                            (* [$], without the [m] flag *)
| WordBoundary.                  (* [\b] *)

Definition Plus (r : regex) : regex := Seq r (Star r).
Definition Opt (r : regex) : regex := Alt r Empty.

Fixpoint Lit (s : jsstring) : regex :=
  match s with
  | [] => Empty
  | c :: s' => Seq (Char (N.eqb c)) (Lit s')
  end.

Definition seq (rs : list regex) : regex := fold_right Seq Empty rs.

(** Character classes. *)
Definition space : regex := Char isSpace.
Definition word : regex := Char isWordChar.
Definition digit : regex := Char isDigit.
Definition dot : regex := Char (fun c => negb (isLineTerminator c)).
Definition notChar (c : N) : regex := Char (fun d => negb (N.eqb d c)).

(** The matcher is at a position of the input: [before] is what lies to
    its left, last code unit first, and [rest] what lies to its right. *)
Record State : Type := {
  before : jsstring;
  rest : jsstring;
  captures : list (nat * jsstring)
}.

Definition isWordAt (s : jsstring) : bool :=
  match s with
  | c :: _ => isWordChar c
  | [] => false
  end.

Definition atWordBoundary (st : State) : bool :=
  xorb (isWordAt (before st)) (isWordAt (rest st)).

Definition step (c : N) (rest' : jsstring) (st : State) : State :=
  {| before := c :: before st; rest := rest'; captures := captures st |}.

(** Group [i] has matched what lies between [st] and [st']. *)
Definition capture (i : nat) (st st' : State) : State :=
  {| before := before st'; rest := rest st';
     captures :=
       (i, firstn (List.length (rest st) - List.length (rest st')) (rest st))
         :: captures st' |}.

(** [backtrack r k st]: match [r] at [st], then go on with [k]; when [k] fails,
    the next way to match [r] is tried. *)
Fixpoint backtrack (r : regex) (k : State -> option State) (st : State)
  : option State :=
  match r with
  | Empty => k st
  | Char p =>
      match rest st with
      | c :: rest' => if p c then k (step c rest' st) else None
      | [] => None
      end
  | Seq r1 r2 => backtrack r1 (backtrack r2 k) st
  | Alt r1 r2 =>
      match backtrack r1 k st with
      | Some res => Some res
      | None => backtrack r2 k st
      end
  | Star r' =>
      (fix iterate (fuel : nat) (st : State) : option State :=
         match fuel with
         | O => k st
         | S fuel' =>
             match
               backtrack r'
                 (fun st' =>
                    if Nat.ltb (List.length (rest st')) (List.length (rest st))
                    then iterate fuel' st'
                    else None)
                 st
             with
             | Some res => Some res
             | None => k st
             end
         end) (S (List.length (rest st))) st
  | Group i r' => backtrack r' (fun st' => k (capture i st st')) st
  | Bol =>
      match before st with
      | [] => k st
      | _ :: _ => None
      end
  | Eol =>
      match rest st with
      | [] => k st
      | _ :: _ => None
      end
  | WordBoundary => if atWordBoundary st then k st else None
  end.

Definition matchAt (r : regex) (behind ahead : jsstring) : option State :=
  backtrack r Some {| before := behind; rest := ahead; captures := [] |}.

(** The leftmost match at or after the position: where it starts and the
    state at its end. *)
Fixpoint search (r : regex) (behind ahead : jsstring)
  : option (jsstring * State) :=
  match matchAt r behind ahead with
  | Some st => Some (behind, st)
  | None =>
      match ahead with
      | [] => None
      | c :: ahead' => search r (c :: behind) ahead'
      end
  end.

(** [s.match(r)] for [r] without the [g] flag: the captures of the leftmost
    match, or [None] for [null]. *)
Definition match_ (r : regex) (s : jsstring) : option (list (nat * jsstring)) :=
  match search r [] s with
  | Some (_, st) => Some (captures st)
  | None => None
  end.

(** [m[i]] for a group that took part in the match. *)
Fixpoint group (i : nat) (caps : list (nat * jsstring)) : jsstring :=
  match caps with
  | [] => []
  | (j, s) :: caps' => if Nat.eqb i j then s else group i caps'
  end.

(** The matches of [r] with the [g] flag, from a position on: after a match
    the search goes on where the match ended, one code unit further when
    the match was empty. *)
Fixpoint matchesFrom (fuel : nat) (r : regex) (behind ahead : jsstring)
  : list State :=
  match fuel with
  | O => []
  | S fuel' =>
      match search r behind ahead with
      | None => []
      | Some (start, st) =>
          st ::
          (if Nat.eqb (List.length (before st)) (List.length start)
           then match rest st with
                | [] => []
                | c :: ahead' => matchesFrom fuel' r (c :: before st) ahead'
                end
           else matchesFrom fuel' r (before st) (rest st))
      end
  end.

(** [s.match(r)] for [r] with the [g] flag, as the list of its matches
    ([null] is the empty list). *)
Definition matchAll (r : regex) (s : jsstring) : list State :=
  matchesFrom (S (List.length s)) r [] s.

(** The iteration of [Star], named. *)
Definition iterate (r : regex) (k : State -> option State) :=
  fix iterate (fuel : nat) (st : State) : option State :=
    match fuel with
    | O => k st
    | S fuel' =>
        match
          backtrack r
            (fun st' =>
               if Nat.ltb (List.length (rest st')) (List.length (rest st))
               then iterate fuel' st'
               else None)
            st
        with
        | Some res => Some res
        | None => k st
        end
    end.

(** The expression has no capturing group. *)
Fixpoint nogroups (r : regex) : bool :=
  match r with
  | Empty | Char _ | Bol | Eol | WordBoundary => true
  | Seq r1 r2 | Alt r1 r2 => nogroups r1 && nogroups r2
  | Star r' => nogroups r'
  | Group _ _ => false
  end.

(** A non-empty string of [\w] characters. *)
Definition isWordName (s : jsstring) : bool :=
  match s with
  | [] => false
  | _ :: _ => forallb isWordChar s
  end.

End Regex.

(* ===================================================================== *)
(** * The dead-code tool ([DeadCodeTool], [extractExports]) *)
(* ===================================================================== *)

Module DeadCode.
Import Regex.

Definition MAX_FILES : nat := 500.

Inductive SupportedLanguage : Type := typescript | javascript | python.

Inductive ExportKind : Type :=
| k_function | k_class | k_variable | k_type | k_interface | k_enum | k_default.

Record ExportInfo : Type := {
  name : jsstring;
  line : Z;
  kind : ExportKind
}.

Definition kindText (k : ExportKind) : jsstring :=
  match k with
  | k_function => lit "function"
  | k_class => lit "class"
  | k_variable => lit "variable"
  | k_type => lit "type"
  | k_interface => lit "interface"
  | k_enum => lit "enum"
  | k_default => lit "default"
  end.

Definition isDefault (k : ExportKind) : bool :=
  match k with
  | k_default => true
  | _ => false
  end.

(** ** [extractExports] *)

(** [/export\s+(?:async\s+)?function\s+(\w+)/] *)
Definition exportFunction : regex :=
  seq [Lit (lit "export"); Plus space;
       Opt (seq [Lit (lit "async"); Plus space]);
       Lit (lit "function"); Plus space; Group 1 (Plus word)].

(** [/export\s+(?:abstract\s+)?class\s+(\w+)/] *)
Definition exportClass : regex :=
  seq [Lit (lit "export"); Plus space;
       Opt (seq [Lit (lit "abstract"); Plus space]);
       Lit (lit "class"); Plus space; Group 1 (Plus word)].

(** [/export\s+(?:const|let|var)\s+(\w+)/] *)
Definition exportVariable : regex :=
  seq [Lit (lit "export"); Plus space;
       Alt (Lit (lit "const")) (Alt (Lit (lit "let")) (Lit (lit "var")));
       Plus space; Group 1 (Plus word)].

(** [/export\s+type\s+(\w+)/] *)
Definition exportType : regex :=
  seq [Lit (lit "export"); Plus space; Lit (lit "type"); Plus space;
       Group 1 (Plus word)].

(** [/export\s+interface\s+(\w+)/] *)
Definition exportInterface : regex :=
  seq [Lit (lit "export"); Plus space; Lit (lit "interface"); Plus space;
       Group 1 (Plus word)].

(** [/export\s+enum\s+(\w+)/] *)
Definition exportEnum : regex :=
  seq [Lit (lit "export"); Plus space; Lit (lit "enum"); Plus space;
       Group 1 (Plus word)].

(** [/export\s+default\b/] *)
Definition exportDefault : regex :=
  seq [Lit (lit "export"); Plus space; Lit (lit "default"); WordBoundary].

(** The patterns that name the export, in the order they are tried. *)
Definition namedExports : list (regex * ExportKind) :=
  [ (exportFunction, k_function); (exportClass, k_class);
    (exportVariable, k_variable); (exportType, k_type);
    (exportInterface, k_interface); (exportEnum, k_enum) ].

(** The first pattern of the list that matches decides. *)
Fixpoint firstMatch (patterns : list (regex * ExportKind)) (l : jsstring)
  (lineNum : Z) : option ExportInfo :=
  match patterns with
  | [] => None
  | (r, k) :: patterns' =>
      match match_ r l with
      | Some m => Some {| name := group 1 m; line := lineNum; kind := k |}
      | None => firstMatch patterns' l lineNum
      end
  end.

(** The body of the loop of [extractExports], for one line. *)
Definition exportOfLine (l : jsstring) (lineNum : Z) : option ExportInfo :=
  match firstMatch namedExports l lineNum with
  | Some e => Some e
  | None =>
      match match_ exportDefault l with
      | Some _ =>
          Some {| name := lit "default"; line := lineNum; kind := k_default |}
      | None => None
      end
  end.

(** [for (let i = 0; i < lines.length; i++)], with [lineNum = i + 1]. *)
Fixpoint overLines (f : jsstring -> Z -> option ExportInfo)
  (lines : list jsstring) (i : nat) : list ExportInfo :=
  match lines with
  | [] => []
  | l :: lines' =>
      match f l (Z.of_nat i + 1) with
      | Some e => e :: overLines f lines' (S i)
      | None => overLines f lines' (S i)
      end
  end.

Definition extractExports (content : jsstring) : list ExportInfo :=
  overLines exportOfLine (split LF content) 0.

(** ** [extractPythonExports] *)

(** [/^def\s+(\w+)\s*\(/] *)
Definition pythonDef : regex :=
  seq [Bol; Lit (lit "def"); Plus space; Group 1 (Plus word); Star space;
       Char (N.eqb 40)].

(** [/^class\s+(\w+)/] *)
Definition pythonClass : regex :=
  seq [Bol; Lit (lit "class"); Plus space; Group 1 (Plus word)].

(** [/^(\w+)\s*=/] *)
Definition pythonAssign : regex :=
  seq [Bol; Group 1 (Plus word); Star space; Char (N.eqb 61)].

(** [toUpperCase] on code units; it is applied to names made of [\w]
    characters only, where it is the upper-casing of the ASCII letters. *)
Definition toUpperCaseAscii (s : jsstring) : jsstring :=
  List.map (fun c => if (N.leb 97 c && N.leb c 122)%bool then (c - 32)%N else c) s.

Definition pythonExportOfLine (l : jsstring) (lineNum : Z) : option ExportInfo :=
  let private (m : list (nat * jsstring)) :=
    startsWith [UNDERSCORE] (group 1 m) in
  let classOrAssign :=
    match match_ pythonClass l with
    | Some m =>
        if negb (private m)
        then Some {| name := group 1 m; line := lineNum; kind := k_class |}
        else None
    | None => None
    end in
  let assign :=
    match match_ pythonAssign l with
    | Some m =>
        if negb (private m)
           && Js.eqb (group 1 m) (toUpperCaseAscii (group 1 m))
        then Some {| name := group 1 m; line := lineNum; kind := k_variable |}
        else None
    | None => None
    end in
  let afterDef :=
    match classOrAssign with
    | Some e => Some e
    | None => assign
    end in
  match match_ pythonDef l with
  | Some m =>
      if negb (private m)
      then Some {| name := group 1 m; line := lineNum; kind := k_function |}
      else afterDef
  | None => afterDef
  end.

Definition extractPythonExports (content : jsstring) : list ExportInfo :=
  overLines pythonExportOfLine (split LF content) 0.

(** ** [DeadCodeTool.run] *)

(** A file as the scanning loop sees it: its path relative to the
    repository root, the language its extension stands for
    ([EXT_TO_LANGUAGE[extname(filePath)]]), and what [readFile] gives,
    [None] when it throws. *)
Record SourceFile : Type := {
  relPath : jsstring;
  language : option SupportedLanguage;
  text : option jsstring
}.

(** A [Map] with string keys keeps its entries in the order of the first
    insertion of each key; [set] on a key already there replaces the
    value in place. *)
Fixpoint mapSet {V : Type} (key : jsstring) (v : V) (m : list (jsstring * V))
  : list (jsstring * V) :=
  match m with
  | [] => [(key, v)]
  | (k, v') :: m' =>
      if Js.eqb k key then (k, v) :: m' else (k, v') :: mapSet key v m'
  end.

Record Scan : Type := {
  fileContents : list (jsstring * jsstring);
  allExports : list (jsstring * list ExportInfo)
}.

(** The exports of a file, by its language. *)
Definition exportsOf (lang : option SupportedLanguage) (content : jsstring)
  : list ExportInfo :=
  match lang with
  | Some typescript | Some javascript => extractExports content
  | Some python => extractPythonExports content
  | None => []
  end.

(** The body of the loop over the files. *)
Definition scanFile (sc : Scan) (f : SourceFile) : Scan :=
  match text f with
  | None => sc
  | Some content =>
      let exports := exportsOf (language f) content in
      {| fileContents := mapSet (relPath f) content (fileContents sc);
         allExports :=
           match exports with
           | [] => allExports sc
           | _ :: _ => mapSet (relPath f) exports (allExports sc)
           end |}
  end.

Definition scanFiles (files : list SourceFile) : Scan :=
  fold_left scanFile (firstn MAX_FILES files)
    {| fileContents := []; allExports := [] |}.

Definition allContent (sc : Scan) : jsstring :=
  join [LF] (List.map snd (fileContents sc)).

(** The files of a list that could be read, each with its path and its
    content, in the order of the list. *)
Definition readable (files : list SourceFile) : list (jsstring * jsstring) :=
  flat_map (fun f => match text f with
                     | Some content => [(relPath f, content)]
                     | None => []
                     end)
    files.

(** [new RegExp(`\\b${escapeRegex(exp.name)}\\b`, 'g')]: [escapeRegex]
    puts a backslash before every character that is special in a pattern,
    so that the name is read as a literal. *)
Definition wordRegex (name : jsstring) : regex :=
  seq [WordBoundary; Lit name; WordBoundary].

(** [matches ? matches.length : 0] *)
Definition count (name : jsstring) (content : jsstring) : nat :=
  List.length (matchAll (wordRegex name) content).

(** The specification's [occurs as a whole word]: the name stands at the
    position, no word character comes right before it and none right after
    it.  [behind] is the text to the left of the position, last code unit
    first, and [ahead] the text from the position on. *)
Definition wholeWordAt (name behind ahead : jsstring) : bool :=
  startsWith name ahead
  && negb (isWordAt behind)
  && negb (isWordAt (skipn (List.length name) ahead)).

Fixpoint occurrencesFrom (name behind ahead : jsstring) : nat :=
  (if wholeWordAt name behind ahead then 1 else 0)
  + match ahead with
    | [] => 0
    | c :: ahead' => occurrencesFrom name (c :: behind) ahead'
    end.

(** The number of positions of [content] at which [name] occurs as a whole
    word. *)
Definition wholeWordOccurrences (name content : jsstring) : nat :=
  occurrencesFrom name [] content.

Definition unusedExport (path : jsstring) (exp : ExportInfo) : FindingDraft :=
  {| d_title := lit "Unused export: " ++ name exp;
     d_description :=
       lit "Exported " ++ kindText (kind exp) ++ lit " " ++ [DQUOTE]
       ++ name exp ++ [DQUOTE]
       ++ lit " appears to be unused across the scanned files.";
     d_location := loc path (line exp) (line exp);
     d_severity := sev_warning;
     d_suggestedFix :=
       Some {| fix_description :=
                 lit "Remove unused " ++ kindText (kind exp)
                 ++ lit " or its export";
               fix_replacement := [];
               fix_location := loc path (line exp) (line exp) |};
     d_metadata := None |}.

(** The body of the inner loop: default exports are skipped, and an export
    whose name is counted at most once is reported. *)
Definition checkExport (content : jsstring) (path : jsstring) (exp : ExportInfo)
  : list FindingDraft :=
  if isDefault (kind exp) then []
  else if Nat.leb (count (name exp) content) 1 then [unusedExport path exp]
  else [].

(** Phase 1, in the order the findings are pushed. *)
Definition staticPass (sc : Scan) : list FindingDraft :=
  flat_map (fun '(path, exports) =>
              flat_map (checkExport (allContent sc) path) exports)
    (allExports sc).

(** ** [modelReview] *)

Definition DISMISS : jsstring := lit "DISMISS|".

Definition NOTE : jsstring :=
  lit " (Model suggests this may be a false positive.)".

(** The set [dismissals], as the list of its elements. *)
Definition dismissalsOf (content : jsstring) : list jsstring :=
  flat_map (fun l =>
              if startsWith DISMISS l
              then match split PIPE l with
                   | _ :: target :: _ => [trim target]
                   | _ => []
                   end
              else [])
    (split LF content).

Definition keyOf (f : Finding) : jsstring :=
  filePath (location f) ++ lit ":" ++ ofZ (startLine (location f)).

Definition has (set : list jsstring) (key : jsstring) : bool :=
  existsb (Js.eqb key) set.

Definition downgrade (f : Finding) : Finding :=
  {| id := id f; toolId := toolId f; title := title f;
     description := description f ++ NOTE;
     location := location f; severity := sev_hint;
     suggestedFix := suggestedFix f; metadata := metadata f |}.

(** The finding is named in a [DISMISS] line of the response, in the format
    the prompt asks for, [DISMISS|filepath:line|reason]: a line that starts
    with [DISMISS|] and whose second field, trimmed, is the path of the
    finding, a colon, and its start line in decimal digits. *)
Definition namedInDismissLine (content : jsstring) (f : Finding) : Prop :=
  exists l first target more,
    In l (split LF content)
    /\ startsWith (lit "DISMISS|") l = true
    /\ split PIPE l = first :: target :: more
    /\ trim target
       = filePath (location f) ++ lit ":" ++ ofZ (startLine (location f)).

(** [modelReview] updates the findings it is given in place and returns an
    empty array: the result is the pair of the findings after the call and
    of the array returned.  The request is built from the findings and the
    file contents; the embedding starts from the way the promise settles. *)
Definition modelReview (staticFindings : list Finding) (outcome : ProviderOutcome)
  : list Finding * list Finding :=
  match outcome with
  | Resolved resp =>
      let dismissals := dismissalsOf (rs_content resp) in
      (List.map (fun f => if has dismissals (keyOf f) then downgrade f else f)
         staticFindings,
       [])
  | Rejected _ => (staticFindings, [])
  end.

(** The [k]-th finding that a run creates gets the identifier [ids k]. *)
Fixpoint createAll (ids : nat -> jsstring) (k : nat) (drafts : list FindingDraft)
  : list Finding :=
  match drafts with
  | [] => []
  | d :: drafts' =>
      createFinding dead_code (ids k) d :: createAll ids (S k) drafts'
  end.

Definition noSourceFiles (repoRoot : jsstring) : FindingDraft :=
  {| d_title := lit "No source files found";
     d_description :=
       lit "No files matching enabled languages were found in the scan scope.";
     d_location := loc repoRoot 0 0;
     d_severity := sev_info;
     d_suggestedFix := None; d_metadata := None |}.

(** [run], when the scan is not cancelled: [files] is what
    [collectSourceFiles] returns, and [review] the way the request of the
    model review settles, [None] when no model provider is configured. *)
Definition run (ids : nat -> jsstring) (repoRoot : jsstring)
  (files : list SourceFile) (review : option ProviderOutcome) : list Finding :=
  match files with
  | [] => createAll ids 0 [noSourceFiles repoRoot]
  | _ :: _ =>
      let findings := createAll ids 0 (staticPass (scanFiles files)) in
      match review, findings with
      | Some outcome, _ :: _ =>
          let '(findings', modelFindings) := modelReview findings outcome in
          findings' ++ modelFindings
      | _, _ => findings
      end
  end.

End DeadCode.

(* ===================================================================== *)
(** * The parsers of model output and of conflict markers *)
(* ===================================================================== *)

(** ** [LintTool.runModelAnalysis]: the review lines *)

Module Lint.
Import Regex.

(** [/^(ISSUE|SUGGESTION)\|([^|]+)\|(\d+)\|(.+)$/] *)
Definition reviewLine : regex :=
  seq [Bol;
       Group 1 (Alt (Lit (lit "ISSUE")) (Lit (lit "SUGGESTION")));
       Char (N.eqb PIPE); Group 2 (Plus (notChar PIPE));
       Char (N.eqb PIPE); Group 3 (Plus digit);
       Char (N.eqb PIPE); Group 4 (Plus dot); Eol].

(** [parseInt(lineStr, 10)] where [lineStr] is the text of [(\d+)]: a run of
    digits, on which [parseInt] is never [NaN]. *)
Definition lineNumber (lineStr : jsstring) : Z :=
  match parseInt lineStr with
  | Some n => n
  | None => 0
  end.

(** The third field of a line, read as a number, is a safe integer: on such
    a line [parseInt] gives the value of the digits. *)
Definition lineFieldInRange (l : jsstring) : bool :=
  digitsValue 0 (nth 2 (split PIPE l) []) <=? MAX_SAFE_INTEGER.

(** The body of the loop over the lines of the response. *)
Definition findingOfReviewLine (l : jsstring) : option FindingDraft :=
  match match_ reviewLine l with
  | None => None
  | Some m =>
      let type := group 1 m in
      let path := group 2 m in
      let lineStr := group 3 m in
      let text := group 4 m in
      Some {| d_title :=
                if Js.eqb type (lit "SUGGESTION")
                then lit "Best practice suggestion"
                else lit "Code smell detected";
              d_description := trim text;
              d_location :=
                loc (trim path) (lineNumber lineStr) (lineNumber lineStr);
              d_severity :=
                if Js.eqb type (lit "ISSUE") then sev_warning else sev_info;
              d_suggestedFix := None;
              d_metadata := Some [(lit "source", JsStr (lit "model"))] |}
  end.

Definition parseReview (content : jsstring) : list FindingDraft :=
  flat_map (fun l => match findingOfReviewLine l with
                     | Some d => [d]
                     | None => []
                     end)
    (split LF content).

(** The [try] block of [runModelAnalysis], from the way the request
    settles: a failure is caught and leaves no finding. *)
Definition modelFindings (outcome : ProviderOutcome) : list FindingDraft :=
  match outcome with
  | Resolved resp => parseReview (rs_content resp)
  | Rejected _ => []
  end.

End Lint.

(** ** [parseModelResponse] of the comments tool *)

Module Comments.

Section Parser.

(** [String.prototype.toUpperCase], the case mapping of the host. *)
Variable toUpperCase : jsstring -> jsstring.

Definition REMOVE : jsstring := lit "REMOVE".
Definition REWRITE : jsstring := lit "REWRITE".

(** The body of the loop, for one line: [None] when the line is skipped. *)
Definition findingOfActionLine (filePath : jsstring) (l : jsstring)
  : option FindingDraft :=
  match split PIPE l with
  | action :: startStr :: endStr :: reason :: replacementParts =>
      let trimmedAction := toUpperCase (trim action) in
      if negb (Js.eqb trimmedAction REMOVE) && negb (Js.eqb trimmedAction REWRITE)
      then None
      else
        match parseInt (trim startStr), parseInt (trim endStr) with
        | Some startLine, Some endLine =>
            Some {| d_title :=
                      if Js.eqb trimmedAction REMOVE
                      then lit "Remove comment" else lit "Rewrite comment";
                    d_description := trim reason;
                    d_location := loc filePath startLine endLine;
                    d_severity := sev_info;
                    d_suggestedFix :=
                      match replacementParts with
                      | _ :: _ =>
                          if Js.eqb trimmedAction REWRITE
                          then Some {| fix_description := lit "Suggested rewrite";
                                       fix_replacement :=
                                         trim (join [PIPE] replacementParts);
                                       fix_location :=
                                         loc filePath startLine endLine |}
                          else None
                      | [] => None
                      end;
                    d_metadata := None |}
        | _, _ => None
        end
  | _ => None
  end.

Definition parseModelResponse (content filePath : jsstring)
  : list FindingDraft :=
  flat_map (fun l => match findingOfActionLine filePath l with
                     | Some d => [d]
                     | None => []
                     end)
    (split LF content).

(** A line that the loop keeps: four fields or more, the action REMOVE or
    REWRITE whatever the case and the white space around it, and two line
    numbers that parse. *)
Definition wellFormedAction (l : jsstring) : bool :=
  match split PIPE l with
  | action :: startStr :: endStr :: _ :: _ =>
      (Js.eqb (toUpperCase (trim action)) REMOVE
       || Js.eqb (toUpperCase (trim action)) REWRITE)
      && isSome (parseInt (trim startStr))
      && isSome (parseInt (trim endStr))
  | _ => false
  end.

End Parser.

End Comments.

(** ** [parseConflictMarkers] *)

Module Conflicts.

Local Open Scope nat_scope.

Definition MARKER_OURS : jsstring := lit "<<<<<<<".
Definition MARKER_SEPARATOR : jsstring := lit "=======".
Definition MARKER_THEIRS : jsstring := lit ">>>>>>>".

(** Line numbers count from 1; they are natural numbers. *)
Record ConflictHunk : Type := {
  startLine : nat;
  endLine : nat;
  ours : jsstring;
  theirs : jsstring;
  oursLabel : jsstring;
  theirsLabel : jsstring
}.

(** The locals of the scanning loop of [parseOneHunk]. *)
Record HunkScan : Type := {
  oursLines : list jsstring;
  theirsLines : list jsstring;
  separatorFound : bool;
  hs_endLine : nat;
  hs_theirsLabel : jsstring
}.

(** [for (let i = ..; i < lines.length; i++)] over the lines from index
    [i] on. *)
Fixpoint scanHunk (rest : list jsstring) (i : nat) (s : HunkScan) : HunkScan :=
  match rest with
  | [] => s
  | l :: rest' =>
      if negb (separatorFound s) && startsWith MARKER_SEPARATOR l then
        scanHunk rest' (S i)
          {| oursLines := oursLines s; theirsLines := theirsLines s;
             separatorFound := true;
             hs_endLine := hs_endLine s; hs_theirsLabel := hs_theirsLabel s |}
      else if separatorFound s && startsWith MARKER_THEIRS l then
        {| oursLines := oursLines s; theirsLines := theirsLines s;
           separatorFound := separatorFound s;
           hs_endLine := i + 1;
           hs_theirsLabel := trim (slice (List.length MARKER_THEIRS) l) |}
      else if separatorFound s then
        scanHunk rest' (S i)
          {| oursLines := oursLines s; theirsLines := theirsLines s ++ [l];
             separatorFound := separatorFound s;
             hs_endLine := hs_endLine s; hs_theirsLabel := hs_theirsLabel s |}
      else
        scanHunk rest' (S i)
          {| oursLines := oursLines s ++ [l]; theirsLines := theirsLines s;
             separatorFound := separatorFound s;
             hs_endLine := hs_endLine s; hs_theirsLabel := hs_theirsLabel s |}
  end.

Definition parseOneHunk (lines : list jsstring) (startIndex : nat)
  : option ConflictHunk :=
  let label :=
    trim (slice (List.length MARKER_OURS) (nth startIndex lines [])) in
  let first := startIndex + 1 in
  let s :=
    scanHunk (skipn (startIndex + 1) lines) (startIndex + 1)
      {| oursLines := []; theirsLines := []; separatorFound := false;
         hs_endLine := first; hs_theirsLabel := [] |} in
  if negb (separatorFound s) then None
  else Some {| startLine := first; endLine := hs_endLine s;
               ours := join [LF] (oursLines s);
               theirs := join [LF] (theirsLines s);
               oursLabel := label; theirsLabel := hs_theirsLabel s |}.

(** [while (i < lines.length)]; every turn moves [i] forward, so that
    [lines.length] turns are enough. *)
Fixpoint parseFrom (fuel : nat) (lines : list jsstring) (i : nat)
  : list ConflictHunk :=
  match fuel with
  | O => []
  | S fuel' =>
      match nth_error lines i with
      | None => []
      | Some l =>
          if startsWith MARKER_OURS l then
            match parseOneHunk lines i with
            | Some hunk => hunk :: parseFrom fuel' lines (endLine hunk)
            | None => parseFrom fuel' lines (S i)
            end
          else parseFrom fuel' lines (S i)
      end
  end.

Definition parseConflictMarkers (content : jsstring) : list ConflictHunk :=
  let lines := split LF content in
  parseFrom (List.length lines) lines 0.

End Conflicts.

(* ===================================================================== *)
(** * Further parts of the sources *)
(* ===================================================================== *)

(** ** What the provider has reported, by direction *)

Module Accounting.
Import Agent.

(** The input tokens the provider has reported in the events of [tr]. *)
Fixpoint reportedInput (tr : list Event) : Z :=
  match tr with
  | [] => 0
  | Requested _ (Resolved resp) :: tr' =>
      match rs_usage resp with
      | Some u => inputTokens u
      | None => 0
      end + reportedInput tr'
  | _ :: tr' => reportedInput tr'
  end.

(** The output tokens the provider has reported in the events of [tr]. *)
Fixpoint reportedOutput (tr : list Event) : Z :=
  match tr with
  | [] => 0
  | Requested _ (Resolved resp) :: tr' =>
      match rs_usage resp with
      | Some u => outputTokens u
      | None => 0
      end + reportedOutput tr'
  | _ :: tr' => reportedOutput tr'
  end.

End Accounting.

(** ** What a provider is sent *)

Module Conversation.

(** The conversation ends with a message of the user or with the result of
    a tool, as providers expect of a request. *)
Definition awaitsAnswer (messages : list ChatMessage) : Prop :=
  exists earlier last,
    messages = earlier ++ [last]
    /\ (role last = r_user \/ role last = r_tool_result).

End Conversation.

(** ** The comments tool: comment blocks and their age *)

Module CommentBlocks.

Definition DOT : N := 46%N.

(** [s.lastIndexOf(c)] for one code unit; [None] stands for [-1]. *)
Fixpoint lastIndexOf (c : N) (s : jsstring) : option nat :=
  match s with
  | [] => None
  | x :: s' =>
      match lastIndexOf c s' with
      | Some i => Some (S i)
      | None => if N.eqb x c then Some O else None
      end
  end.

Definition getExtension (filePath : jsstring) : jsstring :=
  match lastIndexOf DOT filePath with
  | Some lastDot => slice lastDot filePath
  | None => []
  end.

Record CommentBlock : Type := {
  content : jsstring;
  startLine : Z;
  endLine : Z;
  language : DeadCode.SupportedLanguage
}.

(** The loop of [deduplicateRanges] from index 1 on; [prev] is the last
    element of [result]. *)
Fixpoint skipOverlapping (prev : CommentBlock) (blocks : list CommentBlock)
  : list CommentBlock :=
  match blocks with
  | [] => []
  | curr :: rest =>
      if startLine curr <=? endLine prev then skipOverlapping prev rest
      else curr :: skipOverlapping curr rest
  end.

Definition deduplicateRanges (blocks : list CommentBlock) : list CommentBlock :=
  match blocks with
  | [] => []
  | first :: rest => first :: skipOverlapping first rest
  end.

(** Each block of [blocks] starts after the end of the block before it,
    [prev] being the block before the first. *)
Fixpoint apart (prev : CommentBlock) (blocks : list CommentBlock) : Prop :=
  match blocks with
  | [] => True
  | curr :: rest => endLine prev < startLine curr /\ apart curr rest
  end.

Section Blame.

(** The type of [BlameRange.ageDays], a number of days. *)
Variable Days : Type.

(** [BlameRange] of [git/blame.ts], by the fields that [getCommentAge]
    reads. *)
Record BlameRange : Type := {
  br_startLine : Z;
  br_lineCount : Z;
  br_ageDays : Days
}.

(** The test of the loop of [getCommentAge]. *)
Definition covers (comment : CommentBlock) (range : BlameRange) : bool :=
  let rangeEnd := br_startLine range + br_lineCount range - 1 in
  (br_startLine range <=? startLine comment) && (startLine comment <=? rangeEnd).

(** [None] stands for [undefined]. *)
Fixpoint getCommentAge (comment : CommentBlock) (blameRanges : list BlameRange)
  : option Days :=
  match blameRanges with
  | [] => None
  | range :: rest =>
      if covers comment range then Some (br_ageDays range)
      else getCommentAge comment rest
  end.

End Blame.

End CommentBlocks.

(** ** The dead-code tool: [escapeRegex] *)

Module Escape.

Definition BACKSLASH : N := 92%N.

(** The class [[.*+?^${}()|[\]\\]]. *)
Definition isSpecial (c : N) : bool :=
  existsb (N.eqb c) (lit ".*+?^${}()|[]" ++ [BACKSLASH]).

(** [str.replace(/[.*+?^${}()|[\]\\]/g, '\\$&')]: every special character
    is replaced by a backslash followed by itself. *)
Definition escapeRegex (str : jsstring) : jsstring :=
  flat_map (fun c => if isSpecial c then [BACKSLASH; c] else [c]) str.

End Escape.

Module ScanState.
Import DeadCode.

(** What every turn of the loop over the files keeps: no key twice in
    either map, a content for every path with exports, no empty list of
    exports, and at most [n] contents. *)
Definition scanInvariant (n : nat) (sc : Scan) : Prop :=
  NoDup (List.map fst (fileContents sc))
  /\ NoDup (List.map fst (allExports sc))
  /\ incl (List.map fst (allExports sc)) (List.map fst (fileContents sc))
  /\ Forall (fun entry => snd entry <> []) (allExports sc)
  /\ (List.length (fileContents sc) <= n)%nat.

End ScanState.

(** ** The dead-code tool: [collectSourceFiles] *)

Module Discovery.
Import DeadCode.

Definition EXT_TO_LANGUAGE : list (jsstring * SupportedLanguage) :=
  [ (lit ".ts", typescript); (lit ".tsx", typescript);
    (lit ".js", javascript); (lit ".jsx", javascript);
    (lit ".mjs", javascript); (lit ".cjs", javascript);
    (lit ".py", python) ].

Definition SKIP_DIRS : list jsstring :=
  [ lit "node_modules"; lit ".git"; lit "dist"; lit "build"; lit "out";
    lit ".next"; lit "__pycache__"; lit ".venv"; lit "venv"; lit "coverage";
    lit ".angular" ].

Definition sameLanguage (a b : SupportedLanguage) : bool :=
  match a, b with
  | typescript, typescript | javascript, javascript | python, python => true
  | _, _ => false
  end.

(** The set [validExtensions]. *)
Definition validExtensions (enabledLanguages : list SupportedLanguage)
  : list jsstring :=
  List.map fst
    (filter (fun entry => existsb (sameLanguage (snd entry)) enabledLanguages)
       EXT_TO_LANGUAGE).

(** What [readdir(dir, { withFileTypes: true })] gives for one entry: a
    file, a directory with its own listing ([None] when reading it throws),
    or an entry that is neither. *)
Unset Elimination Schemes.
Inductive Dirent : Type :=
| FileEntry (name : jsstring)
| DirEntry (name : jsstring) (listing : option (list Dirent))
| OtherEntry (name : jsstring).
Set Elimination Schemes.

(** What [stat(root)] gives. *)
Inductive RootStat : Type :=
| RootDirectory (listing : option (list Dirent))
| RootFile
| RootOther.

Section Host.

(** [path.join] and [path.extname] of the host. *)
Variable pathJoin : jsstring -> jsstring -> jsstring.
Variable extname : jsstring -> jsstring.

Variable valid : list jsstring.

(** The body of the loop of [walk] for one entry; [files] is the array the
    walk pushes onto. *)
Fixpoint visit (dir : jsstring) (entry : Dirent) (files : list jsstring)
  {struct entry} : list jsstring :=
  match entry with
  | DirEntry name listing =>
      if has SKIP_DIRS name then files
      else
        let dir' := pathJoin dir name in
        if Nat.leb MAX_FILES (List.length files) then files
        else
          match listing with
          | None => files
          | Some entries =>
              (fix loop (entries : list Dirent) (files : list jsstring)
                 : list jsstring :=
                 match entries with
                 | [] => files
                 | e :: rest =>
                     if Nat.leb MAX_FILES (List.length files) then files
                     else loop rest (visit dir' e files)
                 end) entries files
          end
  | FileEntry name =>
      if has valid (extname name) then files ++ [pathJoin dir name] else files
  | OtherEntry _ => files
  end.

(** [for (const entry of entries)] in [walk(dir)]. *)
Fixpoint visitAll (dir : jsstring) (entries : list Dirent)
  (files : list jsstring) : list jsstring :=
  match entries with
  | [] => files
  | e :: rest =>
      if Nat.leb MAX_FILES (List.length files) then files
      else visitAll dir rest (visit dir e files)
  end.

(** [walk(dir)], for a directory whose listing is [listing]. *)
Definition walk (dir : jsstring) (listing : option (list Dirent))
  (files : list jsstring) : list jsstring :=
  if Nat.leb MAX_FILES (List.length files) then files
  else
    match listing with
    | None => files
    | Some entries => visitAll dir entries files
    end.

(** The body of the loop over the roots. *)
Definition visitRoot (files : list jsstring)
  (root : jsstring * option RootStat) : list jsstring :=
  match snd root with
  | None => files
  | Some (RootDirectory listing) => walk (fst root) listing files
  | Some RootFile => files ++ [fst root]
  | Some RootOther => files
  end.

(** The paths found below a directory: files with a valid extension, in
    directories none of which is skipped. *)
Inductive Found : jsstring -> list Dirent -> jsstring -> Prop :=
| FoundHere dir entries name :
    In (FileEntry name) entries ->
    has valid (extname name) = true ->
    Found dir entries (pathJoin dir name)
| FoundBelow dir entries name children path :
    In (DirEntry name (Some children)) entries ->
    has SKIP_DIRS name = false ->
    Found (pathJoin dir name) children path ->
    Found dir entries path.

(** What the visit of an entry adds to the array: paths found at the
    entry; it stays within [MAX_FILES] when there was room, and leaves no
    path out unless [MAX_FILES] is reached. *)
Definition visitAdds (dir : jsstring) (e : Dirent) (files added : list jsstring)
  : Prop :=
  visit dir e files = files ++ added
  /\ Forall (Found dir [e]) added
  /\ (List.length files < MAX_FILES ->
      List.length (files ++ added) <= MAX_FILES)%nat
  /\ ((List.length (files ++ added) < MAX_FILES)%nat ->
      forall path, Found dir [e] path -> In path added).

(** What the loop over a listing adds to the array. *)
Definition loopAdds (dir : jsstring) (es : list Dirent)
  (files added : list jsstring) : Prop :=
  visitAll dir es files = files ++ added
  /\ Forall (Found dir es) added
  /\ (List.length (files ++ added)
      <= Nat.max MAX_FILES (List.length files))%nat
  /\ ((List.length (files ++ added) < MAX_FILES)%nat ->
      forall path, Found dir es path -> In path added).

End Host.

Definition collectSourceFiles (pathJoin : jsstring -> jsstring -> jsstring)
  (extname : jsstring -> jsstring)
  (roots : list (jsstring * option RootStat))
  (enabledLanguages : list SupportedLanguage) : list jsstring :=
  fold_left (visitRoot pathJoin extname (validExtensions enabledLanguages))
    roots [].

Definition isRootFile (root : jsstring * option RootStat) : bool :=
  match snd root with
  | Some RootFile => true
  | _ => false
  end.

(** The paths a root stands for: itself when it is a file, the paths found
    below it when it is a directory that can be read. *)
Definition collectable (pathJoin : jsstring -> jsstring -> jsstring)
  (extname : jsstring -> jsstring) (valid : list jsstring)
  (root : jsstring * option RootStat) (path : jsstring) : Prop :=
  match snd root with
  | Some RootFile => path = fst root
  | Some (RootDirectory (Some entries)) =>
      Found pathJoin extname valid (fst root) entries path
  | _ => False
  end.

End Discovery.

(** ** Scan summaries ([utils/index.ts]) *)

Module Summary.

(** [Record<Severity, number>]. *)
Record SeverityCounts : Type := {
  n_error : Z;
  n_warning : Z;
  n_info : Z;
  n_hint : Z
}.

Record ScanSummary : Type := {
  totalFindings : Z;
  bySeverity : SeverityCounts;
  filesScanned : Z;
  filesWithFindings : Z
}.

Definition emptyScanSummary : ScanSummary :=
  {| totalFindings := 0;
     bySeverity := {| n_error := 0; n_warning := 0; n_info := 0; n_hint := 0 |};
     filesScanned := 0;
     filesWithFindings := 0 |}.

(** [bySeverity[severity]++] *)
Definition increment (counts : SeverityCounts) (s : Severity) : SeverityCounts :=
  match s with
  | sev_error =>
      {| n_error := n_error counts + 1; n_warning := n_warning counts;
         n_info := n_info counts; n_hint := n_hint counts |}
  | sev_warning =>
      {| n_error := n_error counts; n_warning := n_warning counts + 1;
         n_info := n_info counts; n_hint := n_hint counts |}
  | sev_info =>
      {| n_error := n_error counts; n_warning := n_warning counts;
         n_info := n_info counts + 1; n_hint := n_hint counts |}
  | sev_hint =>
      {| n_error := n_error counts; n_warning := n_warning counts;
         n_info := n_info counts; n_hint := n_hint counts + 1 |}
  end.

(** [set.add(key)] on a [Set] of strings, kept as the list of its
    elements in the order of insertion. *)
Definition setAdd (set : list jsstring) (key : jsstring) : list jsstring :=
  if existsb (Js.eqb key) set then set else set ++ [key].

(** The locals of the loop: the counters and the set of paths. *)
Definition tally (acc : SeverityCounts * list jsstring) (f : Finding)
  : SeverityCounts * list jsstring :=
  (increment (fst acc) (severity f), setAdd (snd acc) (filePath (location f))).

Definition buildScanSummary (findings : list Finding) (scanned : Z)
  : ScanSummary :=
  let acc :=
    fold_left tally findings
      ({| n_error := 0; n_warning := 0; n_info := 0; n_hint := 0 |}, []) in
  {| totalFindings := Z.of_nat (List.length findings);
     bySeverity := fst acc;
     filesScanned := scanned;
     filesWithFindings := Z.of_nat (List.length (snd acc)) |}.

Definition hasSeverity (s : Severity) (f : Finding) : bool :=
  match s, severity f with
  | sev_error, sev_error | sev_warning, sev_warning
  | sev_info, sev_info | sev_hint, sev_hint => true
  | _, _ => false
  end.

(** The number of findings of a severity. *)
Definition countOf (s : Severity) (findings : list Finding) : Z :=
  Z.of_nat (List.length (filter (hasSeverity s) findings)).

End Summary.

(** ** [getConflictFiles] *)

Module ConflictFiles.

(** [!s] for a string: it is empty. *)
Definition isEmpty (s : jsstring) : bool :=
  match s with
  | [] => true
  | _ :: _ => false
  end.

(** [getConflictFiles], from the exit code and the standard output of
    [git diff --name-only --diff-filter=U]. *)
Definition getConflictFiles (exitCode : Z) (stdout : jsstring)
  : list jsstring :=
  if negb (exitCode =? 0) || isEmpty (trim stdout) then []
  else filter (fun line => negb (isEmpty line)) (split LF (trim stdout)).

End ConflictFiles.

(** ** The request of the model review of the dead-code tool *)

Module ReviewRequest.
Import DeadCode.

Definition MAX_CONTENT_FOR_MODEL : nat := Z.to_nat 6000.

(** The number of findings sent to the model: [staticFindings.slice(0, 20)]. *)
Definition TOP_FINDINGS : nat := 20.

Definition EM_DASH : N := 8212%N.
Definition BACKTICK : N := 96%N.

Definition REVIEW_PROMPT : jsstring :=
  join [LF]
    [ lit "You are a dead code reviewer. Given a list of potentially unused exports and their source code, identify any FALSE POSITIVES "
      ++ [EM_DASH] ++ lit " exports that are likely used via:";
      lit "1. Dynamic imports or require()";
      lit "2. Framework conventions (Angular decorators, React components used in JSX, Flask routes)";
      lit "3. Entry points (main files, index files, config files)";
      lit "4. Tests";
      lit "";
      lit "For each finding, output one line: CONFIRM|filepath:line or DISMISS|filepath:line|reason";
      lit "Only output these lines, nothing else." ].

Definition summaryLine (f : Finding) : jsstring :=
  lit "- " ++ filePath (location f) ++ lit ":" ++ ofZ (startLine (location f))
  ++ lit " " ++ [EM_DASH] ++ lit " " ++ title f.

(** [map.get(key)] *)
Fixpoint mapGet {V : Type} (key : jsstring) (m : list (jsstring * V))
  : option V :=
  match m with
  | [] => None
  | (k, v) :: m' => if Js.eqb k key then Some v else mapGet key m'
  end.

(** The loop that gathers the snippets: the files shown to the model with
    what is shown of each, [seen] being the set [seenFiles]. *)
Fixpoint snippetFiles (fileContents : list (jsstring * jsstring))
  (seen : list jsstring) (findings : list Finding)
  : list (jsstring * jsstring) :=
  match findings with
  | [] => []
  | f :: rest =>
      let path := filePath (location f) in
      if has seen path then snippetFiles fileContents seen rest
      else
        match mapGet path fileContents with
        | Some (c :: content) =>
            (path, firstn MAX_CONTENT_FOR_MODEL (c :: content))
              :: snippetFiles fileContents (seen ++ [path]) rest
        | _ => snippetFiles fileContents (seen ++ [path]) rest
        end
  end.

Definition FENCE : jsstring := [BACKTICK; BACKTICK; BACKTICK].

Definition snippet (file : jsstring * jsstring) : jsstring :=
  lit "### " ++ fst file ++ [LF] ++ FENCE ++ [LF] ++ snd file ++ [LF] ++ FENCE.

Definition reviewRequest (staticFindings : list Finding)
  (fileContents : list (jsstring * jsstring)) : ModelRequestOptions :=
  let topFindings := firstn TOP_FINDINGS staticFindings in
  let findingsSummary := join [LF] (List.map summaryLine topFindings) in
  let contextSnippets :=
    List.map snippet (snippetFiles fileContents [] topFindings) in
  {| rq_role := role_tool;
     rq_messages :=
       [ Agent.message r_system REVIEW_PROMPT None None;
         Agent.message r_user
           (lit "## Static analysis findings" ++ [LF] ++ findingsSummary
            ++ [LF; LF] ++ lit "## Source code" ++ [LF]
            ++ join [LF; LF] contextSnippets)
           None None ];
     rq_tools := None |}.

End ReviewRequest.

(* ===================================================================== *)
(** * Sample inputs *)
(* ===================================================================== *)

Module Samples.
Import Agent.

(** A registry with an autonomous tool and a tool gated by confirmation. *)
Definition registry (name : jsstring) : option ToolRegistryEntry :=
  if Js.eqb name (lit "dead-code") then
    Some {| e_id := dead_code; e_name := lit "Dead Code Discovery";
            e_description := lit "Find unused exports.";
            e_invocation := autonomous; e_chatCommand := lit "dead-code" |}
  else if Js.eqb name (lit "commit") then
    Some {| e_id := commit; e_name := lit "Auto-Commit";
            e_description := lit "Propose a commit.";
            e_invocation := confirm; e_chatCommand := lit "commit" |}
  else None.

Definition deadCodeTool : ToolDefinition :=
  {| td_name := lit "dead-code"; td_description := lit "Find unused exports.";
     td_inputSchema := [] |}.

Definition config : AgentConfig :=
  {| maxTurns := 3; maxTokenBudget := 1000; systemPrompt := [];
     availableTools := [deadCodeTool] |}.

Definition customConfig : AgentConfig :=
  {| maxTurns := 3; maxTokenBudget := 10000; systemPrompt := lit "Be brief.";
     availableTools := [] |}.

Definition callTo (i name : string) : ToolCall :=
  {| tc_id := lit i; tc_name := lit name; tc_arguments := [] |}.

Definition asks (calls : list ToolCall) (usage : option Usage) : ModelResponse :=
  {| rs_content := []; rs_usage := usage; rs_toolCalls := Some calls;
     rs_stopReason := Some tool_use |}.

Definition says (text : string) : ModelResponse :=
  {| rs_content := lit text; rs_usage := None; rs_toolCalls := None;
     rs_stopReason := Some end_turn |}.

(** The provider asks once for [frobnicate], which no registry entry
    matches, reporting 600 + 400 tokens, and answers afterwards. *)
Definition greedyResponse : ModelResponse :=
  asks [callTo "call_1" "frobnicate"]
    (Some {| inputTokens := 600; outputTokens := 400 |}).

Definition greedyProvider (past : list Event) (_ : ModelRequestOptions)
  : ProviderOutcome :=
  match past with
  | [] => Resolved greedyResponse
  | _ => Resolved (says "done")
  end.

(** The provider asks once for [dead-code] and [frobnicate], then answers. *)
Definition toolsResponse : ModelResponse :=
  asks [callTo "call_1" "dead-code"; callTo "call_2" "frobnicate"] None.

Definition toolProvider (past : list Event) (_ : ModelRequestOptions)
  : ProviderOutcome :=
  match past with
  | [] => Resolved toolsResponse
  | _ => Resolved (says "done")
  end.

(** The provider asks for [frobnicate] at every request and reports no
    usage. *)
Definition stubbornProvider (_ : list Event) (_ : ModelRequestOptions)
  : ProviderOutcome :=
  Resolved (asks [callTo "call_1" "frobnicate"] None).

Definition failingProvider (_ : list Event) (_ : ModelRequestOptions)
  : ProviderOutcome :=
  Rejected (ThrownError (lit "network down")).

(** [sendRequest] rejects with [Object.create(null)], an object without
    [toString]. *)
Definition opaqueProvider (_ : list Event) (_ : ModelRequestOptions)
  : ProviderOutcome :=
  Rejected ThrownOpaque.

(** A host that answers with a result for the pending call. *)
Definition faithfulHost (_ : list Event) (action : AgentAction)
  : option ToolResult :=
  match action with
  | tool_call _ callId _ | confirmation_required _ callId _ _ =>
      Some {| tr_toolCallId := callId; tr_content := lit "3 findings";
              tr_isError := None |}
  | _ => None
  end.

(** A host whose results carry an id of its own. *)
Definition mismatchingHost (_ : list Event) (_ : AgentAction)
  : option ToolResult :=
  Some {| tr_toolCallId := lit "other"; tr_content := lit "3 findings";
          tr_isError := None |}.

(** A host that denies every call: it resumes the generator with nothing. *)
Definition denyingHost (_ : list Event) (_ : AgentAction) : option ToolResult :=
  None.

Definition greedyEnv : Environment :=
  {| provider := greedyProvider; host := faithfulHost |}.
Definition toolEnv : Environment :=
  {| provider := toolProvider; host := faithfulHost |}.
Definition mismatchingEnv : Environment :=
  {| provider := toolProvider; host := mismatchingHost |}.
Definition failingEnv : Environment :=
  {| provider := failingProvider; host := faithfulHost |}.
Definition stubbornEnv : Environment :=
  {| provider := stubbornProvider; host := faithfulHost |}.
Definition opaqueEnv : Environment :=
  {| provider := opaqueProvider; host := faithfulHost |}.
Definition denyingEnv : Environment :=
  {| provider := toolProvider; host := denyingHost |}.

(** [config] with a single turn. *)
Definition lastTurnConfig : AgentConfig :=
  {| maxTurns := 1; maxTokenBudget := 1000; systemPrompt := [];
     availableTools := [deadCodeTool] |}.

Definition hi : jsstring := lit "hi".

(** The run of the loop, on [config] and the message [hi], in an
    environment: its events, and the messages it finishes with (none when
    the generator throws). *)
Definition runIn (env : Environment) : list Event * list ChatMessage :=
  let run := drive env (runAgentLoop registry config [] hi) [] in
  (fst run,
   match snd run with
   | Some messages => messages
   | None => []
   end).

Definition firstRequest : ModelRequestOptions :=
  requestOf config (initialMessages config [] hi).

(** The run in which the provider asks for [dead-code] and [frobnicate]
    and the host answers the one action it gets. *)
Definition afterToolsRequest : list Event :=
  [Yielded (tool_call dead_code (lit "call_1") [])
     (Some {| tr_toolCallId := lit "call_1"; tr_content := lit "3 findings";
              tr_isError := None |});
   Requested
     (requestOf config
        (initialMessages config [] hi
         ++ [assistantMessage toolsResponse;
             message r_tool_result (lit "3 findings") None
               (Some (lit "call_1"));
             unknownToolMessage config (callTo "call_2" "frobnicate")]))
     (Resolved (says "done"));
   Yielded (response (lit "done")
              {| totalInputTokens := 0; totalOutputTokens := 0 |}) None].

(** The same run when the host denies the call. *)
Definition afterDeniedRequest : list Event :=
  [Yielded (tool_call dead_code (lit "call_1") []) None;
   Requested
     (requestOf config
        (initialMessages config [] hi
         ++ [assistantMessage toolsResponse;
             message r_tool_result
               (lit "Tool execution was skipped or denied by the user.") None
               (Some (lit "call_1"));
             message r_tool_result
               (lit "Unknown tool: " ++ [DQUOTE] ++ lit "frobnicate" ++ [DQUOTE]
                ++ lit ". Available tools: dead-code")
               None (Some (lit "call_2"))]))
     (Resolved (says "done"));
   Yielded (response (lit "done")
              {| totalInputTokens := 0; totalOutputTokens := 0 |}) None].

(** Two files: [used] is imported by the second one, [lonely] by none;
    the first has a default export. *)
Definition files : list DeadCode.SourceFile :=
  [ {| DeadCode.relPath := lit "a.ts";
       DeadCode.language := Some DeadCode.typescript;
       DeadCode.text :=
         Some (join [LF] [lit "export function used() {}";
                          lit "export function lonely() {}";
                          lit "export default class {}"]) |};
    {| DeadCode.relPath := lit "b.ts";
       DeadCode.language := Some DeadCode.typescript;
       DeadCode.text :=
         Some (join [LF] [lit "import { used } from './a';";
                          lit "used();"]) |} ].

Definition used : DeadCode.ExportInfo :=
  {| DeadCode.name := lit "used"; DeadCode.line := 1;
     DeadCode.kind := DeadCode.k_function |}.

Definition lonely : DeadCode.ExportInfo :=
  {| DeadCode.name := lit "lonely"; DeadCode.line := 2;
     DeadCode.kind := DeadCode.k_function |}.

Definition defaultExport : DeadCode.ExportInfo :=
  {| DeadCode.name := lit "default"; DeadCode.line := 3;
     DeadCode.kind := DeadCode.k_default |}.

Definition ids (k : nat) : jsstring := lit "id-" ++ ofZ (Z.of_nat k).

(** The model dismisses the finding on line 2 of [a.ts]. *)
Definition dismissal : ModelResponse :=
  {| rs_content := join [LF] [lit "CONFIRM|a.ts:1"; lit "DISMISS|a.ts:2|entry point"];
     rs_usage := None; rs_toolCalls := None; rs_stopReason := Some end_turn |}.

(** A review with one well-formed line and one line of garbage. *)
Definition review : jsstring :=
  join [LF] [lit "ISSUE|a.ts|12|desc"; lit "this line is garbage"].

(** A block without separator, followed by a complete block. *)
Definition orphanThenBlock : jsstring :=
  join [LF]
    [lit "<<<<<<< A"; lit "x"; lit ">>>>>>> B";
     lit "<<<<<<< C"; lit "o"; lit "======="; lit "t"; lit ">>>>>>> D"].

(** The block of the tests: no separator, and nothing after it. *)
Definition orphanBlock : jsstring :=
  join [LF] [lit "<<<<<<< HEAD"; lit "orphan content"; lit ">>>>>>> feature"].

End Samples.

Module MeteredRun.
Import Agent Samples.

(** The provider asks once for [dead-code], reporting 10 + 5 tokens, and
    then answers, reporting 20 + 7. *)
Definition meteredProvider (past : list Event) (_ : ModelRequestOptions)
  : ProviderOutcome :=
  match past with
  | [] => Resolved (asks [callTo "call_1" "dead-code"]
                      (Some {| inputTokens := 10; outputTokens := 5 |}))
  | _ => Resolved {| rs_content := lit "done";
                     rs_usage := Some {| inputTokens := 20; outputTokens := 7 |};
                     rs_toolCalls := None; rs_stopReason := Some end_turn |}
  end.

Definition meteredEnv : Environment :=
  {| provider := meteredProvider; host := faithfulHost |}.

End MeteredRun.

Module ConflictSamples.

(** A file with one complete conflict between two clean lines. *)
Definition oneConflict : jsstring :=
  join [LF]
    [lit "import a"; lit "<<<<<<< HEAD"; lit "const x = 1;"; lit "=======";
     lit "const x = 2;"; lit "const y = 3;"; lit ">>>>>>> feature"; lit "done"].

(** A conflict whose closing marker is missing. *)
Definition unterminatedConflict : jsstring :=
  join [LF]
    [lit "import a"; lit "<<<<<<< HEAD"; lit "const x = 1;"; lit "=======";
     lit "const x = 2;"].

End ConflictSamples.

Module CommentSamples.
Import CommentBlocks.

Definition block (first last : Z) : CommentBlock :=
  {| content := lit "// note"; startLine := first; endLine := last;
     language := DeadCode.typescript |}.

(** Blocks sorted by start line; the second lies inside the first. *)
Definition blocks : list CommentBlock := [block 1 5; block 2 3; block 7 7].

Definition blame : list (BlameRange Z) :=
  [ {| br_startLine := 1; br_lineCount := 4; br_ageDays := 200 |};
    {| br_startLine := 5; br_lineCount := 10; br_ageDays := 3 |};
    {| br_startLine := 7; br_lineCount := 1; br_ageDays := 400 |} ].

End CommentSamples.

Module ProposalSamples.

(** Two proposals of the model and a line it should not have sent; the
    replacement of the second proposal holds a pipe. *)
Definition proposals : jsstring :=
  join [LF] [lit "remove | 3 | 4 | restates the code";
             lit "KEEP|9|9|explains why";
             lit "REWRITE|12|14|too long|// a | b"].

End ProposalSamples.

Module DiscoverySamples.
Import Discovery.

(** Paths joined with a slash, as [path.join] does on the names below. *)
Definition slashJoin (dir name : jsstring) : jsstring := dir ++ lit "/" ++ name.

(** On the names below [path.extname] is the text from the last dot on. *)
Definition lastDotExtension : jsstring -> jsstring := CommentBlocks.getExtension.

(** A tree with a source file, a file of another kind, a skipped directory
    and a directory with one more source file. *)
Definition tree : list Dirent :=
  [ FileEntry (lit "a.ts"); FileEntry (lit "README.md");
    DirEntry (lit "node_modules") (Some [FileEntry (lit "dep.js")]);
    DirEntry (lit "lib") (Some [FileEntry (lit "b.py"); OtherEntry (lit "link")]) ].

Definition roots : list (jsstring * option RootStat) :=
  [ (lit "/repo", Some (RootDirectory (Some tree)));
    (lit "/gone", None);
    (lit "/notes.txt", Some RootFile) ].

End DiscoverySamples.

(* ===================================================================== *)
(** * Facts on strings *)
(* ===================================================================== *)

Module JsFacts.

Lemma eqb_eq a b : Js.eqb a b = true <-> a = b.
Proof.
  unfold Js.eqb. destruct (list_eq_dec N.eq_dec a b); split; auto; discriminate.
Qed.

Lemma eqb_refl a : Js.eqb a a = true.
Proof. now apply eqb_eq. Qed.

Lemma startsWith_app p s : startsWith p (p ++ s) = true.
Proof.
  induction p as [| c p IH]; simpl; auto. now rewrite N.eqb_refl.
Qed.

Lemma startsWith_prefix p s :
  startsWith p s = true <-> exists rest, s = p ++ rest.
Proof.
  revert s. induction p as [| c p IH]; intros s; simpl.
  - split; eauto.
  - destruct s as [| d s].
    + split; [discriminate | intros (rest & E); discriminate].
    + rewrite andb_true_iff, N.eqb_eq, IH. split.
      * intros (-> & rest & ->). eauto.
      * intros (rest & E). injection E as -> ->. eauto.
Qed.

Lemma includes_prefix p s : includes p (p ++ s) = true.
Proof.
  destruct (p ++ s) eqn:E; simpl; rewrite <- E, startsWith_app; reflexivity.
Qed.

Lemma includes_app_r p a s : includes p s = true -> includes p (a ++ s) = true.
Proof.
  intros H. induction a as [| c a IH]; simpl; auto.
  rewrite IH. apply orb_true_r.
Qed.

Lemma includes_suffix p a : includes p (a ++ p) = true.
Proof.
  apply includes_app_r. rewrite <- (app_nil_r p) at 2. apply includes_prefix.
Qed.

End JsFacts.

(* ===================================================================== *)
(** * Properties of the agent loop *)
(* ===================================================================== *)

Module AgentFacts.
Import Agent.

Ltac inv H := inversion H; subst; clear H.

(** A run of [m >>= f] is a run of [m] followed by a run of [f]. *)
Lemma run_bind {A B : Type} (m : Gen A) (f : A -> Gen B) tr b :
  Run (bind m f) tr b <->
  exists tr1 a tr2, Run m tr1 a /\ Run (f a) tr2 b /\ tr = tr1 ++ tr2.
Proof.
  revert tr. induction m as [a | action k IH | request k IH |]; intros tr; simpl.
  - split.
    + intros H. exists [], a, tr. repeat split; auto. constructor.
    + intros (tr1 & a' & tr2 & H1 & H2 & ->). inv H1. exact H2.
  - split.
    + intros H. inv H. apply IH in H4 as (tr1 & a & tr2 & H1 & H2 & ->).
      exists (Yielded action r :: tr1), a, tr2. repeat split; auto.
      constructor; assumption.
    + intros (tr1 & a & tr2 & H1 & H2 & ->). inv H1. simpl. constructor.
      apply IH. eauto 10.
  - split.
    + intros H. inv H. apply IH in H4 as (tr1 & a & tr2 & H1 & H2 & ->).
      exists (Requested request outcome :: tr1), a, tr2. repeat split; auto.
      constructor; assumption.
    + intros (tr1 & a & tr2 & H1 & H2 & ->). inv H1. simpl. constructor.
      apply IH. eauto 10.
  - split.
    + intros H. inv H.
    + intros (tr1 & a & tr2 & H1 & _). inv H1.
Qed.

Lemma run_yieldAndReturn {A : Type} action (a : A) tr b :
  Run (yieldAndReturn action a) tr b <->
  exists r, tr = [Yielded action r] /\ b = a.
Proof.
  unfold yieldAndReturn. split.
  - intros H. inv H. inv H4. eauto.
  - intros (r & -> & ->). repeat constructor.
Qed.

(** The run that [drive] computes is a run: one that finishes with the
    value [drive] gives, or one that throws when it gives none. *)
Lemma drive_settles {A : Type} env (g : Gen A) past :
  match snd (drive env g past) with
  | Some a => Run g (fst (drive env g past)) a
  | None => Throws g (fst (drive env g past))
  end.
Proof.
  revert past.
  induction g as [a | action k IH | request k IH |]; intros past; simpl.
  - constructor.
  - specialize (IH (host env past action)
                  (Yielded action (host env past action) :: past)).
    destruct (drive env (k (host env past action)) _) as [tr [a |]]; simpl in *;
      constructor; exact IH.
  - specialize (IH (provider env past request)
                  (Requested request (provider env past request) :: past)).
    destruct (drive env (k (provider env past request)) _) as [tr [a |]];
      simpl in *; constructor; exact IH.
  - constructor.
Qed.

Lemma drive_run {A : Type} env (g : Gen A) past a :
  snd (drive env g past) = Some a -> Run g (fst (drive env g past)) a.
Proof. intros E. pose proof (drive_settles env g past) as H. now rewrite E in H. Qed.

Lemma drive_throws {A : Type} env (g : Gen A) past :
  snd (drive env g past) = None -> Throws g (fst (drive env g past)).
Proof. intros E. pose proof (drive_settles env g past) as H. now rewrite E in H. Qed.

(** A run of [m >>= f] throws when [m] does, or when [f] does after a run of
    [m]. *)
Lemma throws_bind {A B : Type} (m : Gen A) (f : A -> Gen B) tr :
  Throws (bind m f) tr <->
  Throws m tr
  \/ exists tr1 a tr2, Run m tr1 a /\ Throws (f a) tr2 /\ tr = tr1 ++ tr2.
Proof.
  revert tr. induction m as [a | action k IH | request k IH |]; intros tr; simpl.
  - split.
    + intros H. right. exists [], a, tr. repeat split; auto. constructor.
    + intros [H | (tr1 & a' & tr2 & H1 & H2 & ->)]; [inv H |]. inv H1. exact H2.
  - split.
    + intros H. inv H.
      apply IH in H3 as [H | (tr1 & a & tr2 & H1 & H2 & ->)].
      * left. now constructor.
      * right. exists (Yielded action r :: tr1), a, tr2. repeat split; auto.
        constructor; assumption.
    + intros [H | (tr1 & a & tr2 & H1 & H2 & ->)].
      * inv H. constructor. apply IH. now left.
      * inv H1. simpl. constructor. apply IH. right. eauto 10.
  - split.
    + intros H. inv H.
      apply IH in H3 as [H | (tr1 & a & tr2 & H1 & H2 & ->)].
      * left. now constructor.
      * right. exists (Requested request outcome :: tr1), a, tr2.
        repeat split; auto. constructor; assumption.
    + intros [H | (tr1 & a & tr2 & H1 & H2 & ->)].
      * inv H. constructor. apply IH. now left.
      * inv H1. simpl. constructor. apply IH. right. eauto 10.
  - split.
    + intros H. inv H. left. constructor.
    + intros [H | (tr1 & a & tr2 & H1 & _)]; [inv H; constructor | inv H1].
Qed.

Section Loop.

Variable getToolByCommand : jsstring -> option ToolRegistryEntry.
Variable config : AgentConfig.

Local Abbreviation processToolCalls := (processToolCalls getToolByCommand config).
Local Abbreviation turnLoop := (turnLoop getToolByCommand config).
Local Abbreviation runAgentLoop := (runAgentLoop getToolByCommand config).
Local Abbreviation unknownToolMessage := (unknownToolMessage config).

Local Abbreviation handles := (handles getToolByCommand config).
Local Abbreviation Batch := (Batch getToolByCommand config).
Local Abbreviation Turns := (Turns getToolByCommand config).
Local Abbreviation requestOf := (requestOf config).

Lemma processToolCalls_run calls messages tr messages' :
  Run (processToolCalls calls messages) tr messages' <->
  exists results, Batch calls tr results /\ messages' = messages ++ results.
Proof.
  revert messages tr. induction calls as [| call calls IH]; intros messages tr.
  - simpl. split.
    + intros H. inv H. exists []. split; [constructor | now rewrite app_nil_r].
    + intros (results & HB & ->). inv HB. rewrite app_nil_r. constructor.
  - cbn [Agent.processToolCalls]. split.
    + intros H. destruct (getToolByCommand (tc_name call)) as [entry |] eqn:E.
      * inv H. apply IH in H4 as (results & HB & ->).
        exists (resultMessage call r :: results). split.
        -- change (Yielded (actionFor entry call) r :: tr0)
             with ([Yielded (actionFor entry call) r] ++ tr0).
           constructor; auto. unfold handles. rewrite E. eauto.
        -- now rewrite <- app_assoc.
      * apply IH in H as (results & HB & ->).
        exists (unknownToolMessage call :: results). split.
        -- change tr with ([] ++ tr). constructor; auto.
           unfold handles. rewrite E. auto.
        -- now rewrite <- app_assoc.
    + intros (results & HB & ->).
      inversion HB as [| c evs m cs tr' results' Hh Hb]; subst; clear HB.
      unfold handles in Hh.
      destruct (getToolByCommand (tc_name call)) as [entry |] eqn:E.
      * destruct Hh as (r & -> & ->). simpl. constructor. apply IH.
        exists results'. split; auto. now rewrite <- app_assoc.
      * destruct Hh as (-> & ->). simpl. apply IH.
        exists results'. split; auto. now rewrite <- app_assoc.
Qed.

Lemma requestsTools_true resp :
  requestsTools resp = true <->
  exists call calls, rs_toolCalls resp = Some (call :: calls).
Proof.
  unfold requestsTools. destruct (rs_toolCalls resp) as [[| c cs] |]; split;
    try discriminate; eauto; intros (c' & cs' & H); discriminate.
Qed.

(** The runs of the loop are those that [Turns] describes. *)
Lemma turnLoop_run t messages totals tr final :
  Run (turnLoop t messages totals) tr final <-> Turns t messages totals tr final.
Proof.
  revert messages totals tr.
  induction t as [| t IH]; intros messages totals tr; cbn [Agent.turnLoop].
  - rewrite run_yieldAndReturn. split.
    + intros (r & -> & ->). constructor.
    + intros H. inv H. eauto.
  - unfold MIN_TOKEN_BUDGET_THRESHOLD.
    destruct (Z.leb_spec (maxTokenBudget config - 100) (tokensUsed totals))
      as [Hb | Hb].
    + rewrite run_yieldAndReturn. split.
      * intros (r & -> & ->). now constructor.
      * intros H. inv H; try lia. eauto.
    + split.
      * intros H. inv H. destruct outcome as [resp | err].
        -- destruct (rs_toolCalls resp) as [[| call calls] |] eqn:E.
           ++ apply run_yieldAndReturn in H4 as (r & -> & ->).
              constructor; auto. unfold requestsTools. now rewrite E.
           ++ apply run_bind in H4 as (tr1 & messages' & tr2 & H1 & H2 & ->).
              apply processToolCalls_run in H1 as (results & HB & ->).
              apply IH in H2.
              eapply TurnsTools; eauto.
              ** unfold requestsTools. now rewrite E.
              ** unfold assistantMessage. rewrite E.
                 now rewrite <- app_assoc in H2.
           ++ apply run_yieldAndReturn in H4 as (r & -> & ->).
              constructor; auto. unfold requestsTools. now rewrite E.
        -- destruct (requestFailedMessage err) as [text |] eqn:Et; [| inv H4].
           apply run_yieldAndReturn in H4 as (r & -> & ->). now constructor.
      * intros H.
        inversion H as [ | ? ? ? ? Hge | ? ? ? err text r Hlt Htext
                       | ? ? ? resp r Hlt Hno
                       | ? ? ? resp calls batch results tr' ? Hlt Hyes Hcalls HB HT ];
          subst; try lia.
        -- constructor. rewrite Htext. apply run_yieldAndReturn. eauto.
        -- constructor. unfold requestsTools in Hno.
           destruct (rs_toolCalls resp) as [[| call calls] |];
             try discriminate; apply run_yieldAndReturn; eauto.
        -- constructor.
           apply requestsTools_true in Hyes as (c & cs & E).
           rewrite E in Hcalls. inv Hcalls. rewrite E.
           apply run_bind.
           exists batch, (messages ++ [assistantMessage resp] ++ results), tr'.
           split; [| split; [apply IH; assumption | reflexivity]].
           apply processToolCalls_run. exists results. split; auto.
           unfold assistantMessage. rewrite E. now rewrite <- app_assoc.
Qed.

Lemma runAgentLoop_run history userMessage tr final :
  Run (runAgentLoop history userMessage) tr final <->
  Turns (Z.to_nat (maxTurns config))
    (initialMessages config history userMessage)
    {| totalInputTokens := 0; totalOutputTokens := 0 |} tr final.
Proof. apply turnLoop_run. Qed.

(** *** Bookkeeping on traces *)

Lemma reportedUsage_app tr1 tr2 :
  reportedUsage (tr1 ++ tr2) = reportedUsage tr1 + reportedUsage tr2.
Proof.
  induction tr1 as [| [rq [resp | err] | a r] tr1 IH]; simpl; lia.
Qed.

Lemma requestCount_app tr1 tr2 :
  requestCount (tr1 ++ tr2) = (requestCount tr1 + requestCount tr2)%nat.
Proof.
  unfold requestCount. now rewrite filter_app, length_app.
Qed.

Lemma yieldedActions_app tr1 tr2 :
  yieldedActions (tr1 ++ tr2) = yieldedActions tr1 ++ yieldedActions tr2.
Proof.
  induction tr1 as [| [rq o | a r] tr1 IH]; simpl; congruence.
Qed.

Lemma toolYields_reportedUsage tr :
  Forall isToolYield tr -> reportedUsage tr = 0.
Proof.
  induction 1 as [| [rq o | a r] tr H _ IH]; simpl in *; auto; contradiction.
Qed.

Lemma toolYields_requestCount tr :
  Forall isToolYield tr -> requestCount tr = 0%nat.
Proof.
  induction 1 as [| [rq o | a r] tr H _ IH]; simpl in *; auto; contradiction.
Qed.

Lemma toolYields_no_terminal tr :
  Forall isToolYield tr -> filter isTerminal (yieldedActions tr) = [].
Proof.
  induction 1 as [| e tr H _ IH]; [reflexivity |].
  destruct e as [rq o | a r]; simpl in *; [contradiction | now rewrite H].
Qed.

Lemma actionFor_not_terminal entry call :
  isTerminal (actionFor entry call) = false.
Proof. unfold actionFor. now destruct (e_invocation entry). Qed.

(** A batch only yields tool actions; it makes no request. *)
Lemma batch_toolYields calls tr results :
  Batch calls tr results -> Forall isToolYield tr.
Proof.
  induction 1 as [| call evs m calls tr results Hh _ IH]; [constructor |].
  apply Forall_app. split; auto. unfold Agent.handles in Hh.
  destruct (getToolByCommand (tc_name call)).
  - destruct Hh as (r & -> & _). repeat constructor.
    apply actionFor_not_terminal.
  - destruct Hh as (-> & _). constructor.
Qed.

(** A request of [batch ++ tr] lies in [tr]. *)
Lemma split_after_toolYields batch tr pre e post :
  Forall isToolYield batch -> isRequest e = true ->
  batch ++ tr = pre ++ e :: post ->
  exists pre', pre = batch ++ pre' /\ tr = pre' ++ e :: post.
Proof.
  intros Hb He. revert pre. induction Hb as [| x batch Hx _ IH]; intros pre H.
  - exists pre. auto.
  - destruct pre as [| y pre]; simpl in H; inv H.
    + destruct e; simpl in *; [contradiction | discriminate].
    + apply IH in H2 as (pre' & -> & ->). exists pre'. auto.
Qed.

Lemma tokensUsed_accrue totals u :
  tokensUsed (accrue totals u) = tokensUsed totals + usageTokens u.
Proof. destruct u as [u |]; unfold tokensUsed; simpl; lia. Qed.

(** *** The token budget *)

Lemma turns_budget t messages totals tr final :
  Turns t messages totals tr final ->
  let B := maxTokenBudget config in
  (forall pre request outcome post,
      tr = pre ++ Requested request outcome :: post ->
      tokensUsed totals + reportedUsage pre < B - 100)
  /\ ((0 < t)%nat -> B - 100 <= tokensUsed totals ->
      exists r,
        tr = [Yielded (error (budgetExhaustedMessage (tokensUsed totals) B)) r])
  /\ (forall pre request resp post,
        tr = pre ++ Requested request (Resolved resp) :: post ->
        let used :=
          tokensUsed totals
          + reportedUsage (pre ++ [Requested request (Resolved resp)]) in
        B - 100 <= used ->
        requestsTools resp = true ->
        (requestCount pre + 1 < t)%nat ->
        exists batch r,
          post = batch ++ [Yielded (error (budgetExhaustedMessage used B)) r]
          /\ Forall isToolYield batch).
Proof.
  intros H B. subst B.
  induction H as [ messages totals r | t messages totals r Hge
                 | t messages totals err text r Hlt Htext
                 | t messages totals resp r Hlt Hno
                 | t messages totals resp calls batch results tr final
                     Hlt Hyes Hcalls HB HT IH ].
  - repeat split.
    + intros [| e pre] ? ? ? E; inv E. destruct pre; discriminate.
    + lia.
    + intros [| e pre] ? ? ? E; inv E. destruct pre; discriminate.
  - repeat split.
    + intros [| e pre] ? ? ? E; inv E. destruct pre; discriminate.
    + eauto.
    + intros [| e pre] ? ? ? E; inv E. destruct pre; discriminate.
  - repeat split.
    + intros [| e pre] ? ? ? E; inv E; simpl; [lia |].
      destruct pre as [| e' pre]; inv H1. destruct pre; discriminate.
    + lia.
    + intros [| e pre] ? ? ? E; inv E.
      destruct pre as [| e' pre]; inv H1. destruct pre; discriminate.
  - repeat split.
    + intros [| e pre] ? ? ? E; inv E; simpl; [lia |].
      destruct pre as [| e' pre]; inv H1. destruct pre; discriminate.
    + lia.
    + intros [| e pre] ? ? ? E; inv E; [congruence |].
      destruct pre as [| e' pre]; inv H1. destruct pre; discriminate.
  - destruct IH as (IH1 & IH2 & IH3).
    pose proof (batch_toolYields HB) as Hty.
    rewrite tokensUsed_accrue in IH1, IH2, IH3.
    repeat split.
    + intros [| e pre] request outcome post E; simpl in E;
        injection E as <- E; simpl; [lia |].
      apply split_after_toolYields in E as (pre' & -> & ->); auto.
      rewrite reportedUsage_app, (toolYields_reportedUsage Hty).
      specialize (IH1 _ _ _ _ eq_refl). lia.
    + lia.
    + intros [| e pre] request resp' post E; simpl in E; cbn zeta.
      * injection E as <- <- <-.
        simpl. intros Hused _ Hturns.
        destruct IH2 as (r & ->); [lia | lia |].
        exists batch, r. split; auto. repeat f_equal. lia.
      * injection E as <- E.
        apply split_after_toolYields in E as (pre' & -> & ->); auto.
        simpl. rewrite <- app_assoc, !reportedUsage_app.
        rewrite (toolYields_reportedUsage Hty).
        change (Datatypes.length (filter isRequest (batch ++ pre')))
          with (requestCount (batch ++ pre')).
        rewrite requestCount_app, (toolYields_requestCount Hty).
        intros Hused Hreq Hturns.
        specialize (IH3 pre' request resp' post eq_refl). cbn zeta in IH3.
        rewrite reportedUsage_app in IH3.
        destruct IH3 as (batch' & r & -> & Hb'); auto; try lia.
        exists batch', r. split; auto.
        match goal with
        | |- ?l ++ [Yielded (error (budgetExhaustedMessage ?x ?b)) ?r] =
             ?l ++ [Yielded (error (budgetExhaustedMessage ?y ?b)) ?r] =>
            replace y with x by lia; reflexivity
        end.
Qed.

(** C1.  The running total is the sum of the usage the provider has
    reported (a response without usage adds nothing).  No model request
    is issued once the total has reached [maxTokenBudget - 100]: when a loop
    iteration starts with such a total -- the first one, or the one that
    follows a response asking for tools while turns remain -- the generator
    yields the error action that reads
    [Token budget exhausted (<total> / <budget> tokens used).] and finishes.
    The limits of the configuration are safe integers and the token counts
    non-negative integers with a safe total. *)
Theorem token_budget_check history userMessage tr final :
  Run (runAgentLoop history userMessage) tr final ->
  limitsInRange config = true ->
  usageInRange tr = true ->
  let B := maxTokenBudget config in
  let exhausted (used : Z) : jsstring :=
    lit "Token budget exhausted (" ++ ofZ used ++ lit " / " ++ ofZ B
    ++ lit " tokens used)." in
  (forall pre request outcome post,
      tr = pre ++ Requested request outcome :: post ->
      reportedUsage pre < B - 100)
  /\ (0 < maxTurns config -> B - 100 <= 0 ->
      exists r, tr = [Yielded (error (exhausted 0)) r])
  /\ (forall pre request resp post,
        tr = pre ++ Requested request (Resolved resp) :: post ->
        let used := reportedUsage (pre ++ [Requested request (Resolved resp)]) in
        B - 100 <= used ->
        requestsTools resp = true ->
        (requestCount pre + 1 < Z.to_nat (maxTurns config))%nat ->
        exists batch r,
          post = batch ++ [Yielded (error (exhausted used)) r]
          /\ Forall isToolYield batch).
Proof.
  intros H _ _ B exhausted. apply runAgentLoop_run in H.
  apply turns_budget in H. cbn zeta in H. unfold tokensUsed in H. simpl in H.
  destruct H as (H1 & H2 & H3). repeat split.
  - intros. eapply H1. eassumption.
  - intros Hn Hb. apply H2; lia.
  - intros pre request resp post E. cbn zeta. intros Hu Hr Ht.
    apply (H3 pre request resp post E); assumption.
Qed.

(** *** Turn limit *)

Lemma terminal_filter_app tr1 tr2 :
  Forall isToolYield tr1 ->
  filter isTerminal (yieldedActions (tr1 ++ tr2))
  = filter isTerminal (yieldedActions tr2).
Proof.
  intros H. now rewrite yieldedActions_app, filter_app, toolYields_no_terminal.
Qed.

Lemma alwaysRequestsTools_tail e tr :
  alwaysRequestsTools (e :: tr) -> alwaysRequestsTools tr.
Proof. intros H request outcome Hin. apply (H request outcome). now right. Qed.

Lemma alwaysRequestsTools_app_r tr1 tr2 :
  alwaysRequestsTools (tr1 ++ tr2) -> alwaysRequestsTools tr2.
Proof.
  intros H request outcome Hin. apply (H request outcome).
  apply in_or_app. now right.
Qed.

Lemma turns_always_tools t messages totals tr final :
  Turns t messages totals tr final ->
  alwaysRequestsTools tr ->
  exists body r msg,
    tr = body ++ [Yielded (error msg) r]
    /\ Forall isToolYield (filter (fun e => negb (isRequest e)) body)
    /\ ((msg = turnLimitMessage (maxTurns config) /\ requestCount tr = t)
        \/ (msg = budgetExhaustedMessage
                    (tokensUsed totals + reportedUsage tr)
                    (maxTokenBudget config)
            /\ maxTokenBudget config - 100 <= tokensUsed totals + reportedUsage tr
            /\ (requestCount tr < t)%nat)).
Proof.
  induction 1 as [ messages totals r | t messages totals r Hge
                 | t messages totals err text r Hlt Htext
                 | t messages totals resp r Hlt Hno
                 | t messages totals resp calls batch results tr final
                     Hlt Hyes Hcalls HB HT IH ]; intros Hall.
  - exists [], r, (turnLimitMessage (maxTurns config)).
    repeat split; auto.
  - exists [], r. eexists. repeat split; auto. right.
    simpl. rewrite Z.add_0_r. repeat split; auto. unfold requestCount. simpl. lia.
  - destruct (Hall _ _ (or_introl eq_refl)) as (resp & E & _). discriminate.
  - destruct (Hall _ _ (or_introl eq_refl)) as (resp' & E & Hr).
    injection E as <-. congruence.
  - pose proof (batch_toolYields HB) as Hty.
    destruct IH as (body & r & msg & -> & Hbody & Hmsg).
    { eapply alwaysRequestsTools_app_r, alwaysRequestsTools_tail, Hall. }
    exists (Requested (requestOf messages) (Resolved resp) :: batch ++ body),
      r, msg.
    split; [simpl; now rewrite <- app_assoc |]. split.
    + simpl. rewrite filter_app. apply Forall_app. split; auto.
      clear -Hty. induction Hty as [| e l He _ IH]; simpl; auto.
      destruct e; simpl in *; [contradiction | constructor; auto].
    + rewrite tokensUsed_accrue in Hmsg.
      change (Requested (requestOf messages) (Resolved resp)
                :: batch ++ body ++ [Yielded (error msg) r])
        with ([Requested (requestOf messages) (Resolved resp)]
                ++ batch ++ body ++ [Yielded (error msg) r]).
      rewrite !requestCount_app, !reportedUsage_app,
        (toolYields_requestCount Hty), (toolYields_reportedUsage Hty).
      rewrite requestCount_app, reportedUsage_app in Hmsg.
      change (requestCount [Requested (requestOf messages) (Resolved resp)])
        with 1%nat.
      change (reportedUsage [Requested (requestOf messages) (Resolved resp)])
        with (usageTokens (rs_usage resp) + 0).
      change (requestCount [Yielded (error msg) r]) with 0%nat in *.
      change (reportedUsage [Yielded (error msg) r]) with 0 in *.
      destruct Hmsg as [(Em & Hn) | (Em & Hb & Hn)]; [left | right].
      * split; auto; lia.
      * repeat split; try lia. rewrite Em. f_equal. lia.
Qed.

Lemma no_terminal_before_last body :
  Forall isToolYield (filter (fun e => negb (isRequest e)) body) ->
  filter isTerminal (yieldedActions body) = [].
Proof.
  induction body as [| [rq o | a r] body IH]; simpl; intros H; auto.
  inversion H as [| ? ? Ha Hrest]; subst. simpl in Ha. rewrite Ha. auto.
Qed.

Lemma response_is_terminal l :
  filter isTerminal l = [] -> filter isResponse l = [].
Proof.
  induction l as [| a l IH]; simpl; auto.
  destruct a; simpl; auto; discriminate.
Qed.

(** C2, as the code has it.  When no response of the provider is a final
    answer (each asks for at least one tool), a run makes at most
    [maxTurns] requests, yields no [response] action, and yields exactly one
    terminal action, an [error], as its last event.  The error reads
    [Agent loop reached maximum turns (<maxTurns>). Stopping to prevent
    runaway execution.] when all [maxTurns] requests were made; it reads
    [Token budget exhausted (<total> / <budget> tokens used).] when the
    running total reached [maxTokenBudget - 100] before that.  [maxTurns] is
    an integer; the limits are safe integers and the token counts
    non-negative integers with a safe total. *)
Theorem turn_limit_or_budget history userMessage tr final :
  Run (runAgentLoop history userMessage) tr final ->
  limitsInRange config = true ->
  usageInRange tr = true ->
  alwaysRequestsTools tr ->
  let N := Z.to_nat (maxTurns config) in
  let B := maxTokenBudget config in
  (requestCount tr <= N)%nat
  /\ filter isResponse (yieldedActions tr) = []
  /\ exists msg,
       filter isTerminal (yieldedActions tr) = [error msg]
       /\ (exists body r, tr = body ++ [Yielded (error msg) r])
       /\ ((msg = lit "Agent loop reached maximum turns ("
                  ++ ofZ (maxTurns config)
                  ++ lit "). Stopping to prevent runaway execution."
            /\ requestCount tr = N)
           \/ (msg = lit "Token budget exhausted (" ++ ofZ (reportedUsage tr)
                     ++ lit " / " ++ ofZ B ++ lit " tokens used)."
               /\ B - 100 <= reportedUsage tr
               /\ (requestCount tr < N)%nat)).
Proof.
  intros H _ _ Hall N B. apply runAgentLoop_run in H.
  destruct (turns_always_tools H Hall) as (body & r & msg & E & Hbody & Hmsg).
  unfold tokensUsed in Hmsg. simpl in Hmsg.
  assert (Hterm : filter isTerminal (yieldedActions tr) = [error msg]).
  { rewrite E, yieldedActions_app, filter_app, no_terminal_before_last; auto. }
  assert (Hresp : filter isResponse (yieldedActions tr) = []).
  { rewrite E, yieldedActions_app, filter_app. simpl.
    rewrite response_is_terminal; auto. now apply no_terminal_before_last. }
  split; [| split; auto].
  - fold N in Hmsg. destruct Hmsg as [(_ & Hn) | (_ & _ & Hn)]; lia.
  - exists msg. split; auto. split; [eauto |]. exact Hmsg.
Qed.

(** *** Provider failures *)

Lemma turns_rejected t messages totals tr final :
  Turns t messages totals tr final ->
  forall pre request err post,
    tr = pre ++ Requested request (Rejected err) :: post ->
    exists text,
      requestFailedMessage err = Some text
      /\ (exists r, post = [Yielded (error text) r])
      /\ filter isTerminal (yieldedActions tr) = [error text].
Proof.
  induction 1 as [ messages totals r | t messages totals r Hge
                 | t messages totals err0 text r Hlt Htext
                 | t messages totals resp r Hlt Hno
                 | t messages totals resp calls batch results tr final
                     Hlt Hyes Hcalls HB HT IH ];
    intros pre request err post E.
  - destruct pre as [| e [| e' pre]]; discriminate.
  - destruct pre as [| e [| e' pre]]; discriminate.
  - destruct pre as [| e [| e' [| e'' pre]]]; try discriminate.
    injection E as <- <- <-. exists text. split; eauto.
  - destruct pre as [| e [| e' [| e'' pre]]]; discriminate.
  - pose proof (batch_toolYields HB) as Hty.
    destruct pre as [| e pre]; [discriminate |].
    simpl in E. injection E as <- E.
    apply split_after_toolYields in E as (pre' & -> & ->); auto.
    destruct (IH _ _ _ _ eq_refl) as (text & Htext & Hpost & Hterm).
    exists text. repeat split; auto.
    cbn [yieldedActions]. now rewrite terminal_filter_app.
Qed.

(** In a run that the generator finishes, what a rejected [sendRequest]
    carried had a string form, and the rejection is answered by one [error]
    action that reads [Model request failed: ] followed by that text;
    nothing follows it: it is the only terminal action of the run. *)
Lemma provider_failure_is_terminal_error history userMessage tr final :
  Run (runAgentLoop history userMessage) tr final ->
  forall pre request err post,
    tr = pre ++ Requested request (Rejected err) :: post ->
    exists text,
      (err = ThrownError text \/ err = ThrownValue text)
      /\ (exists r,
             post = [Yielded (error (lit "Model request failed: " ++ text)) r])
      /\ filter isTerminal (yieldedActions tr)
         = [error (lit "Model request failed: " ++ text)].
Proof.
  intros H pre request err post E. apply runAgentLoop_run in H.
  destruct (turns_rejected H _ _ _ _ E) as (msg & Hmsg & H1 & H2).
  destruct err as [text | text |]; try discriminate;
    injection Hmsg as <-; exists text; auto.
Qed.

(** The batch of a response never throws. *)
Lemma processToolCalls_throws calls messages tr :
  ~ Throws (processToolCalls calls messages) tr.
Proof.
  revert messages tr. induction calls as [| call calls IH]; intros messages tr H.
  - inv H.
  - cbn [Agent.processToolCalls] in H.
    destruct (getToolByCommand (tc_name call)); [inv H |]; eapply IH; eauto.
Qed.

(** The loop throws in one way only: the provider has rejected with a
    value that has no string form, and the [catch] block throws while it
    builds the message.  That request is the last event, and no terminal
    action has been handed to the host. *)
Lemma turnLoop_throws t messages totals tr :
  Throws (turnLoop t messages totals) tr ->
  exists body request,
    tr = body ++ [Requested request (Rejected ThrownOpaque)]
    /\ (forall a, In a (yieldedActions tr) -> isTerminal a = false)
    /\ (requestCount tr <= t)%nat.
Proof.
  revert messages totals tr.
  induction t as [| t IH]; intros messages totals tr H; cbn [Agent.turnLoop] in H.
  - inv H. inv H3.
  - destruct (maxTokenBudget config - MIN_TOKEN_BUDGET_THRESHOLD
              <=? tokensUsed totals); [inv H; inv H3 |].
    inv H. destruct outcome as [resp | err].
    + destruct (rs_toolCalls resp) as [[| call calls] |] eqn:E;
        try (inv H3; match goal with H : Throws (Ret _) _ |- _ => inv H end).
      apply throws_bind in H3 as [H | (tr1 & messages' & tr2 & H1 & H2 & ->)].
      { now apply processToolCalls_throws in H. }
      apply processToolCalls_run in H1 as (results & HB & ->).
      pose proof (batch_toolYields HB) as Hty.
      destruct (IH _ _ _ H2) as (body & request & -> & Hact & Hcount).
      exists (Requested (requestOf messages) (Resolved resp) :: tr1 ++ body),
        request.
      split; [simpl; now rewrite <- app_assoc |]. split.
      * intros a Ha. cbn [yieldedActions] in Ha.
        rewrite yieldedActions_app in Ha. apply in_app_or in Ha as [Ha | Ha].
        -- clear -Hty Ha. induction Hty as [| [rq o | b r] l Hb _ IHl];
             simpl in *; try contradiction.
           destruct Ha as [<- | Ha]; auto.
        -- auto.
      * change (Requested (requestOf messages) (Resolved resp)
                :: tr1 ++ body ++ [Requested request (Rejected ThrownOpaque)])
          with ([Requested (requestOf messages) (Resolved resp)]
                ++ tr1 ++ body ++ [Requested request (Rejected ThrownOpaque)]).
        rewrite !requestCount_app, (toolYields_requestCount Hty).
        rewrite requestCount_app in Hcount.
        change (requestCount [Requested (requestOf messages) (Resolved resp)])
          with 1%nat.
        lia.
    + destruct err as [text | text |]; cbn [requestFailedMessage] in H3;
        try (inv H3; match goal with H : Throws (Ret _) _ |- _ => inv H end).
      inv H3. exists [], (requestOf messages). repeat split.
      * intros a [].
      * cbn. lia.
Qed.

(** A run that throws is a run that finishes, cut short: had the provider
    rejected the last request with a value that has a string form, the same
    events would have led to the error action.  So what holds of the events
    of every finished run holds of the events of a run that throws, up to
    what the last rejection carries. *)
Lemma turnLoop_throws_cut_short t messages totals tr :
  Throws (turnLoop t messages totals) tr ->
  exists body request,
    tr = body ++ [Requested request (Rejected ThrownOpaque)]
    /\ forall err text r,
         requestFailedMessage err = Some text ->
         exists final,
           Run (turnLoop t messages totals)
             (body ++ [Requested request (Rejected err); Yielded (error text) r])
             final.
Proof.
  revert messages totals tr.
  induction t as [| t IH]; intros messages totals tr H.
  - cbn [Agent.turnLoop] in H. inv H. inv H3.
  - pose proof H as H'. cbn [Agent.turnLoop] in H'.
    unfold MIN_TOKEN_BUDGET_THRESHOLD in H'.
    destruct (Z.leb_spec (maxTokenBudget config - 100) (tokensUsed totals))
      as [Hb | Hb]; [inv H'; inv H3 |].
    inv H'. destruct outcome as [resp | err].
    + destruct (rs_toolCalls resp) as [[| call calls] |] eqn:E;
        try (inv H3; match goal with H : Throws (Ret _) _ |- _ => inv H end).
      apply throws_bind in H3 as [H' | (tr1 & messages' & tr2 & H1 & H2 & ->)].
      { now apply processToolCalls_throws in H'. }
      apply processToolCalls_run in H1 as (results & HB & ->).
      destruct (IH _ _ _ H2) as (body & request & -> & Hrun).
      exists (Requested (requestOf messages) (Resolved resp) :: tr1 ++ body),
        request.
      split; [simpl; now rewrite <- app_assoc |].
      intros err text r Htext. destruct (Hrun err text r Htext) as (final & HR).
      exists final. apply turnLoop_run.
      cbn [app]. rewrite <- app_assoc.
      eapply TurnsTools; eauto.
      * unfold requestsTools. now rewrite E.
      * apply turnLoop_run in HR. unfold assistantMessage. rewrite E.
        now rewrite <- app_assoc in HR.
    + destruct err as [text | text |]; cbn [requestFailedMessage] in H3;
        try (inv H3; match goal with H : Throws (Ret _) _ |- _ => inv H end).
      inv H3. exists [], (requestOf messages). split; [reflexivity |].
      intros err text r Htext. exists messages. apply turnLoop_run.
      now constructor.
Qed.

(** Whatever the provider and the host do, the generator settles: it
    finishes, or it throws. *)
Lemma runAgentLoop_settles (env : Environment) history userMessage :
  (exists tr final, Run (runAgentLoop history userMessage) tr final)
  \/ (exists tr, Throws (runAgentLoop history userMessage) tr).
Proof.
  pose proof (drive_settles env (runAgentLoop history userMessage) []) as H.
  destruct (snd (drive env (runAgentLoop history userMessage) [])); eauto.
Qed.

(** *** Batches of tool calls *)

(** What follows a response that asks for tools: the batch, and then the
    loop again, entered with the messages the batch has left. *)
Lemma turns_after_request t messages totals tr final :
  Turns t messages totals tr final ->
  forall pre request resp post,
    tr = pre ++ Requested request (Resolved resp) :: post ->
    requestsTools resp = true ->
    exists calls batch results rest t' totals',
      rs_toolCalls resp = Some calls
      /\ post = batch ++ rest
      /\ Batch calls batch results
      /\ Turns t'
           (rq_messages request ++ [assistantMessage resp] ++ results)
           totals' rest final.
Proof.
  induction 1 as [ messages totals r | t messages totals r Hge
                 | t messages totals err0 text r Hlt Htext
                 | t messages totals resp0 r Hlt Hno
                 | t messages totals resp0 calls batch results tr final
                     Hlt Hyes Hcalls HB HT IH ];
    intros pre request resp post E Hreq.
  - destruct pre as [| e [| e' pre]]; discriminate.
  - destruct pre as [| e [| e' pre]]; discriminate.
  - destruct pre as [| e [| e' [| e'' pre]]]; discriminate.
  - destruct pre as [| e [| e' [| e'' pre]]]; try discriminate.
    injection E as <- <- <-. congruence.
  - pose proof (batch_toolYields HB) as Hty.
    destruct pre as [| e pre]; simpl in E.
    + injection E as <- <- <-.
      exists calls, batch, results, tr, t, (accrue totals (rs_usage resp0)).
      auto.
    + injection E as <- E.
      apply split_after_toolYields in E as (pre' & -> & ->); auto.
      eapply IH; eauto.
Qed.

(** How the loop starts: with the next request, or with the error of the
    turn limit or of the token budget. *)
Lemma turns_head t messages totals tr final :
  Turns t messages totals tr final ->
  (exists outcome rest, tr = Requested (requestOf messages) outcome :: rest)
  \/ (exists msg r,
        tr = [Yielded (error msg) r]
        /\ (msg = turnLimitMessage (maxTurns config)
            \/ msg = budgetExhaustedMessage (tokensUsed totals)
                       (maxTokenBudget config))).
Proof.
  destruct 1; [right | right | left | left | left]; eauto 8.
Qed.

(** Messages are only appended: every request of a run, and the final
    array, extend the messages the loop was entered with. *)
Lemma turns_extends t messages totals tr final :
  Turns t messages totals tr final ->
  (forall request outcome, In (Requested request outcome) tr ->
     exists ext, rq_messages request = messages ++ ext)
  /\ exists ext, final = messages ++ ext.
Proof.
  induction 1 as [ messages totals r | t messages totals r Hge
                 | t messages totals err0 text r Hlt Htext
                 | t messages totals resp0 r Hlt Hno
                 | t messages totals resp0 calls batch results tr final
                     Hlt Hyes Hcalls HB HT IH ].
  - split; [intros ? ? [E | []]; discriminate | exists []; now rewrite app_nil_r].
  - split; [intros ? ? [E | []]; discriminate | exists []; now rewrite app_nil_r].
  - split; [| exists []; now rewrite app_nil_r].
    intros ? ? [E | [E | []]]; try discriminate.
    injection E as <- _. exists []. simpl. now rewrite app_nil_r.
  - split; [| exists []; now rewrite app_nil_r].
    intros ? ? [E | [E | []]]; try discriminate.
    injection E as <- _. exists []. simpl. now rewrite app_nil_r.
  - destruct IH as (IH1 & ext & ->). split.
    + intros request outcome [E | Hin].
      * injection E as <- _. exists []. simpl. now rewrite app_nil_r.
      * apply in_app_or in Hin as [Hin | Hin].
        -- pose proof (batch_toolYields HB) as Hty.
           rewrite Forall_forall in Hty. apply Hty in Hin. contradiction.
        -- destruct (IH1 _ _ Hin) as (ext' & ->).
           exists (([assistantMessage resp0] ++ results) ++ ext').
           now rewrite !app_assoc.
    + exists (([assistantMessage resp0] ++ results) ++ ext).
      now rewrite !app_assoc.
Qed.

Lemma batch_length calls tr results :
  Batch calls tr results -> List.length results = List.length calls.
Proof. induction 1; simpl; congruence. Qed.

(** The actions of a batch are those of its known calls, in order. *)
Lemma batch_actions calls tr results :
  Batch calls tr results ->
  yieldedActions tr
  = flat_map (fun call =>
                match getToolByCommand (tc_name call) with
                | Some entry => [actionFor entry call]
                | None => []
                end) calls.
Proof.
  induction 1 as [| call evs m calls tr results Hh _ IH]; [reflexivity |].
  rewrite yieldedActions_app, IH. simpl. f_equal.
  unfold Agent.handles in Hh. destruct (getToolByCommand (tc_name call)).
  - now destruct Hh as (r & -> & _).
  - now destruct Hh as (-> & _).
Qed.

(** One message per call, at the position of the call. *)
Lemma batch_nth calls tr results i call :
  Batch calls tr results ->
  nth_error calls i = Some call ->
  exists evs m, nth_error results i = Some m /\ handles call evs m
                /\ incl evs tr.
Proof.
  intros H. revert i. induction H as [| c evs m calls tr results Hh _ IH];
    intros i Hi.
  - destruct i; discriminate.
  - destruct i as [| i]; simpl in *.
    + injection Hi as ->. exists evs, m. repeat split; auto.
      apply incl_appl, incl_refl.
    + destruct (IH _ Hi) as (evs' & m' & ? & ? & ?). exists evs', m'.
      repeat split; auto. now apply incl_appr.
Qed.

(** What the message for an unknown tool says. *)
Lemma unknownToolMessage_reads call :
  role (unknownToolMessage call) = r_tool_result
  /\ toolCallId (unknownToolMessage call) = Some (tc_id call)
  /\ includes (lit "Unknown tool") (content (unknownToolMessage call)) = true
  /\ includes (join (lit ", ") (List.map td_name (availableTools config)))
       (content (unknownToolMessage call)) = true.
Proof.
  split; [reflexivity | split; [reflexivity | split]].
  - apply (JsFacts.includes_prefix (lit "Unknown tool")
             (lit ": " ++ [DQUOTE] ++ tc_name call ++ [DQUOTE]
              ++ lit ". Available tools: " ++ availableNames config)).
  - unfold Agent.unknownToolMessage, message, content.
    rewrite !app_assoc. apply JsFacts.includes_suffix.
Qed.

(** How the loop is entered, by the turns that remain and the tokens
    used. *)
Lemma turns_start t messages totals tr final :
  Turns t messages totals tr final ->
  (t = 0%nat ->
   exists r, tr = [Yielded (error (turnLimitMessage (maxTurns config))) r])
  /\ ((0 < t)%nat -> maxTokenBudget config - 100 <= tokensUsed totals ->
      exists r,
        tr = [Yielded (error (budgetExhaustedMessage (tokensUsed totals)
                                (maxTokenBudget config))) r])
  /\ ((0 < t)%nat -> tokensUsed totals < maxTokenBudget config - 100 ->
      exists outcome rest, tr = Requested (requestOf messages) outcome :: rest).
Proof.
  destruct 1; repeat split; intros; try lia; try discriminate; eauto.
Qed.

(** What follows a response that asks for tools, with the turns that remain
    and the tokens used when the loop is entered again. *)
Lemma turns_after_batch t messages totals tr final :
  Turns t messages totals tr final ->
  forall pre request resp post,
    tr = pre ++ Requested request (Resolved resp) :: post ->
    requestsTools resp = true ->
    exists calls batch results rest totals',
      rs_toolCalls resp = Some calls
      /\ post = batch ++ rest
      /\ Batch calls batch results
      /\ (requestCount pre < t)%nat
      /\ tokensUsed totals'
         = tokensUsed totals
           + reportedUsage (pre ++ [Requested request (Resolved resp)])
      /\ Turns (t - requestCount pre - 1)
           (rq_messages request ++ [assistantMessage resp] ++ results)
           totals' rest final.
Proof.
  induction 1 as [ messages totals r | t messages totals r Hge
                 | t messages totals err0 text r Hlt Htext
                 | t messages totals resp0 r Hlt Hno
                 | t messages totals resp0 calls batch results tr final
                     Hlt Hyes Hcalls HB HT IH ];
    intros pre request resp post E Hreq.
  - destruct pre as [| e [| e' pre]]; discriminate.
  - destruct pre as [| e [| e' pre]]; discriminate.
  - destruct pre as [| e [| e' [| e'' pre]]]; discriminate.
  - destruct pre as [| e [| e' [| e'' pre]]]; try discriminate.
    injection E as <- <- <-. congruence.
  - pose proof (batch_toolYields HB) as Hty.
    destruct pre as [| e pre]; simpl in E.
    + injection E as <- <- <-.
      exists calls, batch, results, tr, (accrue totals (rs_usage resp0)).
      split; [assumption |]. split; [reflexivity |]. split; [assumption |].
      split; [cbn; lia |]. split.
      * rewrite tokensUsed_accrue. cbn. lia.
      * replace (S t - requestCount [] - 1)%nat with t by (cbn; lia).
        exact HT.
    + injection E as <- E.
      apply split_after_toolYields in E as (pre' & -> & ->); auto.
      destruct (IH _ _ _ _ eq_refl Hreq)
        as (calls' & batch' & results' & rest & totals' & Hc & -> & HB' & Hn
            & Hu & HT').
      exists calls', batch', results', rest, totals'.
      assert (Hcount : requestCount
                         (Requested (requestOf messages) (Resolved resp0)
                          :: batch ++ pre')
                       = S (requestCount pre')).
      { change (Requested (requestOf messages) (Resolved resp0) :: batch ++ pre')
          with ([Requested (requestOf messages) (Resolved resp0)]
                ++ batch ++ pre').
        rewrite !requestCount_app, (toolYields_requestCount Hty). reflexivity. }
      rewrite Hcount.
      split; [assumption |]. split; [reflexivity |]. split; [assumption |].
      split; [lia |]. split.
      * rewrite Hu, tokensUsed_accrue.
        change ((Requested (requestOf messages) (Resolved resp0)
                 :: batch ++ pre') ++ [Requested request (Resolved resp)])
          with ([Requested (requestOf messages) (Resolved resp0)]
                ++ (batch ++ pre') ++ [Requested request (Resolved resp)]).
        rewrite <- app_assoc, !reportedUsage_app,
          (toolYields_reportedUsage Hty).
        cbn [reportedUsage]. lia.
      * replace (S t - S (requestCount pre') - 1)%nat
          with (t - requestCount pre' - 1)%nat by lia.
        exact HT'.
Qed.

(** C3, as the code has it.  After a response that asks for tools, the
    events up to the next request are the actions of the calls the registry
    knows, in order: a call to an unknown tool yields nothing.  It leaves, at
    its position among the results, a [tool_result] message with the id of
    the call, whose content contains [Unknown tool] and the names of the
    available tools.  What comes after the batch does not depend on the call
    being unknown: the next model request, which carries the results, when
    fewer than [maxTurns] requests have been made and the tokens reported so
    far are below [maxTokenBudget - 100]; the error of the token budget when
    they are not; and the error of the turn limit when that request was the
    last one allowed.  The limits are safe integers and the token counts
    non-negative integers with a safe total. *)
Theorem unknown_tool_is_reported_to_the_model history userMessage tr final :
  Run (runAgentLoop history userMessage) tr final ->
  limitsInRange config = true ->
  usageInRange tr = true ->
  forall pre request resp post,
    tr = pre ++ Requested request (Resolved resp) :: post ->
    requestsTools resp = true ->
    exists calls batch results rest,
      rs_toolCalls resp = Some calls
      /\ post = batch ++ rest
      /\ Forall isToolYield batch
      /\ yieldedActions batch
         = flat_map (fun call =>
                       match getToolByCommand (tc_name call) with
                       | Some entry => [actionFor entry call]
                       | None => []
                       end) calls
      /\ List.length results = List.length calls
      /\ (forall i call,
            nth_error calls i = Some call ->
            getToolByCommand (tc_name call) = None ->
            exists m,
              nth_error results i = Some m
              /\ role m = r_tool_result
              /\ toolCallId m = Some (tc_id call)
              /\ includes (lit "Unknown tool") (content m) = true
              /\ includes
                   (join (lit ", ") (List.map td_name (availableTools config)))
                   (content m) = true)
      /\ let made := requestCount (pre ++ [Requested request (Resolved resp)]) in
         let used := reportedUsage (pre ++ [Requested request (Resolved resp)]) in
         let N := Z.to_nat (maxTurns config) in
         let B := maxTokenBudget config in
         (made <= N)%nat
         /\ ((made < N)%nat -> used < B - 100 ->
             exists outcome rest',
               rest = Requested
                        {| rq_role := role_chat;
                           rq_messages :=
                             rq_messages request
                             ++ [assistantMessage resp] ++ results;
                           rq_tools := rq_tools request |}
                        outcome :: rest')
         /\ ((made < N)%nat -> B - 100 <= used ->
             exists r,
               rest = [Yielded
                         (error (lit "Token budget exhausted (" ++ ofZ used
                                 ++ lit " / " ++ ofZ B ++ lit " tokens used)."))
                         r])
         /\ (made = N ->
             exists r,
               rest = [Yielded
                         (error (lit "Agent loop reached maximum turns ("
                                 ++ ofZ (maxTurns config)
                                 ++ lit "). Stopping to prevent runaway execution."))
                         r]).
Proof.
  intros H _ _ pre request resp post E Hreq. apply runAgentLoop_run in H.
  assert (Htools : rq_tools request = rq_tools (requestOf [])).
  { clear -H E. revert pre E.
    induction H as [ messages totals r | t messages totals r Hge
                   | t messages totals err0 text r Hlt Htext
                   | t messages totals resp0 r Hlt Hno
                   | t messages totals resp0 calls batch results tr final
                       Hlt Hyes Hcalls HB HT IH ]; intros pre E.
    - destruct pre as [| e [| e' pre]]; discriminate.
    - destruct pre as [| e [| e' pre]]; discriminate.
    - destruct pre as [| e [| e' [| e'' pre]]]; discriminate.
    - destruct pre as [| e [| e' [| e'' pre]]]; try discriminate.
      now injection E as <- _ _.
    - pose proof (batch_toolYields HB) as Hty.
      destruct pre as [| e pre]; simpl in E.
      + now injection E as <- _ _.
      + injection E as <- E.
        apply split_after_toolYields in E as (pre' & -> & ->); auto.
        eapply IH; eauto. }
  pose proof (turns_after_batch H) as Hafter.
  specialize (Hafter _ _ _ _ E Hreq).
  destruct Hafter
    as (calls & batch & results & rest & totals' & Hc & -> & HB & Hn & Hu & HT).
  cbn [tokensUsed totalInputTokens totalOutputTokens Z.add] in Hu.
  exists calls, batch, results, rest.
  split; [assumption |]. split; [reflexivity |].
  split; [eapply batch_toolYields; eauto |].
  split; [eapply batch_actions; eauto |].
  split; [eapply batch_length; eauto |]. split.
  - intros i call Hi Hnone.
    destruct (batch_nth i HB Hi) as (evs & m & Hm & Hh & _).
    unfold Agent.handles in Hh. rewrite Hnone in Hh. destruct Hh as (_ & ->).
    exists (unknownToolMessage call). split; auto.
    apply unknownToolMessage_reads.
  - cbn zeta. rewrite requestCount_app.
    change (requestCount [Requested request (Resolved resp)]) with 1%nat.
    destruct (turns_start HT) as (Hzero & Hbudget & Hnext).
    rewrite Hu in Hbudget, Hnext.
    split; [lia |]. split; [| split].
    + intros Hmade Hused. destruct Hnext as (outcome & rest' & ->); [lia | lia |].
      exists outcome, rest'. unfold Agent.requestOf. now rewrite Htools.
    + intros Hmade Hused. apply Hbudget; [lia | assumption].
    + intros Hmade. apply Hzero. lia.
Qed.

Local Abbreviation answered := (answered getToolByCommand config).

Lemma batch_answered calls tr results :
  Batch calls tr results ->
  Forall2 (fun call m => role m = r_tool_result /\ answered tr call m)
    calls results.
Proof.
  induction 1 as [| call evs m calls tr results Hh _ IH]; constructor.
  - unfold Agent.handles in Hh. unfold answered.
    destruct (getToolByCommand (tc_name call)) as [entry |].
    + destruct Hh as (r & -> & ->). destruct r as [res |]; simpl; split; auto.
      * left. exists res. auto.
    + destruct Hh as (-> & ->). auto.
  - eapply Forall2_impl; [| exact IH]. intros call' m' (Hr & Ha). split; auto.
    unfold answered in *. destruct (getToolByCommand (tc_name call')).
    + destruct Ha as [(res & Hin & ->) | (Hin & ->)]; [left | right].
      * exists res. split; auto. apply in_or_app. now right.
      * split; auto. apply in_or_app. now right.
    + assumption.
Qed.

(** C5.  The batch of a response leaves exactly one [tool_result] message
    per requested call, in the order of the calls, whatever the host resumes
    the generator with: the content and id the host supplied; or, when it
    supplied nothing, the message that reads [Tool execution was skipped or
    denied by the user.], with the id of the call; or, when the registry
    does not know the tool and the host is not asked, the message that names
    the unknown tool and lists the available ones.  The results directly
    follow the assistant message, and every later request carries them. *)
Theorem one_tool_result_per_call_in_order history userMessage tr final :
  Run (runAgentLoop history userMessage) tr final ->
  forall pre request resp post,
    tr = pre ++ Requested request (Resolved resp) :: post ->
    requestsTools resp = true ->
    exists calls batch results rest,
      rs_toolCalls resp = Some calls
      /\ post = batch ++ rest
      /\ Forall isToolYield batch
      /\ Batch calls batch results
      /\ Forall2
           (fun call m =>
              role m = r_tool_result
              /\ toolCalls m = None
              /\ match getToolByCommand (tc_name call) with
                 | Some entry =>
                     (exists res,
                         In (Yielded (actionFor entry call) (Some res)) batch
                         /\ content m = tr_content res
                         /\ toolCallId m = Some (tr_toolCallId res))
                     \/ (In (Yielded (actionFor entry call) None) batch
                         /\ content m
                            = lit "Tool execution was skipped or denied by the user."
                         /\ toolCallId m = Some (tc_id call))
                 | None =>
                     content m
                     = lit "Unknown tool: " ++ [DQUOTE] ++ tc_name call
                       ++ [DQUOTE] ++ lit ". Available tools: "
                       ++ join (lit ", ")
                            (List.map td_name (availableTools config))
                     /\ toolCallId m = Some (tc_id call)
                 end)
           calls results
      /\ (forall request' outcome',
            In (Requested request' outcome') rest ->
            exists ext,
              rq_messages request'
              = rq_messages request ++ [assistantMessage resp] ++ results ++ ext)
      /\ (exists ext,
            final
            = rq_messages request ++ [assistantMessage resp] ++ results ++ ext).
Proof.
  intros H pre request resp post E Hreq. apply runAgentLoop_run in H.
  pose proof (turns_after_request H) as Hafter.
  specialize (Hafter _ _ _ _ E Hreq).
  destruct Hafter
    as (calls & batch & results & rest & t' & totals' & Hc & -> & HB & HT).
  exists calls, batch, results, rest.
  destruct (turns_extends HT) as (Hext & ext & ->).
  repeat split; auto.
  - eapply batch_toolYields; eauto.
  - eapply Forall2_impl; [| exact (batch_answered HB)].
    intros call m (Hrole & Ha). split; [assumption |].
    unfold answered, Agent.answered in Ha.
    destruct (getToolByCommand (tc_name call)) as [entry |].
    + destruct Ha as [(res & Hin & ->) | (Hin & ->)].
      * split; [reflexivity |]. left. exists res. auto.
      * split; [reflexivity |]. right. auto.
    + subst m. repeat split.
  - intros request' outcome' Hin. destruct (Hext _ _ Hin) as (ext' & ->).
    exists ext'. now rewrite <- !app_assoc.
  - exists ext. now rewrite <- !app_assoc.
Qed.

(** *** Correlation of tool results, and append-only messages *)

Lemma correlatedFrom_app seen l1 l2 :
  correlatedFrom seen (l1 ++ l2)
  = correlatedFrom seen l1 && correlatedFrom (seenAfter seen l1) l2.
Proof.
  revert seen. induction l1 as [| m l1 IH]; intros seen; simpl; auto.
  now rewrite IH, andb_assoc.
Qed.

Lemma existsb_eqb_In i seen : existsb (Js.eqb i) seen = true <-> In i seen.
Proof.
  rewrite existsb_exists. split.
  - intros (x & Hin & E). apply JsFacts.eqb_eq in E. now subst.
  - intros Hin. exists i. split; auto. apply JsFacts.eqb_refl.
Qed.

Lemma hostFaithful_app_l tr1 tr2 : hostFaithful (tr1 ++ tr2) -> hostFaithful tr1.
Proof. intros H a res Hin. apply H, in_or_app. now left. Qed.

Lemma hostFaithful_app_r tr1 tr2 : hostFaithful (tr1 ++ tr2) -> hostFaithful tr2.
Proof. intros H a res Hin. apply H, in_or_app. now right. Qed.

Lemma actionFor_answers entry call res :
  answersPendingCall (actionFor entry call) res ->
  tr_toolCallId res = tc_id call.
Proof. unfold actionFor. now destruct (e_invocation entry). Qed.

(** With a faithful host, the results of a batch carry ids of its calls. *)
Lemma batch_correlated calls tr results seen :
  Batch calls tr results ->
  hostFaithful tr ->
  (forall call, In call calls -> In (tc_id call) seen) ->
  correlatedFrom seen results = true.
Proof.
  induction 1 as [| call evs m calls tr results Hh _ IH]; intros Hf Hseen;
    [reflexivity |].
  assert (Hm : role m = r_tool_result /\ toolCallId m = Some (tc_id call)
               /\ callIds m = []).
  { unfold Agent.handles in Hh. destruct (getToolByCommand (tc_name call)).
    - destruct Hh as (r & -> & ->). destruct r as [res |]; simpl; auto.
      assert (Hres : tr_toolCallId res = tc_id call).
      { eapply actionFor_answers, Hf. now left. }
      now rewrite Hres.
    - destruct Hh as (-> & ->). auto. }
  destruct Hm as (Hr & Hi & Hc). simpl. rewrite Hr, Hi, Hc. simpl.
  apply andb_true_iff. split.
  - apply existsb_eqb_In, Hseen. now left.
  - apply IH.
    + eapply hostFaithful_app_r, Hf.
    + intros c Hin. apply Hseen. now right.
Qed.

Lemma seenAfter_incl seen l : incl seen (seenAfter seen l).
Proof.
  revert seen. induction l as [| m l IH]; intros seen; simpl.
  - apply incl_refl.
  - eapply incl_tran; [| apply IH]. apply incl_appr, incl_refl.
Qed.

Lemma turns_correlated t messages totals tr final :
  Turns t messages totals tr final ->
  hostFaithful tr ->
  correlated messages = true ->
  (forall request outcome, In (Requested request outcome) tr ->
     correlated (rq_messages request) = true)
  /\ correlated final = true.
Proof.
  induction 1 as [ messages totals r | t messages totals r Hge
                 | t messages totals err0 text r Hlt Htext
                 | t messages totals resp0 r Hlt Hno
                 | t messages totals resp0 calls batch results tr final
                     Hlt Hyes Hcalls HB HT IH ]; intros Hf Hc.
  - split; auto. intros ? ? [E | []]; discriminate.
  - split; auto. intros ? ? [E | []]; discriminate.
  - split; auto. intros ? ? [E | [E | []]]; try discriminate.
    now injection E as <- _.
  - split; auto. intros ? ? [E | [E | []]]; try discriminate.
    now injection E as <- _.
  - pose proof (batch_toolYields HB) as Hty.
    assert (Hf' : hostFaithful (batch ++ tr)).
    { intros a res Hin. apply Hf. now right. }
    destruct IH as (IH1 & IH2).
    + eapply hostFaithful_app_r, Hf'.
    + unfold correlated in *. rewrite correlatedFrom_app, Hc.
      cbn [andb app correlatedFrom assistantMessage message role].
      eapply batch_correlated; eauto.
      * eapply hostFaithful_app_l, Hf'.
      * intros call Hin. apply in_or_app. left.
        unfold callIds, assistantMessage, message. cbn [role toolCalls].
        rewrite Hcalls. now apply in_map.
    + split; auto. intros request outcome [E | Hin].
      * now injection E as <- _.
      * apply in_app_or in Hin as [Hin | Hin]; [| eauto].
        rewrite Forall_forall in Hty. apply Hty in Hin. contradiction.
Qed.

Lemma turns_append_only t messages totals tr final :
  Turns t messages totals tr final ->
  forall pre request outcome post,
    tr = pre ++ Requested request outcome :: post ->
    (forall request' outcome', In (Requested request' outcome') post ->
       exists ext, rq_messages request' = rq_messages request ++ ext)
    /\ exists ext, final = rq_messages request ++ ext.
Proof.
  induction 1 as [ messages totals r | t messages totals r Hge
                 | t messages totals err0 text r Hlt Htext
                 | t messages totals resp0 r Hlt Hno
                 | t messages totals resp0 calls batch results tr final
                     Hlt Hyes Hcalls HB HT IH ];
    intros pre request outcome post E.
  - destruct pre as [| e [| e' pre]]; discriminate.
  - destruct pre as [| e [| e' pre]]; discriminate.
  - destruct pre as [| e [| e' [| e'' pre]]]; try discriminate.
    injection E as <- <- <-. split.
    + intros ? ? [E | []]; discriminate.
    + exists []. simpl. now rewrite app_nil_r.
  - destruct pre as [| e [| e' [| e'' pre]]]; try discriminate.
    injection E as <- <- <-. split.
    + intros ? ? [E | []]; discriminate.
    + exists []. simpl. now rewrite app_nil_r.
  - pose proof (batch_toolYields HB) as Hty.
    destruct pre as [| e pre]; simpl in E.
    + injection E as <- <- <-. destruct (turns_extends HT) as (Hext & ext & ->).
      simpl. split.
      * intros request' outcome' Hin. apply in_app_or in Hin as [Hin | Hin].
        -- rewrite Forall_forall in Hty. apply Hty in Hin. contradiction.
        -- destruct (Hext _ _ Hin) as (ext' & ->).
           exists (([assistantMessage resp0] ++ results) ++ ext').
           now rewrite <- app_assoc.
      * exists (([assistantMessage resp0] ++ results) ++ ext).
        now rewrite <- app_assoc.
    + injection E as <- E.
      apply split_after_toolYields in E as (pre' & -> & ->); auto.
      eapply IH; eauto.
Qed.

Lemma initialMessages_correlated history userMessage :
  correlated (initialMessages config history userMessage) = correlated history.
Proof.
  unfold correlated, initialMessages. simpl.
  rewrite correlatedFrom_app. simpl. now rewrite !andb_true_r.
Qed.

(** C6, as the code has it.  The loop only appends to [messages]: the
    messages of a request are a prefix of those of every later request and
    of the final array.  A [tool_result] message that the loop appends
    carries the id of the pending call -- or the [toolCallId] of the result
    the host resumed with, which the loop copies as it is.  So when the
    history satisfies the invariant and every result of the host is for the
    pending call, every message sequence the loop builds satisfies it. *)
Theorem tool_results_correlate_when_host_is_faithful
  history userMessage tr final :
  Run (runAgentLoop history userMessage) tr final ->
  (forall pre request outcome post,
      tr = pre ++ Requested request outcome :: post ->
      (exists ext,
          rq_messages request
          = initialMessages config history userMessage ++ ext)
      /\ (forall request' outcome', In (Requested request' outcome') post ->
            exists ext, rq_messages request' = rq_messages request ++ ext)
      /\ exists ext, final = rq_messages request ++ ext)
  /\ (correlated history = true ->
      hostFaithful tr ->
      (forall request outcome, In (Requested request outcome) tr ->
         correlated (rq_messages request) = true)
      /\ correlated final = true).
Proof.
  intros H. apply runAgentLoop_run in H. split.
  - intros pre request outcome post E.
    destruct (turns_extends H) as (Hext & _).
    pose proof (turns_append_only H) as Happ.
    specialize (Happ _ _ _ _ E). split; auto.
    apply (Hext request outcome). rewrite E. apply in_or_app. right. now left.
  - intros Hc Hf. apply (turns_correlated H); auto.
    now rewrite initialMessages_correlated.
Qed.

(** *** The initial message sequence *)

Lemma join_lines (sep : jsstring) (l rest : list jsstring) :
  rest <> [] ->
  join sep (l ++ rest)
  = List.concat (List.map (fun x => x ++ sep) l) ++ join sep rest.
Proof.
  intros Hrest. induction l as [| x l IH]; [reflexivity |].
  cbn [List.map List.concat]. rewrite <- app_assoc, <- IH.
  change ((x :: l) ++ rest) with (x :: (l ++ rest)).
  destruct (l ++ rest) as [| y ys] eqn:E.
  - apply app_eq_nil in E as (_ & E). contradiction.
  - change (join sep (x :: y :: ys)) with (x ++ sep ++ join sep (y :: ys)).
    now rewrite app_assoc.
Qed.

(** The prompt is the one the specification describes, read as: custom
    prompt or persona first; tool descriptions, when there are tools, and the
    constraints in both cases. *)
Lemma buildSystemPrompt_described :
  buildSystemPrompt config = describedSystemPrompt config.
Proof.
  unfold buildSystemPrompt, describedSystemPrompt, systemPromptParts.
  assert (Htools :
    forall head : jsstring,
      join [LF]
        ([head]
         ++ match availableTools config with
            | [] => []
            | _ :: _ => [lit "Available tools:"]
                        ++ List.map toolLine (availableTools config)
                        ++ [lit ""]
            end ++ CONSTRAINTS)
      = (head ++ [LF])
        ++ match availableTools config with
           | [] => []
           | _ :: _ =>
               lit "Available tools:" ++ [LF]
               ++ List.concat (List.map (fun tool => toolLine tool ++ [LF])
                                 (availableTools config))
               ++ [LF]
           end ++ join [LF] CONSTRAINTS).
  { intros head. destruct (availableTools config) as [| tool tools] eqn:E.
    - rewrite <- app_assoc. reflexivity.
    - rewrite (@join_lines [LF] [head]) by discriminate.
      rewrite <- (app_assoc [lit "Available tools:"]).
      rewrite (@join_lines [LF] [lit "Available tools:"]) by discriminate.
      rewrite <- app_assoc.
      rewrite (@join_lines [LF] (List.map toolLine (tool :: tools)))
        by discriminate.
      rewrite map_map. cbn [List.map List.concat].
      repeat (progress cbn [app] || rewrite <- app_assoc).
      reflexivity. }
  destruct (systemPrompt config) as [| c custom] eqn:E.
  - apply Htools.
  - change ([c :: custom; lit ""]) with ([c :: custom] ++ [lit ""]).
    rewrite <- app_assoc.
    rewrite (@join_lines [LF] [c :: custom]) by discriminate.
    etransitivity; [apply f_equal; exact (Htools (lit "")) |].
    change (lit "") with (@nil N). cbn [List.map List.concat].
    repeat (progress cbn [app] || rewrite <- app_assoc).
    reflexivity.
Qed.


End Loop.

(** ** The properties on sample runs *)

Import Samples.

Ltac events H :=
  repeat (destruct H as [H | H]; [try discriminate H |]); try contradiction.

(** The sample runs finish: [runIn] gives their events and the messages
    they finish with. *)
Lemma runIn_run env :
  isSome (snd (drive env (runAgentLoop registry config [] hi) [])) = true ->
  Run (runAgentLoop registry config [] hi) (fst (runIn env)) (snd (runIn env)).
Proof.
  intros H. unfold runIn. cbn [fst snd].
  destruct (snd (drive env (runAgentLoop registry config [] hi) [])) eqn:E;
    [| discriminate].
  now apply drive_run.
Qed.

Lemma token_budget_check_witness :
  fst (runIn greedyEnv)
  = [Requested firstRequest (Resolved greedyResponse);
     Yielded
       (error (lit "Token budget exhausted (1000 / 1000 tokens used).")) None]
  /\ limitsInRange config = true
  /\ usageInRange (fst (runIn greedyEnv)) = true
  /\ exists batch r,
       [Yielded
          (error (lit "Token budget exhausted (1000 / 1000 tokens used)."))
          None]
       = batch
         ++ [Yielded
               (error
                  (lit "Token budget exhausted ("
                   ++ ofZ (reportedUsage
                             ([] ++ [Requested firstRequest
                                       (Resolved greedyResponse)]))
                   ++ lit " / " ++ ofZ (maxTokenBudget config)
                   ++ lit " tokens used).")) r]
       /\ Forall isToolYield batch.
Proof.
  split; [reflexivity |]. split; [reflexivity |]. split; [reflexivity |].
  destruct (@token_budget_check registry config [] hi _ _
              (runIn_run greedyEnv eq_refl) eq_refl eq_refl)
    as (_ & _ & H).
  apply (H [] firstRequest greedyResponse
           [Yielded
              (error (lit "Token budget exhausted (1000 / 1000 tokens used)."))
              None]).
  - reflexivity.
  - vm_compute. discriminate.
  - reflexivity.
  - vm_compute. lia.
Defined.

(** C2 as stated fails: the provider always asks for a tool and
    [maxTurns] is 3, yet the one error of the run reports the token budget,
    not the turn limit. *)
Lemma turn_limit_counterexample :
  let tr := fst (runIn greedyEnv) in
  Run (runAgentLoop registry config [] hi) tr (snd (runIn greedyEnv))
  /\ 0 < maxTurns config
  /\ alwaysRequestsTools tr
  /\ filter isError (yieldedActions tr)
     = [error (budgetExhaustedMessage 1000 1000)]
  /\ filter isError (yieldedActions tr)
     <> [error (turnLimitMessage (maxTurns config))].
Proof.
  split; [apply (runIn_run greedyEnv eq_refl) |].
  split; [reflexivity |]. split; [| split].
  - intros request outcome H. vm_compute in H. events H.
    injection H as _ <-. eexists. split; reflexivity.
  - reflexivity.
  - vm_compute. discriminate.
Qed.

Lemma greedy_always_requests_tools : alwaysRequestsTools (fst (runIn greedyEnv)).
Proof.
  intros request outcome H. vm_compute in H. events H.
  injection H as _ <-. eexists. split; reflexivity.
Defined.

Lemma turn_limit_or_budget_witness :
  let tr := fst (runIn greedyEnv) in
  let N := Z.to_nat (maxTurns config) in
  let B := maxTokenBudget config in
  limitsInRange config = true
  /\ usageInRange tr = true
  /\ (requestCount tr <= N)%nat
  /\ filter isResponse (yieldedActions tr) = []
  /\ exists msg,
       filter isTerminal (yieldedActions tr) = [error msg]
       /\ (exists body r, tr = body ++ [Yielded (error msg) r])
       /\ ((msg = lit "Agent loop reached maximum turns ("
                  ++ ofZ (maxTurns config)
                  ++ lit "). Stopping to prevent runaway execution."
            /\ requestCount tr = N)
           \/ (msg = lit "Token budget exhausted (" ++ ofZ (reportedUsage tr)
                     ++ lit " / " ++ ofZ B ++ lit " tokens used)."
               /\ B - 100 <= reportedUsage tr
               /\ (requestCount tr < N)%nat)).
Proof.
  split; [reflexivity |]. split; [reflexivity |].
  exact (@turn_limit_or_budget registry config [] hi _ _
           (runIn_run greedyEnv eq_refl) eq_refl eq_refl
           greedy_always_requests_tools).
Defined.

(** The scenarios of the specification.  A provider that answers at once:
    the run is one request and the response, with no token counted. *)
Example immediate_answer :
  yieldedActions
    (fst (drive {| provider := fun _ _ => Resolved (says "hello");
                   host := faithfulHost |}
            (runAgentLoop registry
               {| maxTurns := 3; maxTokenBudget := 10000; systemPrompt := [];
                  availableTools := [] |} [] hi) []))
  = [response (lit "hello") {| totalInputTokens := 0; totalOutputTokens := 0 |}].
Proof. reflexivity. Qed.

(** A call to [dead-code], which is autonomous, and to [frobnicate], which
    is unknown: one [tool_call], then the response, in two requests. *)
Example tool_then_answer :
  yieldedActions (fst (runIn toolEnv))
  = [tool_call dead_code (lit "call_1") [];
     response (lit "done") {| totalInputTokens := 0; totalOutputTokens := 0 |}]
  /\ requestCount (fst (runIn toolEnv)) = 2%nat.
Proof. split; reflexivity. Qed.

(** When the budget is not reached, the run makes [maxTurns] requests and
    ends with the error of the turn limit. *)
Example turn_limit_reached :
  requestCount (fst (runIn stubbornEnv)) = 3%nat
  /\ yieldedActions (fst (runIn stubbornEnv)) = [error (turnLimitMessage 3)].
Proof. split; reflexivity. Qed.

Lemma toolEnv_run :
  fst (runIn toolEnv)
  = [] ++ Requested firstRequest (Resolved toolsResponse) :: afterToolsRequest.
Proof. reflexivity. Qed.

(** C3 as stated fails: with [maxTurns = 1] the response that asks for the
    unknown tool [frobnicate] is answered by no further request.  The
    message for the unknown tool is appended, but the run ends there with the
    error of the turn limit, and the model never sees the message. *)
Lemma unknown_tool_counterexample :
  let tr := fst (drive stubbornEnv (runAgentLoop registry lastTurnConfig [] hi) []) in
  exists request resp call final,
    Run (runAgentLoop registry lastTurnConfig [] hi) tr final
    /\ tr = [Requested request (Resolved resp);
             Yielded
               (error (lit "Agent loop reached maximum turns (1). Stopping to prevent runaway execution."))
               None]
    /\ rs_toolCalls resp = Some [call]
    /\ registry (tc_name call) = None
    /\ requestCount tr = 1%nat
    /\ final
       = rq_messages request
         ++ [assistantMessage resp;
             message r_tool_result
               (lit "Unknown tool: " ++ [DQUOTE] ++ lit "frobnicate" ++ [DQUOTE]
                ++ lit ". Available tools: dead-code")
               None (Some (tc_id call))].
Proof.
  eexists _, _, _, _.
  split; [apply (drive_run stubbornEnv
                   (runAgentLoop registry lastTurnConfig [] hi) []); reflexivity |].
  repeat split; reflexivity.
Qed.

Lemma unknown_tool_is_reported_to_the_model_witness :
  limitsInRange config = true
  /\ usageInRange (fst (runIn toolEnv)) = true
  /\ exists calls batch results rest,
    rs_toolCalls toolsResponse = Some calls
    /\ afterToolsRequest = batch ++ rest
    /\ Forall isToolYield batch
    /\ yieldedActions batch
       = flat_map (fun call =>
                     match registry (tc_name call) with
                     | Some entry => [actionFor entry call]
                     | None => []
                     end) calls
    /\ List.length results = List.length calls
    /\ (forall i call,
          nth_error calls i = Some call ->
          registry (tc_name call) = None ->
          exists m,
            nth_error results i = Some m
            /\ role m = r_tool_result
            /\ toolCallId m = Some (tc_id call)
            /\ includes (lit "Unknown tool") (content m) = true
            /\ includes
                 (join (lit ", ") (List.map td_name (availableTools config)))
                 (content m) = true)
    /\ let made :=
         requestCount ([] ++ [Requested firstRequest (Resolved toolsResponse)]) in
       let used :=
         reportedUsage ([] ++ [Requested firstRequest (Resolved toolsResponse)]) in
       let N := Z.to_nat (maxTurns config) in
       let B := maxTokenBudget config in
       (made <= N)%nat
       /\ ((made < N)%nat -> used < B - 100 ->
           exists outcome rest',
             rest = Requested
                      {| rq_role := role_chat;
                         rq_messages :=
                           rq_messages firstRequest
                           ++ [assistantMessage toolsResponse] ++ results;
                         rq_tools := rq_tools firstRequest |}
                      outcome :: rest')
       /\ ((made < N)%nat -> B - 100 <= used ->
           exists r,
             rest = [Yielded
                       (error (lit "Token budget exhausted (" ++ ofZ used
                               ++ lit " / " ++ ofZ B ++ lit " tokens used)."))
                       r])
       /\ (made = N ->
           exists r,
             rest = [Yielded
                       (error (lit "Agent loop reached maximum turns ("
                               ++ ofZ (maxTurns config)
                               ++ lit "). Stopping to prevent runaway execution."))
                       r]).
Proof.
  split; [reflexivity |]. split; [reflexivity |].
  apply (@unknown_tool_is_reported_to_the_model registry config [] hi _ _
           (runIn_run toolEnv eq_refl) eq_refl eq_refl
           [] firstRequest toolsResponse afterToolsRequest).
  - reflexivity.
  - reflexivity.
Defined.

(** A provider failure that has a string form: the run is the request and
    the error that carries the message. *)
Example provider_failure_example :
  fst (runIn failingEnv)
  = [Requested firstRequest (Rejected (ThrownError (lit "network down")));
     Yielded (error (lit "Model request failed: network down")) None].
Proof. reflexivity. Qed.

(** C4 fails on a rejection that has no string form.  When [sendRequest]
    rejects with [Object.create(null)], the [catch] block throws while it
    builds the message: the run is the request and nothing else, no action
    is handed to the host, and the generator ends by throwing. *)
Theorem rejection_without_string_form_escapes_the_generator :
  let run := drive opaqueEnv (runAgentLoop registry config [] hi) [] in
  fst run = [Requested firstRequest (Rejected ThrownOpaque)]
  /\ snd run = None
  /\ Throws (runAgentLoop registry config [] hi) (fst run)
  /\ yieldedActions (fst run) = [].
Proof.
  cbn zeta. split; [reflexivity |]. split; [reflexivity |].
  split; [| reflexivity].
  apply drive_throws. reflexivity.
Qed.

(** When the host denies the call, the second request carries the message
    of the denial in the place of the result. *)
Example denied_call_example :
  fst (runIn denyingEnv)
  = [] ++ Requested firstRequest (Resolved toolsResponse) :: afterDeniedRequest.
Proof. reflexivity. Qed.

Lemma one_tool_result_per_call_in_order_witness :
  exists calls batch results rest,
    rs_toolCalls toolsResponse = Some calls
    /\ afterDeniedRequest = batch ++ rest
    /\ Forall isToolYield batch
    /\ Batch registry config calls batch results
    /\ Forall2
         (fun call m =>
            role m = r_tool_result
            /\ toolCalls m = None
            /\ match registry (tc_name call) with
               | Some entry =>
                   (exists res,
                       In (Yielded (actionFor entry call) (Some res)) batch
                       /\ content m = tr_content res
                       /\ toolCallId m = Some (tr_toolCallId res))
                   \/ (In (Yielded (actionFor entry call) None) batch
                       /\ content m
                          = lit "Tool execution was skipped or denied by the user."
                       /\ toolCallId m = Some (tc_id call))
               | None =>
                   content m
                   = lit "Unknown tool: " ++ [DQUOTE] ++ tc_name call
                     ++ [DQUOTE] ++ lit ". Available tools: "
                     ++ join (lit ", ")
                          (List.map td_name (availableTools config))
                   /\ toolCallId m = Some (tc_id call)
               end)
         calls results
    /\ (forall request' outcome',
          In (Requested request' outcome') rest ->
          exists ext,
            rq_messages request'
            = rq_messages firstRequest
              ++ [assistantMessage toolsResponse] ++ results ++ ext)
    /\ (exists ext,
          snd (runIn denyingEnv)
          = rq_messages firstRequest
            ++ [assistantMessage toolsResponse] ++ results ++ ext).
Proof.
  apply (@one_tool_result_per_call_in_order registry config [] hi _ _
           (runIn_run denyingEnv eq_refl)
           [] firstRequest toolsResponse afterDeniedRequest).
  - reflexivity.
  - reflexivity.
Defined.

(** C6 as stated fails: with an empty history, a host that resumes the
    generator with a result whose [toolCallId] is not the id of the pending
    call makes the second request carry a [tool_result] message that no
    tool call of an earlier assistant message matches. *)
Lemma correlation_counterexample :
  let tr := fst (runIn mismatchingEnv) in
  Run (runAgentLoop registry config [] hi) tr (snd (runIn mismatchingEnv))
  /\ exists request outcome,
       In (Requested request outcome) tr
       /\ In (message r_tool_result (lit "3 findings") None (Some (lit "other")))
            (rq_messages request)
       /\ correlated (rq_messages request) = false.
Proof.
  split; [apply (runIn_run mismatchingEnv eq_refl) |].
  eexists _, _. split; [right; right; left; reflexivity |].
  split; [| reflexivity]. right. right. right. left. reflexivity.
Qed.

Lemma toolEnv_hostFaithful : hostFaithful (fst (runIn toolEnv)).
Proof.
  intros action res H. vm_compute in H. events H.
  injection H as <- <-. reflexivity.
Defined.

Lemma tool_results_correlate_when_host_is_faithful_witness :
  (forall request outcome, In (Requested request outcome) (fst (runIn toolEnv)) ->
     correlated (rq_messages request) = true)
  /\ correlated (snd (runIn toolEnv)) = true.
Proof.
  apply (@tool_results_correlate_when_host_is_faithful registry config [] hi _ _
           (runIn_run toolEnv eq_refl)).
  - reflexivity.
  - exact toolEnv_hostFaithful.
Defined.



End AgentFacts.

(* ===================================================================== *)
(** * Facts on the matcher *)
(* ===================================================================== *)

Module RegexFacts.
Import Regex.

Lemma run_star r k st :
  backtrack (Star r) k st = iterate r k (S (List.length (rest st))) st.
Proof. reflexivity. Qed.

(** A result of [backtrack r k] is a result of [k]. *)
Lemma run_result r :
  forall k st res, backtrack r k st = Some res -> exists st', k st' = Some res.
Proof.
  induction r as [| p | r1 IH1 r2 IH2 | r1 IH1 r2 IH2 | r IH | i r IH | | |];
    intros k st res H.
  - eauto.
  - cbn [backtrack] in H. destruct (rest st) as [| c rest']; [discriminate |].
    destruct (p c); [eauto | discriminate].
  - cbn [backtrack] in H. apply IH1 in H as (st1 & H). eauto.
  - cbn [backtrack] in H. destruct (backtrack r1 k st) eqn:E; [injection H as -> |]; eauto.
  - rewrite run_star in H. revert H.
    generalize (S (List.length (rest st))) as fuel. intros fuel. revert st.
    induction fuel as [| fuel IHf]; intros st H; cbn [iterate] in H; [eauto |].
    match type of H with
    | match ?x with _ => _ end = _ => destruct x eqn:E
    end; [injection H as -> | eauto].
    apply IH in E as (st1 & E).
    destruct (Nat.ltb _ _); [eauto | discriminate].
  - cbn [backtrack] in H. apply IH in H as (st1 & H). eauto.
  - cbn [backtrack] in H. destruct (before st); [eauto | discriminate].
  - cbn [backtrack] in H. destruct (rest st); [eauto | discriminate].
  - cbn [backtrack] in H. destruct (atWordBoundary st); [eauto | discriminate].
Qed.

(** An expression without groups leaves the captures as they are. *)
Lemma run_nogroups r :
  nogroups r = true ->
  forall k st res, backtrack r k st = Some res ->
    exists st', captures st' = captures st /\ k st' = Some res.
Proof.
  induction r as [| p | r1 IH1 r2 IH2 | r1 IH1 r2 IH2 | r IH | i r IH | | |];
    intros Hn k st res H; cbn [nogroups] in Hn.
  - eauto.
  - cbn [backtrack] in H. destruct (rest st) as [| c rest']; [discriminate |].
    destruct (p c); [exists (step c rest' st); auto | discriminate].
  - cbn [backtrack] in H. apply andb_true_iff in Hn as (Hn1 & Hn2).
    apply IH1 in H as (st1 & E1 & H); auto.
    apply IH2 in H as (st2 & E2 & H); auto.
    exists st2. split; congruence.
  - cbn [backtrack] in H. apply andb_true_iff in Hn as (Hn1 & Hn2).
    destruct (backtrack r1 k st) eqn:E; [injection H as -> |]; eauto.
  - rewrite run_star in H. revert H.
    generalize (S (List.length (rest st))) as fuel. intros fuel. revert st.
    induction fuel as [| fuel IHf]; intros st H; cbn [iterate] in H; [eauto |].
    match type of H with
    | match ?x with _ => _ end = _ => destruct x eqn:E
    end; [injection H as -> | eauto].
    apply IH in E as (st1 & E1 & E); auto.
    destruct (Nat.ltb _ _); [| discriminate].
    apply IHf in E as (st2 & E2 & E). exists st2. split; congruence.
  - discriminate.
  - cbn [backtrack] in H. destruct (before st); [eauto | discriminate].
  - cbn [backtrack] in H. destruct (rest st); [eauto | discriminate].
  - cbn [backtrack] in H. destruct (atWordBoundary st); [eauto | discriminate].
Qed.

Lemma run_char p k st :
  backtrack (Char p) k st
  = match rest st with
    | c :: rest' => if p c then k (step c rest' st) else None
    | [] => None
    end.
Proof. reflexivity. Qed.

Lemma run_seq r1 r2 k st : backtrack (Seq r1 r2) k st = backtrack r1 (backtrack r2 k) st.
Proof. reflexivity. Qed.

Lemma run_group i r k st :
  backtrack (Group i r) k st = backtrack r (fun st' => k (capture i st st')) st.
Proof. reflexivity. Qed.

(** [p*] consumes code units that satisfy [p]. *)
Lemma run_star_char p k st res :
  backtrack (Star (Char p)) k st = Some res ->
  exists w st',
    forallb p w = true /\ rest st = w ++ rest st'
    /\ captures st' = captures st /\ k st' = Some res.
Proof.
  rewrite run_star. generalize (S (List.length (rest st))) as fuel.
  intros fuel. revert st.
  induction fuel as [| fuel IHf]; intros st H; cbn [iterate] in H.
  - exists [], st. auto.
  - rewrite run_char in H. destruct (rest st) as [| c rest'] eqn:Er.
    + exists [], st. rewrite Er. auto.
    + destruct (p c) eqn:Ep.
      * match type of H with
        | match ?x with _ => _ end = _ => destruct x eqn:E
        end.
        -- injection H as ->.
           destruct (Nat.ltb _ _); [| discriminate].
           apply IHf in E as (w & st' & Hw & Hr & Hc & Hk). simpl in Hr, Hc.
           exists (c :: w), st'. simpl. rewrite Ep, Hw, Hr. auto.
        -- exists [], st. rewrite Er. auto.
      * exists [], st. rewrite Er. auto.
Qed.

Lemma run_plus_char p k st res :
  backtrack (Plus (Char p)) k st = Some res ->
  exists c w st',
    forallb p (c :: w) = true /\ rest st = (c :: w) ++ rest st'
    /\ captures st' = captures st /\ k st' = Some res.
Proof.
  unfold Plus. rewrite run_seq, run_char. intros H.
  destruct (rest st) as [| c rest'] eqn:Er; [discriminate |].
  destruct (p c) eqn:Ep; [| discriminate].
  apply run_star_char in H as (w & st' & Hw & Hr & Hc & Hk). simpl in Hr, Hc.
  exists c, w, st'. simpl. rewrite Ep, Hw, Hr. auto.
Qed.

(** The group [(p+)] captures a non-empty string of code units that
    satisfy [p]. *)
Lemma run_group_plus i p k st res :
  backtrack (Group i (Plus (Char p))) k st = Some res ->
  exists w st',
    w <> [] /\ forallb p w = true
    /\ captures st' = (i, w) :: captures st /\ k st' = Some res.
Proof.
  rewrite run_group. intros H.
  apply run_plus_char in H as (c & w & st' & Hw & Hr & Hc & Hk).
  exists (c :: w), (capture i st st'). repeat split; auto; [discriminate |].
  unfold capture. cbn [captures]. rewrite Hc, Hr, length_app.
  replace (Datatypes.length (c :: w) + Datatypes.length (rest st')
           - Datatypes.length (rest st'))%nat
    with (Datatypes.length (c :: w) + 0)%nat by lia.
  now rewrite firstn_app_2, firstn_O, app_nil_r.
Qed.

(** In [r1 r2 .. (p+) t1 t2 ..], where no [t] has a group, the group of
    [(p+)] holds, at the end of a match, a non-empty string of code units
    that satisfy [p]. *)
Lemma seq_group_capture rs i p tail :
  nogroups (seq tail) = true ->
  forall st res,
    backtrack (seq (rs ++ Group i (Plus (Char p)) :: tail)) Some st = Some res ->
    group i (captures res) <> [] /\ forallb p (group i (captures res)) = true.
Proof.
  intros Hn. induction rs as [| r rs IH]; intros st res H.
  - cbn [app seq fold_right] in H. rewrite run_seq in H.
    apply run_group_plus in H as (w & st' & Hw & Hp & Hc & H).
    fold (seq tail) in H.
    apply (run_nogroups _ Hn) in H as (st'' & Hc' & H). injection H as <-.
    rewrite Hc', Hc. cbn [group]. rewrite Nat.eqb_refl. auto.
  - cbn [app seq fold_right] in H. rewrite run_seq in H.
    apply run_result in H as (st' & H). eapply IH, H.
Qed.

(** A match found by a search is a match at some position. *)
Lemma search_matchAt r behind ahead start st :
  search r behind ahead = Some (start, st) ->
  exists ahead', matchAt r start ahead' = Some st.
Proof.
  revert behind. induction ahead as [| c ahead IH]; intros behind H;
    cbn [search] in H.
  - destruct (matchAt r behind []) eqn:E; [| discriminate].
    injection H as <- <-. eauto.
  - destruct (matchAt r behind (c :: ahead)) eqn:E.
    + injection H as <- <-. eauto.
    + eauto.
Qed.

Lemma match_group_capture rs i p tail l m :
  nogroups (seq tail) = true ->
  match_ (seq (rs ++ Group i (Plus (Char p)) :: tail)) l = Some m ->
  group i m <> [] /\ forallb p (group i m) = true.
Proof.
  intros Hn H. unfold match_ in H.
  destruct (search _ [] l) as [[start st] |] eqn:E; [| discriminate].
  injection H as <-. apply search_matchAt in E as (ahead' & E).
  eapply seq_group_capture; eauto.
Qed.

End RegexFacts.

(* ===================================================================== *)
(** * Properties of the dead-code tool *)
(* ===================================================================== *)

Module DeadCodeFacts.
Import DeadCode.

(** ** Counting whole words *)

Import Regex.

Lemma run_lit s : forall k st,
  backtrack (Lit s) k st
  = if startsWith s (rest st)
    then k {| before := rev s ++ before st;
              rest := skipn (List.length s) (rest st);
              captures := captures st |}
    else None.
Proof.
  induction s as [| c s IH]; intros k st.
  - destruct st. reflexivity.
  - cbn [Lit]. rewrite RegexFacts.run_seq, RegexFacts.run_char.
    destruct (rest st) as [| d rest'] eqn:Er; [reflexivity |].
    cbn [startsWith]. destruct (N.eqb c d) eqn:E; [| reflexivity].
    apply N.eqb_eq in E. subst d. rewrite IH. cbn [andb step rest before captures].
    cbn [rev List.length skipn]. now rewrite <- app_assoc.
Qed.

Lemma isWordName_cons name :
  isWordName name = true ->
  exists c w, name = c :: w /\ isWordChar c = true /\ forallb isWordChar w = true.
Proof.
  destruct name as [| c w]; [discriminate |]. simpl. intros H.
  apply andb_true_iff in H as (Hc & Hw). eauto.
Qed.

Lemma isWordAt_rev_app w behind :
  w <> [] -> forallb isWordChar w = true -> isWordAt (rev w ++ behind) = true.
Proof.
  intros Hw Hall. destruct (rev w) as [| c r] eqn:E.
  - apply (f_equal (@rev N)) in E. rewrite rev_involutive in E. contradiction.
  - simpl. rewrite forallb_forall in Hall. apply Hall.
    apply in_rev. rewrite E. now left.
Qed.

(** On a word name, a match of [\bname\b] at a position is a whole-word
    occurrence at that position. *)
Lemma matchAt_wordRegex name behind ahead :
  isWordName name = true ->
  matchAt (wordRegex name) behind ahead
  = if wholeWordAt name behind ahead
    then Some {| before := rev name ++ behind;
                 rest := skipn (List.length name) ahead;
                 captures := [] |}
    else None.
Proof.
  intros Hname. destruct (isWordName_cons _ Hname) as (c & w & -> & Hc & Hw).
  unfold matchAt, wordRegex. cbn [seq fold_right].
  rewrite RegexFacts.run_seq. cbn [backtrack]. unfold atWordBoundary, wholeWordAt.
  cbn [before rest]. rewrite run_lit. cbn [rest before captures].
  destruct (startsWith (c :: w) ahead) eqn:Es.
  - assert (Ha : isWordAt ahead = true).
    { destruct ahead as [| d ahead]; [discriminate |]. simpl in Es |- *.
      apply andb_true_iff in Es as (E & _). apply N.eqb_eq in E. now subst. }
    rewrite Ha, xorb_true_r. destruct (isWordAt behind); [reflexivity |].
    cbn [negb andb]. cbn [backtrack rest before].
    rewrite isWordAt_rev_app; [| discriminate | simpl; now rewrite Hc, Hw].
    rewrite xorb_true_l.
    now destruct (isWordAt (skipn (List.length (c :: w)) ahead)).
  - cbn [andb]. now destruct (xorb (isWordAt behind) (isWordAt ahead)).
Qed.

(** No whole word starts right after a word character. *)
Lemma occurrences_after_word name v : forall behind tail,
  isWordAt behind = true ->
  forallb isWordChar v = true ->
  occurrencesFrom name behind (v ++ tail)
  = occurrencesFrom name (rev v ++ behind) tail.
Proof.
  induction v as [| c v IH]; intros behind tail Hb Hv; [reflexivity |].
  simpl in Hv. apply andb_true_iff in Hv as (Hc & Hv).
  cbn [app occurrencesFrom]. unfold wholeWordAt at 1. rewrite Hb.
  rewrite andb_false_r. cbn [andb Nat.add].
  rewrite IH; auto. cbn [rev]. now rewrite <- app_assoc.
Qed.

(** A whole-word occurrence of a word name counts for one, and the next
    one starts after it. *)
Lemma occurrences_at_match name behind ahead :
  isWordName name = true ->
  wholeWordAt name behind ahead = true ->
  occurrencesFrom name behind ahead
  = S (occurrencesFrom name (rev name ++ behind)
         (skipn (List.length name) ahead))
  /\ (List.length (skipn (List.length name) ahead) < List.length ahead)%nat.
Proof.
  intros Hname Hat.
  destruct (isWordName_cons _ Hname) as (c & w & -> & Hc & Hw).
  assert (Hs : startsWith (c :: w) ahead = true).
  { unfold wholeWordAt in Hat. apply andb_true_iff in Hat as (Hat & _).
    now apply andb_true_iff in Hat as (Hs & _). }
  apply JsFacts.startsWith_prefix in Hs as (tail & ->).
  rewrite skipn_app, skipn_all, Nat.sub_diag. cbn [skipn app]. split.
  - cbn [occurrencesFrom]. change (c :: w ++ tail) with ((c :: w) ++ tail).
    rewrite Hat. rewrite occurrences_after_word; auto.
    cbn [rev]. now rewrite <- app_assoc.
  - simpl. rewrite length_app. lia.
Qed.

Lemma search_wordRegex name :
  isWordName name = true ->
  forall ahead behind,
    match search (wordRegex name) behind ahead with
    | None => occurrencesFrom name behind ahead = 0%nat
    | Some (start, st) =>
        occurrencesFrom name behind ahead
        = S (occurrencesFrom name (before st) (rest st))
        /\ (List.length (rest st) < List.length ahead)%nat
        /\ List.length (before st) <> List.length start
    end.
Proof.
  intros Hname. destruct (isWordName_cons _ Hname) as (c & w & E & Hc & Hw).
  induction ahead as [| d ahead IH]; intros behind; cbn [search];
    rewrite matchAt_wordRegex by assumption;
    destruct (wholeWordAt name behind _) eqn:Hat.
  - destruct (@occurrences_at_match name _ _ Hname Hat) as (Ho & Hl).
    cbn [before rest]. repeat split; auto.
    rewrite length_app, length_rev, E. simpl. lia.
  - cbn [occurrencesFrom]. now rewrite Hat.
  - destruct (@occurrences_at_match name _ _ Hname Hat) as (Ho & Hl).
    cbn [before rest]. repeat split; auto.
    rewrite length_app, length_rev, E. simpl. lia.
  - specialize (IH (d :: behind)).
    destruct (search (wordRegex name) (d :: behind) ahead) as [[start st] |].
    + destruct IH as (Ho & Hl & Hn). cbn [occurrencesFrom]. rewrite Hat.
      repeat split; auto. simpl. lia.
    + cbn [occurrencesFrom]. now rewrite Hat.
Qed.

Lemma matchesFrom_wordRegex name :
  isWordName name = true ->
  forall fuel ahead behind,
    (List.length ahead < fuel)%nat ->
    List.length (matchesFrom fuel (wordRegex name) behind ahead)
    = occurrencesFrom name behind ahead.
Proof.
  intros Hname. induction fuel as [| fuel IH]; intros ahead behind Hf; [lia |].
  cbn [matchesFrom]. pose proof (@search_wordRegex name Hname ahead behind) as Hs.
  destruct (search (wordRegex name) behind ahead) as [[start st] |]; auto.
  destruct Hs as (Ho & Hl & Hn).
  apply Nat.eqb_neq in Hn. rewrite Hn. cbn [List.length].
  rewrite IH by lia. auto.
Qed.

(** On a word name, what the code counts is the number of whole-word
    occurrences. *)
Lemma count_wholeWordOccurrences name content :
  isWordName name = true ->
  count name content = wholeWordOccurrences name content.
Proof.
  intros Hname. unfold count, matchAll, wholeWordOccurrences.
  apply matchesFrom_wordRegex; auto.
Qed.

(** ** The extracted names *)

Lemma word_capture (w : jsstring) :
  w <> [] /\ forallb isWordChar w = true -> isWordName w = true.
Proof. destruct w; intros (Hn & Hw); [contradiction | exact Hw]. Qed.

Lemma namedExports_capture r k l m :
  In (r, k) namedExports ->
  match_ r l = Some m ->
  isWordName (group 1 m) = true /\ isDefault k = false.
Proof.
  intros Hin Hm. unfold namedExports in Hin.
  repeat (destruct Hin as [E | Hin];
          [injection E as <- <-; split; [apply word_capture | reflexivity] |]);
    try contradiction.
  - apply (@RegexFacts.match_group_capture
             [Lit (lit "export"); Plus space;
              Opt (seq [Lit (lit "async"); Plus space]);
              Lit (lit "function"); Plus space] 1 isWordChar [] l m eq_refl Hm).
  - apply (@RegexFacts.match_group_capture
             [Lit (lit "export"); Plus space;
              Opt (seq [Lit (lit "abstract"); Plus space]);
              Lit (lit "class"); Plus space] 1 isWordChar [] l m eq_refl Hm).
  - apply (@RegexFacts.match_group_capture
             [Lit (lit "export"); Plus space;
              Alt (Lit (lit "const")) (Alt (Lit (lit "let")) (Lit (lit "var")));
              Plus space] 1 isWordChar [] l m eq_refl Hm).
  - apply (@RegexFacts.match_group_capture
             [Lit (lit "export"); Plus space; Lit (lit "type"); Plus space]
             1 isWordChar [] l m eq_refl Hm).
  - apply (@RegexFacts.match_group_capture
             [Lit (lit "export"); Plus space; Lit (lit "interface"); Plus space]
             1 isWordChar [] l m eq_refl Hm).
  - apply (@RegexFacts.match_group_capture
             [Lit (lit "export"); Plus space; Lit (lit "enum"); Plus space]
             1 isWordChar [] l m eq_refl Hm).
Qed.

Lemma firstMatch_wordName patterns l n e :
  incl patterns namedExports ->
  firstMatch patterns l n = Some e ->
  isWordName (name e) = true /\ isDefault (kind e) = false.
Proof.
  induction patterns as [| [r k] patterns IH]; intros Hincl H; [discriminate |].
  cbn [firstMatch] in H. destruct (match_ r l) as [m |] eqn:Em.
  - injection H as <-. cbn [name kind].
    eapply namedExports_capture; eauto. apply Hincl. now left.
  - apply IH; auto. intros x Hx. apply Hincl. now right.
Qed.

(** A symbol that [extractExports] names is a word, unless it is the
    default export. *)
Lemma exportOfLine_wordName l n e :
  exportOfLine l n = Some e ->
  isDefault (kind e) = false -> isWordName (name e) = true.
Proof.
  unfold exportOfLine. intros H Hk.
  destruct (firstMatch namedExports l n) as [e' |] eqn:E.
  - injection H as <-. eapply firstMatch_wordName; eauto. apply incl_refl.
  - destruct (match_ exportDefault l); [| discriminate].
    injection H as <-. discriminate.
Qed.

Lemma pythonExportOfLine_wordName l n e :
  pythonExportOfLine l n = Some e -> isWordName (name e) = true.
Proof.
  assert (Hdef : forall m, match_ pythonDef l = Some m ->
                           isWordName (group 1 m) = true).
  { intros m Hm. apply word_capture.
    apply (@RegexFacts.match_group_capture
             [Bol; Lit (lit "def"); Plus space] 1 isWordChar
             [Star space; Char (N.eqb 40)] l m eq_refl Hm). }
  assert (Hclass : forall m, match_ pythonClass l = Some m ->
                             isWordName (group 1 m) = true).
  { intros m Hm. apply word_capture.
    apply (@RegexFacts.match_group_capture
             [Bol; Lit (lit "class"); Plus space] 1 isWordChar [] l m
             eq_refl Hm). }
  assert (Hassign : forall m, match_ pythonAssign l = Some m ->
                              isWordName (group 1 m) = true).
  { intros m Hm. apply word_capture.
    apply (@RegexFacts.match_group_capture
             [Bol] 1 isWordChar [Star space; Char (N.eqb 61)] l m eq_refl Hm). }
  unfold pythonExportOfLine. cbn zeta. intros H.
  assert (Hrest :
    match
      match match_ pythonClass l with
      | Some m =>
          if negb (startsWith [UNDERSCORE] (group 1 m))
          then Some {| name := group 1 m; line := n; kind := k_class |}
          else None
      | None => None
      end
    with
    | Some e => Some e
    | None =>
        match match_ pythonAssign l with
        | Some m =>
            if negb (startsWith [UNDERSCORE] (group 1 m))
               && Js.eqb (group 1 m) (toUpperCaseAscii (group 1 m))
            then Some {| name := group 1 m; line := n; kind := k_variable |}
            else None
        | None => None
        end
    end = Some e -> isWordName (name e) = true).
  { clear H. intros H.
    destruct (match_ pythonClass l) as [m |] eqn:Ec.
    - destruct (negb (startsWith [UNDERSCORE] (group 1 m))).
      + injection H as <-. now apply Hclass.
      + destruct (match_ pythonAssign l) as [m' |] eqn:Ea; [| discriminate].
        destruct (_ && _); [| discriminate]. injection H as <-.
        now apply Hassign.
    - destruct (match_ pythonAssign l) as [m' |] eqn:Ea; [| discriminate].
      destruct (_ && _); [| discriminate]. injection H as <-.
      now apply Hassign. }
  destruct (match_ pythonDef l) as [m |] eqn:Ed; auto.
  destruct (negb (startsWith [UNDERSCORE] (group 1 m))); auto.
  injection H as <-. now apply Hdef.
Qed.

Lemma overLines_In f lines i e :
  In e (overLines f lines i) -> exists l n, f l n = Some e.
Proof.
  revert i. induction lines as [| l lines IH]; intros i H; [contradiction |].
  cbn [overLines] in H. destruct (f l (Z.of_nat i + 1)) as [e' |] eqn:E.
  - destruct H as [<- | H]; eauto.
  - eauto.
Qed.

Lemma exportsOf_wordName lang content e :
  In e (exportsOf lang content) ->
  isDefault (kind e) = false -> isWordName (name e) = true.
Proof.
  intros Hin Hk. destruct lang as [[| |] |]; cbn [exportsOf] in Hin;
    try contradiction; apply overLines_In in Hin as (l & n & H).
  - eapply exportOfLine_wordName; eauto.
  - eapply exportOfLine_wordName; eauto.
  - eapply pythonExportOfLine_wordName; eauto.
Qed.

(** ** The scan *)

Lemma mapSet_In {V : Type} key (v0 : V) m k v :
  In (k, v) (mapSet key v0 m) -> (k = key /\ v = v0) \/ In (k, v) m.
Proof.
  induction m as [| [k' v'] m IH]; cbn [mapSet]; intros H.
  - destruct H as [E | []]. injection E as <- <-. auto.
  - destruct (Js.eqb k' key) eqn:Ek.
    + apply JsFacts.eqb_eq in Ek. subst k'. destruct H as [E | H].
      * injection E as <- <-. auto.
      * right. now right.
    + destruct H as [E | H]; [right; now left |].
      destruct (IH H) as [? | ?]; auto. right. now right.
Qed.

(** The entries of [allExports] are the exports of scanned files. *)
Lemma scan_provenance files sc0 path exports :
  In (path, exports) (allExports (fold_left scanFile files sc0)) ->
  In (path, exports) (allExports sc0)
  \/ exists f content,
       In f files /\ relPath f = path /\ text f = Some content
       /\ exports = exportsOf (language f) content /\ exports <> [].
Proof.
  revert sc0. induction files as [| f files IH]; intros sc0 H; [now left |].
  cbn [fold_left] in H. apply IH in H as [H | (f' & content & Hf & ?)].
  - unfold scanFile in H. destruct (text f) as [content |] eqn:Et; [| now left].
    cbn [allExports] in H.
    destruct (exportsOf (language f) content) as [| e es] eqn:Ee; [now left |].
    apply mapSet_In in H as [(-> & ->) | H]; [| now left].
    right. exists f, content.
    split; [now left |]. split; [reflexivity |]. split; [assumption |].
    split; [now rewrite Ee | discriminate].
  - right. exists f', content. split; [now right | assumption].
Qed.

Lemma flat_map_ext_in {A B : Type} (f g : A -> list B) l :
  (forall a, In a l -> f a = g a) -> flat_map f l = flat_map g l.
Proof.
  induction l as [| a l IH]; intros H; [reflexivity |].
  cbn [flat_map]. rewrite (H a) by now left.
  rewrite IH; auto. intros b Hb. apply H. now right.
Qed.

Lemma unusedExport_inj path exp path' exp' :
  unusedExport path exp = unusedExport path' exp' -> path = path' /\ exp = exp'.
Proof.
  intros H.
  pose proof (f_equal d_title H) as Htitle.
  pose proof (f_equal (fun d => filePath (d_location d)) H) as Hpath.
  pose proof (f_equal (fun d => startLine (d_location d)) H) as Hline.
  pose proof (f_equal (fun d => option_map fix_description (d_suggestedFix d)) H)
    as Hfix.
  cbn [unusedExport d_title d_location d_suggestedFix loc filePath startLine
       option_map fix_description] in Htitle, Hpath, Hline, Hfix.
  apply app_inv_head in Htitle. injection Hfix as Hfix.
  apply app_inv_tail in Hfix.
  assert (Hkind : kind exp = kind exp').
  { destruct (kind exp), (kind exp'); try reflexivity; discriminate Hfix. }
  split; auto. destruct exp, exp'. cbn [name line kind] in *. congruence.
Qed.

Lemma mapSet_fresh {V : Type} key (v : V) m :
  ~ In key (List.map fst m) -> mapSet key v m = m ++ [(key, v)].
Proof.
  induction m as [| [k v'] m IH]; cbn [mapSet List.map fst In app]; intros H;
    [reflexivity |].
  destruct (Js.eqb k key) eqn:Ek.
  - apply JsFacts.eqb_eq in Ek. exfalso. apply H. now left.
  - rewrite IH; [reflexivity |]. intros Hin. apply H. now right.
Qed.

Lemma readable_cons f files :
  readable (f :: files)
  = match text f with
    | Some content => [(relPath f, content)]
    | None => []
    end ++ readable files.
Proof. reflexivity. Qed.

(** A content held after the scan is the content of a file of the scan. *)
Lemma scan_contents_provenance files sc0 path content :
  In (path, content) (fileContents (fold_left scanFile files sc0)) ->
  In (path, content) (fileContents sc0) \/ In (path, content) (readable files).
Proof.
  revert sc0. induction files as [| f files IH]; intros sc0 H; [now left |].
  cbn [fold_left] in H. rewrite readable_cons.
  apply IH in H as [H | H]; [| right; apply in_or_app; now right].
  unfold scanFile in H. destruct (text f) as [c |] eqn:Et; [| now left].
  cbn [fileContents] in H. apply mapSet_In in H as [(-> & ->) | H]; [| now left].
  right. now left.
Qed.

(** When no path comes twice, the contents held after the scan are those
    of the files that could be read, in the order of the scan. *)
Lemma scan_contents_distinct files : forall sc0,
  NoDup (List.map fst (fileContents sc0 ++ readable files)) ->
  fileContents (fold_left scanFile files sc0)
  = fileContents sc0 ++ readable files.
Proof.
  induction files as [| f files IH]; intros sc0 Hnd.
  - cbn. now rewrite app_nil_r.
  - cbn [fold_left]. rewrite readable_cons in *.
    unfold scanFile at 2. destruct (text f) as [c |] eqn:Et.
    + rewrite IH; cbn [fileContents].
      * rewrite mapSet_fresh; [now rewrite <- app_assoc |].
        rewrite map_app in Hnd. apply NoDup_remove_2 in Hnd.
        intros Hin. apply Hnd. apply in_or_app. now left.
      * rewrite mapSet_fresh; [now rewrite <- app_assoc |].
        rewrite map_app in Hnd. apply NoDup_remove_2 in Hnd.
        intros Hin. apply Hnd. apply in_or_app. now left.
    + now apply IH.
Qed.


Lemma has_dismissals content f :
  has (dismissalsOf content) (keyOf f) = true <-> namedInDismissLine content f.
Proof.
  unfold has, dismissalsOf, namedInDismissLine.
  change (lit "DISMISS|") with DISMISS.
  change (filePath (location f) ++ lit ":" ++ ofZ (startLine (location f)))
    with (keyOf f).
  rewrite existsb_exists. split.
  - intros (x & Hin & E). apply JsFacts.eqb_eq in E. subst x.
    apply in_flat_map in Hin as (l & Hl & Hin).
    destruct (startsWith DISMISS l) eqn:Hs; [| contradiction].
    destruct (split PIPE l) as [| first [| target more]] eqn:Hp;
      try contradiction.
    destruct Hin as [E | []]. exists l, first, target, more. auto.
  - intros (l & first & target & more & Hl & Hs & Hp & E).
    exists (keyOf f). split; [| apply JsFacts.eqb_refl].
    apply in_flat_map. exists l. split; auto.
    rewrite Hs, Hp. left. exact E.
Qed.

Lemma createAll_length ids k drafts :
  List.length (createAll ids k drafts) = List.length drafts.
Proof. revert k. induction drafts; intros k; simpl; auto. Qed.

(** C8.  The model review leaves the list of findings as long as it was
    and every finding at its place.  A finding named in a [DISMISS] line of
    the response -- a line [DISMISS|path:line|..] with the path and the
    start line of the finding -- gets the severity [hint] and the note
    [ (Model suggests this may be a false positive.)] at the end of its
    description; nothing else changes, in that finding or in any other.
    When the request fails, or no provider is configured, the findings are
    those of the static pass. *)
Theorem review_never_removes_a_finding ids repoRoot files review :
  files <> [] ->
  let static := DeadCode.run ids repoRoot files None in
  let reviewed := DeadCode.run ids repoRoot files review in
  static = createAll ids 0 (staticPass (scanFiles files))
  /\ List.length reviewed = List.length static
  /\ forall i f,
       nth_error static i = Some f ->
       exists f',
         nth_error reviewed i = Some f'
         /\ id f' = id f /\ toolId f' = toolId f /\ title f' = title f
         /\ location f' = location f /\ suggestedFix f' = suggestedFix f
         /\ metadata f' = metadata f
         /\ match review with
            | Some (Resolved resp) =>
                (namedInDismissLine (rs_content resp) f ->
                   severity f' = sev_hint
                   /\ description f'
                      = description f
                        ++ lit " (Model suggests this may be a false positive.)")
                /\ (~ namedInDismissLine (rs_content resp) f -> f' = f)
            | Some (Rejected _) | None => f' = f
            end.
Proof.
  intros Hfiles. unfold DeadCode.run. destruct files as [| file files']; [congruence |].
  set (findings := createAll ids 0 (staticPass (scanFiles (file :: files')))).
  cbn zeta. split; [now destruct findings |].
  assert (Hsame : forall i f, nth_error findings i = Some f ->
            exists f', nth_error findings i = Some f'
              /\ id f' = id f /\ toolId f' = toolId f /\ title f' = title f
              /\ location f' = location f /\ suggestedFix f' = suggestedFix f
              /\ metadata f' = metadata f /\ f' = f).
  { intros i f Hf. exists f. repeat split; auto. }
  destruct review as [[resp | err] |].
  - assert (E : match findings with
                | [] => findings
                | _ :: _ =>
                    let '(findings', modelFindings) :=
                      modelReview findings (Resolved resp) in
                    findings' ++ modelFindings
                end
                = List.map (fun f => if has (dismissalsOf (rs_content resp)) (keyOf f)
                                     then downgrade f else f) findings).
    { destruct findings; [reflexivity |]. simpl. now rewrite app_nil_r. }
    rewrite E. clear E. split.
    + rewrite length_map. now destruct findings.
    + intros i f Hf.
      assert (Hf' : nth_error findings i = Some f) by (now destruct findings).
      rewrite nth_error_map, Hf'. simpl.
      destruct (has (dismissalsOf (rs_content resp)) (keyOf f)) eqn:Hh.
      * exists (downgrade f). do 7 (split; [reflexivity |]). split.
        -- intros _. split; reflexivity.
        -- intros Hn. exfalso. apply Hn. now apply has_dismissals.
      * exists f. do 7 (split; [reflexivity |]). split.
        -- intros Hn. apply has_dismissals in Hn. congruence.
        -- reflexivity.
  - assert (E : match findings with
                | [] => findings
                | _ :: _ =>
                    let '(findings', modelFindings) :=
                      modelReview findings (Rejected err) in
                    findings' ++ modelFindings
                end = findings).
    { destruct findings; [reflexivity |]. simpl. now rewrite app_nil_r. }
    rewrite E. clear E. split; [now destruct findings |].
    intros i f Hf. assert (Hf' : nth_error findings i = Some f)
      by (now destruct findings).
    destruct (Hsame i f Hf') as (f' & ? & ? & ? & ? & ? & ? & ? & ?).
    exists f'. repeat split; auto.
  - split; [reflexivity |]. intros i f Hf.
    destruct (Hsame i f Hf) as (f' & ? & ? & ? & ? & ? & ? & ? & ?).
    exists f'. repeat split; auto.
Qed.

(** ** On sample files *)

Example static_pass_example :
  allExports (scanFiles Samples.files)
  = [(lit "a.ts", [Samples.used; Samples.lonely; Samples.defaultExport])]
  /\ staticPass (scanFiles Samples.files)
     = [unusedExport (lit "a.ts") Samples.lonely]
  /\ wholeWordOccurrences (lit "used") (allContent (scanFiles Samples.files))
     = 3%nat
  /\ wholeWordOccurrences (lit "lonely") (allContent (scanFiles Samples.files))
     = 1%nat.
Proof. vm_compute. repeat split. Qed.


Example review_example :
  List.map (fun f => (keyOf f, severity f))
    (DeadCode.run Samples.ids (lit "/repo") Samples.files
       (Some (Resolved Samples.dismissal)))
  = [(lit "a.ts:2", sev_hint)]
  /\ List.map (fun f => (keyOf f, severity f))
       (DeadCode.run Samples.ids (lit "/repo") Samples.files
          (Some (Rejected (ThrownError (lit "timeout")))))
     = [(lit "a.ts:2", sev_warning)].
Proof. vm_compute. split; reflexivity. Qed.

Lemma review_never_removes_a_finding_witness :
  let static := DeadCode.run Samples.ids (lit "/repo") Samples.files None in
  let reviewed :=
    DeadCode.run Samples.ids (lit "/repo") Samples.files
      (Some (Resolved Samples.dismissal)) in
  (exists f f',
      static = [f] /\ reviewed = [f']
      /\ filePath (location f) = lit "a.ts" /\ startLine (location f) = 2
      /\ severity f = sev_warning
      /\ namedInDismissLine
           (join [LF] [lit "CONFIRM|a.ts:1"; lit "DISMISS|a.ts:2|entry point"])
           f
      /\ severity f' = sev_hint
      /\ description f'
         = description f
           ++ lit " (Model suggests this may be a false positive.)")
  /\ static = createAll Samples.ids 0 (staticPass (scanFiles Samples.files))
  /\ List.length reviewed = List.length static
  /\ forall i f,
       nth_error static i = Some f ->
       exists f',
         nth_error reviewed i = Some f'
         /\ id f' = id f /\ toolId f' = toolId f /\ title f' = title f
         /\ location f' = location f /\ suggestedFix f' = suggestedFix f
         /\ metadata f' = metadata f
         /\ (namedInDismissLine (rs_content Samples.dismissal) f ->
               severity f' = sev_hint
               /\ description f'
                  = description f
                    ++ lit " (Model suggests this may be a false positive.)")
         /\ (~ namedInDismissLine (rs_content Samples.dismissal) f -> f' = f).
Proof.
  split.
  - eexists _, _. split; [reflexivity |]. split; [reflexivity |].
    split; [reflexivity |]. split; [reflexivity |]. split; [reflexivity |].
    split; [| split; reflexivity].
    exists (lit "DISMISS|a.ts:2|entry point"), (lit "DISMISS"), (lit "a.ts:2"),
      [lit "entry point"].
    split; [right; left; reflexivity |]. repeat split; reflexivity.
  - apply (@review_never_removes_a_finding Samples.ids (lit "/repo")
             Samples.files (Some (Resolved Samples.dismissal))).
    discriminate.
Defined.

End DeadCodeFacts.

(* ===================================================================== *)
(** * Properties of the parsers *)
(* ===================================================================== *)

Module ParserFacts.

Lemma flat_map_option_length {A B : Type} (f : A -> option B) l :
  List.length (flat_map (fun a => match f a with
                                  | Some b => [b]
                                  | None => []
                                  end) l)
  = List.length (filter (fun a => isSome (f a)) l).
Proof.
  induction l as [| a l IH]; [reflexivity |].
  cbn [flat_map filter]. destruct (f a); simpl; now rewrite IH.
Qed.

(** The lint review: one finding per line that matches the pattern, in the
    order of the lines; the other lines leave nothing; a failed request
    leaves nothing. *)
Lemma lint_one_finding_per_matching_line content :
  List.length (Lint.parseReview content)
  = List.length (filter (fun l => isSome (Regex.match_ Lint.reviewLine l))
                   (split LF content))
  /\ (forall l, Regex.match_ Lint.reviewLine l = None ->
                Lint.findingOfReviewLine l = None)
  /\ (forall err, Lint.modelFindings (Rejected err) = []).
Proof.
  split; [| split].
  - unfold Lint.parseReview. rewrite flat_map_option_length.
    f_equal. apply filter_ext. intros l. unfold Lint.findingOfReviewLine.
    now destruct (Regex.match_ Lint.reviewLine l).
  - intros l H. unfold Lint.findingOfReviewLine. now rewrite H.
  - reflexivity.
Qed.

(** The example of the specification. *)
Example lint_review_example :
  Lint.parseReview Samples.review
  = [ {| d_title := lit "Code smell detected";
         d_description := lit "desc";
         d_location := loc (lit "a.ts") 12 12;
         d_severity := sev_warning;
         d_suggestedFix := None;
         d_metadata := Some [(lit "source", JsStr (lit "model"))] |} ].
Proof. vm_compute. reflexivity. Qed.

(** The comments parser: one finding per line that is a well-formed
    REMOVE or REWRITE record; every other line is skipped. *)
Lemma comments_skip_malformed_lines toUpperCase content filePath :
  List.length (Comments.parseModelResponse toUpperCase content filePath)
  = List.length (filter (Comments.wellFormedAction toUpperCase) (split LF content))
  /\ forall l, Comments.wellFormedAction toUpperCase l = false ->
               Comments.findingOfActionLine toUpperCase filePath l = None.
Proof.
  assert (H : forall l,
             isSome (Comments.findingOfActionLine toUpperCase filePath l)
             = Comments.wellFormedAction toUpperCase l).
  { intros l. unfold Comments.findingOfActionLine, Comments.wellFormedAction.
    destruct (split PIPE l) as [| a [| b [| c [| d e]]]]; try reflexivity.
    destruct (Js.eqb (toUpperCase (trim a)) Comments.REMOVE);
      destruct (Js.eqb (toUpperCase (trim a)) Comments.REWRITE);
      destruct (parseInt (trim b)); destruct (parseInt (trim c));
      reflexivity. }
  split.
  - unfold Comments.parseModelResponse. rewrite flat_map_option_length.
    f_equal. apply filter_ext. exact H.
  - intros l Hl. rewrite <- H in Hl.
    now destruct (Comments.findingOfActionLine toUpperCase filePath l).
Qed.

Import Conflicts.
Local Open Scope nat_scope.

Lemma scanHunk_no_separator rest : forall i s,
  (forall l, In l rest -> startsWith MARKER_SEPARATOR l = false) ->
  separatorFound s = false ->
  separatorFound (scanHunk rest i s) = false.
Proof.
  induction rest as [| l rest IH]; intros i s Hno Hs; [exact Hs |].
  cbn [scanHunk]. rewrite Hs, (Hno l) by now left. cbn [negb andb].
  apply IH; auto. intros l' Hl'. apply Hno. now right.
Qed.

(** An opening marker that no separator follows gives no hunk. *)
Lemma parseOneHunk_no_separator lines i :
  (forall l, In l (skipn (i + 1) lines) ->
             startsWith MARKER_SEPARATOR l = false) ->
  parseOneHunk lines i = None.
Proof.
  intros Hno. unfold parseOneHunk. cbn zeta.
  now rewrite scanHunk_no_separator.
Qed.

(** Without a line that starts with [=======], there is no hunk at all. *)
Lemma parseConflictMarkers_no_separator content :
  (forall l, In l (split LF content) -> startsWith MARKER_SEPARATOR l = false) ->
  parseConflictMarkers content = [].
Proof.
  intros Hno. unfold parseConflictMarkers. cbn zeta.
  generalize (List.length (split LF content)) as fuel.
  generalize 0 as i. intros i fuel. revert i.
  induction fuel as [| fuel IH]; intros i; [reflexivity |].
  cbn [parseFrom]. destruct (nth_error (split LF content) i); [| reflexivity].
  rewrite parseOneHunk_no_separator.
  - destruct (startsWith MARKER_OURS j); apply IH.
  - intros l Hl. apply Hno.
    rewrite <- (firstn_skipn (i + 1) (split LF content)).
    apply in_or_app. now right.
Qed.

Lemma scanHunk_endLine rest : forall i s start,
  start < i -> start < hs_endLine s ->
  start < hs_endLine (scanHunk rest i s).
Proof.
  induction rest as [| l rest IH]; intros i s start Hi Hs; [exact Hs |].
  cbn [scanHunk].
  destruct (negb (separatorFound s) && startsWith MARKER_SEPARATOR l);
    [apply IH; simpl; auto |].
  destruct (separatorFound s && startsWith MARKER_THEIRS l); [simpl; lia |].
  destruct (separatorFound s); apply IH; simpl; auto.
Qed.

Lemma parseOneHunk_endLine lines i hunk :
  parseOneHunk lines i = Some hunk -> i < endLine hunk.
Proof.
  unfold parseOneHunk. cbn zeta.
  destruct (negb _); [discriminate |]. intros H. injection H as <-.
  cbn [endLine]. apply scanHunk_endLine; simpl; lia.
Qed.

(** The loop ends: [lines.length] turns, and any larger number of them,
    give the same hunks. *)
Lemma parseFrom_enough_fuel lines : forall n fuel1 fuel2 i,
  List.length lines - i <= n -> n <= fuel1 -> n <= fuel2 ->
  parseFrom fuel1 lines i = parseFrom fuel2 lines i.
Proof.
  induction n as [| n IH]; intros fuel1 fuel2 i Hn H1 H2.
  - assert (E : nth_error lines i = None) by (apply nth_error_None; lia).
    destruct fuel1, fuel2; cbn [parseFrom]; now rewrite ?E.
  - destruct fuel1 as [| fuel1]; [lia |]. destruct fuel2 as [| fuel2]; [lia |].
    cbn [parseFrom]. destruct (nth_error lines i) as [l |] eqn:E; [| reflexivity].
    assert (Hi : i < List.length lines) by (apply nth_error_Some; congruence).
    destruct (startsWith MARKER_OURS l); [| apply IH; lia].
    destruct (parseOneHunk lines i) as [hunk |] eqn:Eh; [| apply IH; lia].
    f_equal. apply parseOneHunk_endLine in Eh. apply IH; lia.
Qed.

(** The test of the sources: one block without separator, nothing after. *)
Example orphan_block_alone_is_ignored :
  parseConflictMarkers Samples.orphanBlock = [].
Proof. vm_compute. reflexivity. Qed.

(** C10 fails on the conflict markers.  A block without separator that is
    followed by a complete block is not ignored: the scan of
    [parseOneHunk] runs on to the separator of the next block, and one hunk
    comes out that starts at the opening marker of the first block and holds
    the markers in between as content. *)
Theorem orphan_block_is_merged_with_the_next :
  parseConflictMarkers Samples.orphanThenBlock
  = [ {| startLine := 1; endLine := 8;
         ours := join [LF] [lit "x"; lit ">>>>>>> B"; lit "<<<<<<< C"; lit "o"];
         theirs := lit "t";
         oursLabel := lit "A"; theirsLabel := lit "D" |} ].
Proof. vm_compute. reflexivity. Qed.

End ParserFacts.

(* ===================================================================== *)
(** * Further properties *)
(* ===================================================================== *)

Module RunFacts.
Import Agent Accounting Conversation AgentFacts.

Section Loop.

Variable getToolByCommand : jsstring -> option ToolRegistryEntry.
Variable config : AgentConfig.

Local Abbreviation runAgentLoop := (runAgentLoop getToolByCommand config).
Local Abbreviation Batch := (Batch getToolByCommand config).
Local Abbreviation Turns := (Turns getToolByCommand config).

Lemma reportedInput_app tr1 tr2 :
  reportedInput (tr1 ++ tr2) = reportedInput tr1 + reportedInput tr2.
Proof.
  induction tr1 as [| [rq [resp | err] | a r] tr1 IH]; simpl; lia.
Qed.

Lemma reportedOutput_app tr1 tr2 :
  reportedOutput (tr1 ++ tr2) = reportedOutput tr1 + reportedOutput tr2.
Proof.
  induction tr1 as [| [rq [resp | err] | a r] tr1 IH]; simpl; lia.
Qed.

Lemma toolYields_reported tr :
  Forall isToolYield tr -> reportedInput tr = 0 /\ reportedOutput tr = 0.
Proof.
  induction 1 as [| [rq o | a r] tr H _ IH]; simpl in *; auto; contradiction.
Qed.

Lemma toolYields_actions [tr a] :
  Forall isToolYield tr -> In a (yieldedActions tr) -> isTerminal a = false.
Proof.
  induction 1 as [| [rq o | b r] tr H _ IH]; simpl in *;
    [contradiction | contradiction |].
  intros [<- | Hin]; auto.
Qed.

(** However the loop is left, the last event is a terminal action handed to
    the host, and no terminal action comes before it. *)
Lemma turns_end t messages totals tr final :
  Turns t messages totals tr final ->
  exists body last r,
    tr = body ++ [Yielded last r]
    /\ isTerminal last = true
    /\ (forall a, In a (yieldedActions body) -> isTerminal a = false)
    /\ (requestCount tr <= t)%nat.
Proof.
  induction 1 as [ messages totals r | t messages totals r Hge
                 | t messages totals err text r Hlt Htext
                 | t messages totals resp r Hlt Hno
                 | t messages totals resp calls batch results tr final
                     Hlt Hyes Hcalls HB HT IH ].
  - exists [], (error (turnLimitMessage (maxTurns config))), r.
    repeat split; auto. intros a [].
  - eexists [], _, r. split; [reflexivity |]. repeat split; auto.
    + intros a [].
    + cbn. lia.
  - eexists [_], _, r. split; [reflexivity |]. repeat split; auto.
    + intros a [].
    + cbn. lia.
  - eexists [_], _, r. split; [reflexivity |]. repeat split; auto.
    + intros a [].
    + cbn. lia.
  - destruct IH as (body & last & r & -> & Hlast & Hbody & Hcount).
    exists (Requested (requestOf config messages) (Resolved resp) :: batch ++ body),
      last, r.
    split; [simpl; now rewrite <- app_assoc |]. split; [assumption |]. split.
    + intros a Ha. cbn [yieldedActions] in Ha. rewrite yieldedActions_app in Ha.
      apply in_app_or in Ha as [Ha | Ha]; auto.
      exact (toolYields_actions (@batch_toolYields _ _ _ _ _ HB) Ha).
    + change (Requested (requestOf config messages) (Resolved resp)
              :: batch ++ body ++ [Yielded last r])
        with ([Requested (requestOf config messages) (Resolved resp)]
              ++ batch ++ body ++ [Yielded last r]).
      rewrite requestCount_app, requestCount_app.
      rewrite (toolYields_requestCount (@batch_toolYields _ _ _ _ _ HB)).
      change (requestCount [Requested (requestOf config messages) (Resolved resp)])
        with 1%nat.
      lia.
Qed.

(** X1: for an integer [maxTurns] in the safe range, every run that the
    generator finishes, whatever the provider and the host do, ends with a
    terminal action (a response or an error) as its last event; every action
    handed to the host before it is a tool action; and the run makes at most
    [maxTurns] requests, so none at all when [maxTurns] is not positive: it
    is then the error of the turn limit alone.  The generator fails to
    finish in one way only: it throws right after a request that the
    provider has rejected with a value that has no string form, and no
    terminal action has been handed to the host then. *)
Theorem run_ends_with_its_only_terminal_action history userMessage tr :
  isSafeInteger (maxTurns config) = true ->
  (forall final,
      Run (runAgentLoop history userMessage) tr final ->
      exists body last r,
        tr = body ++ [Yielded last r]
        /\ isTerminal last = true
        /\ (forall a, In a (yieldedActions body) -> isTerminal a = false)
        /\ (requestCount tr <= Z.to_nat (maxTurns config))%nat
        /\ (maxTurns config <= 0 ->
            tr = [Yielded
                    (error (lit "Agent loop reached maximum turns ("
                            ++ ofZ (maxTurns config)
                            ++ lit "). Stopping to prevent runaway execution."))
                    r]))
  /\ (Throws (runAgentLoop history userMessage) tr ->
      exists body request,
        tr = body ++ [Requested request (Rejected ThrownOpaque)]
        /\ (forall a, In a (yieldedActions tr) -> isTerminal a = false)
        /\ (requestCount tr <= Z.to_nat (maxTurns config))%nat).
Proof.
  intros _. split.
  - intros final H. apply runAgentLoop_run in H.
    destruct (turns_end H) as (body & last & r & E & Hlast & Hbody & Hcount).
    exists body, last, r. repeat split; auto.
    intros Hle. replace (Z.to_nat (maxTurns config)) with 0%nat in H by lia.
    inversion H as [ ? ? r' | | | | ]; subst.
    destruct body as [| e [| e' body]]; simpl in *; try discriminate.
    match goal with E : [_] = [_] |- _ => now injection E as _ -> end.
  - intros H. now apply turnLoop_throws in H.
Qed.

(** The totals a response carries are the tokens reported since the loop
    was entered, added to the totals it was entered with; the response is
    the content of the answer to the last request. *)
Lemma turns_response_usage t messages totals tr final :
  Turns t messages totals tr final ->
  forall content usage r,
    In (Yielded (response content usage) r) tr ->
    totalInputTokens usage = totalInputTokens totals + reportedInput tr
    /\ totalOutputTokens usage = totalOutputTokens totals + reportedOutput tr
    /\ exists pre request resp,
         tr = pre ++ [Requested request (Resolved resp);
                      Yielded (response content usage) r]
         /\ content = rs_content resp
         /\ requestsTools resp = false.
Proof.
  induction 1 as [ messages totals r | t messages totals r Hge
                 | t messages totals err text r Hlt Htext
                 | t messages totals resp r Hlt Hno
                 | t messages totals resp calls batch results tr final
                     Hlt Hyes Hcalls HB HT IH ];
    intros content usage r0 Hin.
  - destruct Hin as [Hin | []]; discriminate.
  - destruct Hin as [Hin | []]; discriminate.
  - destruct Hin as [Hin | [Hin | []]]; discriminate.
  - destruct Hin as [Hin | [Hin | []]]; [discriminate |].
    injection Hin as <- <- <-. cbn [reportedInput reportedOutput].
    split; [| split].
    + destruct (rs_usage resp); simpl; lia.
    + destruct (rs_usage resp); simpl; lia.
    + exists [], (requestOf config messages), resp. auto.
  - destruct Hin as [Hin | Hin]; [discriminate |].
    pose proof (@batch_toolYields _ _ _ _ _ HB) as Hb.
    apply in_app_or in Hin as [Hin | Hin].
    { rewrite Forall_forall in Hb. apply Hb in Hin. discriminate Hin. }
    destruct (IH _ _ _ Hin) as (Ei & Eo & pre & request & resp' & -> & Ec & Hno).
    destruct (toolYields_reported Hb) as [Bi Bo].
    cbn [reportedInput reportedOutput].
    rewrite reportedInput_app, reportedOutput_app, Bi, Bo.
    split; [| split].
    + rewrite Ei. destruct (rs_usage resp); simpl; lia.
    + rewrite Eo. destruct (rs_usage resp); simpl; lia.
    + exists (Requested (requestOf config messages) (Resolved resp)
              :: batch ++ pre), request, resp'.
      split; [| auto]. simpl. now rewrite <- app_assoc.
Qed.

(** X2: when a run ends with a response, the usage it carries is exactly
    what the provider reported over the whole run, input and output tokens
    apart (a response without usage counting for nothing), and its content
    is that of the answer to the last request, which asked for no tool.  The
    token counts are non-negative integers with a safe total. *)
Theorem response_carries_the_reported_usage history userMessage tr final
    content usage r :
  Run (runAgentLoop history userMessage) tr final ->
  usageInRange tr = true ->
  In (Yielded (response content usage) r) tr ->
  totalInputTokens usage = reportedInput tr
  /\ totalOutputTokens usage = reportedOutput tr
  /\ exists pre request resp,
       tr = pre ++ [Requested request (Resolved resp);
                    Yielded (response content usage) r]
       /\ content = rs_content resp
       /\ requestsTools resp = false.
Proof.
  intros H _ Hin. apply runAgentLoop_run in H.
  destruct (turns_response_usage H _ _ _ Hin) as (Ei & Eo & Hrest).
  simpl in Ei, Eo. auto.
Qed.

(** An action of a batch is the action of one of its calls, whose name the
    registry knows. *)
Lemma batch_yield_known [calls batch results action r] :
  Batch calls batch results ->
  In (Yielded action r) batch ->
  exists call entry,
    In call calls
    /\ getToolByCommand (tc_name call) = Some entry
    /\ action = actionFor entry call.
Proof.
  induction 1 as [| call evs m calls tr results Hh _ IH]; [intros [] |].
  intros Hin. apply in_app_or in Hin as [Hin | Hin].
  - unfold handles in Hh.
    destruct (getToolByCommand (tc_name call)) as [entry |] eqn:E.
    + destruct Hh as (r' & -> & _). destruct Hin as [Hin | []].
      injection Hin as <- _. exists call, entry. simpl. auto.
    + destruct Hh as (-> & _). destruct Hin.
  - destruct (IH Hin) as (c & entry & Hc & E & Ea).
    exists c, entry. simpl. auto.
Qed.

Lemma turns_tool_actions t messages totals tr final :
  Turns t messages totals tr final ->
  forall pre action r post,
    tr = pre ++ Yielded action r :: post ->
    isTerminal action = false ->
    exists request resp calls call entry,
      In (Requested request (Resolved resp)) pre
      /\ rs_toolCalls resp = Some calls
      /\ In call calls
      /\ getToolByCommand (tc_name call) = Some entry
      /\ action = actionFor entry call.
Proof.
  assert (Hone : forall (e x : Event) pre post,
             [e] = pre ++ x :: post -> e = x).
  { intros e x [| y [| z pre]] post E; simpl in E; try discriminate.
    now injection E. }
  assert (Htwo : forall (e1 e2 x : Event) pre post,
             [e1; e2] = pre ++ x :: post -> e1 = x \/ e2 = x).
  { intros e1 e2 x [| y [| z [| w pre]]] post E; simpl in E; try discriminate.
    - injection E; auto.
    - injection E; auto. }
  induction 1 as [ messages totals r | t messages totals r Hge
                 | t messages totals err text r Hlt Htext
                 | t messages totals resp r Hlt Hno
                 | t messages totals resp calls batch results tr final
                     Hlt Hyes Hcalls HB HT IH ];
    intros pre action r0 post E Hnt.
  - apply Hone in E. injection E as <- _. discriminate.
  - apply Hone in E. injection E as <- _. discriminate.
  - apply Htwo in E as [E | E]; [discriminate |].
    injection E as <- _. discriminate.
  - apply Htwo in E as [E | E]; [discriminate |].
    injection E as <- _. discriminate.
  - destruct pre as [| e pre]; simpl in E; [discriminate |].
    injection E as <- E.
    assert (Hreq : In (Requested (requestOf config messages) (Resolved resp))
                     (Requested (requestOf config messages) (Resolved resp)
                      :: pre)) by (left; reflexivity).
    apply app_eq_app in E as (l & [(-> & E) | (-> & E)]).
    + destruct l as [| x l]; simpl in E.
      * destruct (IH [] action r0 post (eq_sym E) Hnt)
          as (rq & resp' & calls' & call & entry & [] & _).
      * injection E as <- ->.
        assert (Hin : In (Yielded action r0) (pre ++ Yielded action r0 :: l))
          by (apply in_or_app; right; left; reflexivity).
        destruct (batch_yield_known HB Hin) as (call & entry & Hc & Ee & Ea).
        exists (requestOf config messages), resp, calls, call, entry. auto.
    + destruct (IH l action r0 post E Hnt)
        as (rq & resp' & calls' & call & entry & Hin & Hrest).
      exists rq, resp', calls', call, entry. split; [| exact Hrest].
      right. apply in_or_app. now right.
Qed.

(** X3: a tool action is only ever handed to the host for a call of an
    earlier response of the run whose name the registry knows: the action
    is a [tool_call] when the entry is autonomous and a
    [confirmation_required], described by the name and the description of
    the entry, when it needs confirmation; both carry the id of the entry
    and the id and arguments of the call.  A call with an unknown name never
    reaches the host. *)
Theorem tool_actions_are_for_registered_calls history userMessage tr final
    pre action r post :
  Run (runAgentLoop history userMessage) tr final ->
  tr = pre ++ Yielded action r :: post ->
  isTerminal action = false ->
  exists request resp calls call entry,
    In (Requested request (Resolved resp)) pre
    /\ rs_toolCalls resp = Some calls
    /\ In call calls
    /\ getToolByCommand (tc_name call) = Some entry
    /\ action
       = match e_invocation entry with
         | autonomous =>
             tool_call (e_id entry) (tc_id call) (tc_arguments call)
         | confirm =>
             confirmation_required (e_id entry) (tc_id call)
               (tc_arguments call)
               (e_name entry ++ lit ": " ++ e_description entry)
         end.
Proof.
  intros H E Hnt. apply runAgentLoop_run in H.
  exact (turns_tool_actions H _ _ _ _ E Hnt).
Qed.

Lemma batch_roles calls batch results :
  Batch calls batch results ->
  Forall (fun m => role m = r_tool_result) results.
Proof.
  induction 1 as [| call evs m calls tr results Hh _ IH]; constructor; auto.
  unfold handles in Hh. destruct (getToolByCommand (tc_name call)).
  - destruct Hh as (r & _ & ->). now destruct r.
  - destruct Hh as (_ & ->). reflexivity.
Qed.

Lemma turns_requests t messages totals tr final :
  Turns t messages totals tr final ->
  awaitsAnswer messages ->
  forall request outcome,
    In (Requested request outcome) tr ->
    rq_role request = role_chat
    /\ rq_tools request
       = match availableTools config with
         | [] => None
         | _ :: _ => Some (availableTools config)
         end
    /\ awaitsAnswer (rq_messages request).
Proof.
  induction 1 as [ messages totals r | t messages totals r Hge
                 | t messages totals err text r Hlt Htext
                 | t messages totals resp r Hlt Hno
                 | t messages totals resp calls batch results tr final
                     Hlt Hyes Hcalls HB HT IH ];
    intros Hm request outcome Hin.
  - destruct Hin as [Hin | []]; discriminate.
  - destruct Hin as [Hin | []]; discriminate.
  - destruct Hin as [Hin | [Hin | []]]; [| discriminate].
    injection Hin as <- _. auto.
  - destruct Hin as [Hin | [Hin | []]]; [| discriminate].
    injection Hin as <- _. auto.
  - destruct Hin as [Hin | Hin]; [injection Hin as <- _; auto |].
    apply in_app_or in Hin as [Hin | Hin].
    { pose proof (@batch_toolYields _ _ _ _ _ HB) as Hb.
      rewrite Forall_forall in Hb. apply Hb in Hin. destruct Hin. }
    apply (IH) with (outcome := outcome); [| exact Hin].
    pose proof (batch_roles HB) as Hroles.
    pose proof (@batch_length _ _ _ _ _ HB) as Hlen.
    apply requestsTools_true in Hyes as (c & cs & E).
    rewrite E in Hcalls. injection Hcalls as <-.
    destruct (exists_last (l := results)) as (earlier & last & ->).
    { intros ->. discriminate Hlen. }
    exists (messages ++ [assistantMessage resp] ++ earlier), last.
    split; [now rewrite <- !app_assoc |]. right.
    apply Forall_app in Hroles as [_ Hlast].
    now inversion Hlast.
Qed.

(** X4: every request of a run has the role chat and offers the configured
    tools -- none at all when the list is empty, the same ones at every
    turn --, and its conversation ends with the message of the user or with
    the result of a tool, never with a message of the assistant. *)
Theorem requests_offer_the_tools_and_await_an_answer history userMessage tr
    final request outcome :
  Run (runAgentLoop history userMessage) tr final ->
  In (Requested request outcome) tr ->
  rq_role request = role_chat
  /\ rq_tools request
     = match availableTools config with
       | [] => None
       | _ :: _ => Some (availableTools config)
       end
  /\ awaitsAnswer (rq_messages request).
Proof.
  intros H Hin. apply runAgentLoop_run in H.
  apply (turns_requests H) with (outcome := outcome); [| exact Hin].
  exists ([message r_system (buildSystemPrompt config) None None] ++ history),
    (message r_user userMessage None None).
  split; [unfold initialMessages; now rewrite <- app_assoc | now left].
Qed.

End Loop.

Import Samples MeteredRun.

Lemma requests_offer_the_tools_and_await_an_answer_witness :
  let request :=
    requestOf config
      (initialMessages config [] hi
       ++ [assistantMessage toolsResponse;
           message r_tool_result (lit "3 findings") None (Some (lit "call_1"));
           unknownToolMessage config (callTo "call_2" "frobnicate")]) in
  rq_role request = role_chat
  /\ rq_tools request = Some (availableTools config)
  /\ awaitsAnswer (rq_messages request).
Proof.
  apply (@requests_offer_the_tools_and_await_an_answer registry config [] hi
           (fst (runIn toolEnv)) (snd (runIn toolEnv)) _
           (Resolved (says "done"))).
  - apply (runIn_run toolEnv eq_refl).
  - right. right. left. reflexivity.
Defined.

Lemma run_ends_with_its_only_terminal_action_witness :
  isSafeInteger (maxTurns config) = true
  /\ exists body last r,
       fst (runIn toolEnv) = body ++ [Yielded last r]
       /\ isTerminal last = true
       /\ (forall a, In a (yieldedActions body) -> isTerminal a = false)
       /\ (requestCount (fst (runIn toolEnv)) <= Z.to_nat (maxTurns config))%nat
       /\ (maxTurns config <= 0 ->
           fst (runIn toolEnv)
           = [Yielded
                (error (lit "Agent loop reached maximum turns ("
                        ++ ofZ (maxTurns config)
                        ++ lit "). Stopping to prevent runaway execution."))
                r]).
Proof.
  split; [reflexivity |].
  exact (proj1 (@run_ends_with_its_only_terminal_action registry config [] hi
                  (fst (runIn toolEnv)) eq_refl)
           (snd (runIn toolEnv)) (runIn_run toolEnv eq_refl)).
Defined.

Lemma response_carries_the_reported_usage_witness :
  let tr := fst (runIn meteredEnv) in
  let usage := {| totalInputTokens := 30; totalOutputTokens := 12 |} in
  usageInRange tr = true
  /\ In (Yielded (response (lit "done") usage) None) tr
  /\ totalInputTokens usage = reportedInput tr
  /\ totalOutputTokens usage = reportedOutput tr
  /\ exists pre request resp,
       tr = pre ++ [Requested request (Resolved resp);
                    Yielded (response (lit "done") usage) None]
       /\ lit "done" = rs_content resp
       /\ requestsTools resp = false.
Proof.
  assert (Hin : In (Yielded (response (lit "done")
                               {| totalInputTokens := 30;
                                  totalOutputTokens := 12 |}) None)
                  (fst (runIn meteredEnv)))
    by (vm_compute; tauto).
  split; [reflexivity |]. split; [exact Hin |].
  exact (@response_carries_the_reported_usage registry config [] hi _ _ _ _ _
           (runIn_run meteredEnv eq_refl) eq_refl Hin).
Defined.

Lemma tool_actions_are_for_registered_calls_witness :
  exists request resp calls call entry,
    In (Requested request (Resolved resp))
      [Requested firstRequest (Resolved toolsResponse)]
    /\ rs_toolCalls resp = Some calls
    /\ In call calls
    /\ registry (tc_name call) = Some entry
    /\ tool_call dead_code (lit "call_1") []
       = match e_invocation entry with
         | autonomous =>
             tool_call (e_id entry) (tc_id call) (tc_arguments call)
         | confirm =>
             confirmation_required (e_id entry) (tc_id call)
               (tc_arguments call)
               (e_name entry ++ lit ": " ++ e_description entry)
         end.
Proof.
  apply (@tool_actions_are_for_registered_calls registry config [] hi
           (fst (runIn toolEnv)) (snd (runIn toolEnv))
           [Requested firstRequest (Resolved toolsResponse)]
           (tool_call dead_code (lit "call_1") [])
           (Some {| tr_toolCallId := lit "call_1"; tr_content := lit "3 findings";
                    tr_isError := None |})
           (tl afterToolsRequest)).
  - apply (runIn_run toolEnv eq_refl).
  - reflexivity.
  - reflexivity.
Defined.

End RunFacts.

Module ConflictFacts.
Import Conflicts.
Local Open Scope nat_scope.

(** The lines that do not open a conflict. *)
Local Abbreviation clean := (fun l : jsstring => startsWith MARKER_OURS l = false).

Lemma scanHunk_ours ls : forall rest i s,
  separatorFound s = false ->
  Forall (fun l => startsWith MARKER_SEPARATOR l = false) ls ->
  scanHunk (ls ++ rest) i s
  = scanHunk rest (i + List.length ls)
      {| oursLines := oursLines s ++ ls; theirsLines := theirsLines s;
         separatorFound := false;
         hs_endLine := hs_endLine s; hs_theirsLabel := hs_theirsLabel s |}.
Proof.
  induction ls as [| l ls IH]; intros rest i s Hs Hls.
  - simpl. rewrite app_nil_r, Nat.add_0_r. destruct s; simpl in *. now subst.
  - inversion Hls as [| ? ? Hl Hls']; subst.
    cbn [app scanHunk]. rewrite Hs, Hl. cbn [negb andb].
    rewrite IH by auto. cbn [oursLines theirsLines hs_endLine hs_theirsLabel].
    rewrite <- app_assoc. cbn [List.length app].
    now replace (S i + List.length ls) with (i + S (List.length ls)) by lia.
Qed.

Lemma scanHunk_theirs ls : forall rest i s,
  separatorFound s = true ->
  Forall (fun l => startsWith MARKER_THEIRS l = false) ls ->
  scanHunk (ls ++ rest) i s
  = scanHunk rest (i + List.length ls)
      {| oursLines := oursLines s; theirsLines := theirsLines s ++ ls;
         separatorFound := true;
         hs_endLine := hs_endLine s; hs_theirsLabel := hs_theirsLabel s |}.
Proof.
  induction ls as [| l ls IH]; intros rest i s Hs Hls.
  - simpl. rewrite app_nil_r, Nat.add_0_r. destruct s; simpl in *. now subst.
  - inversion Hls as [| ? ? Hl Hls']; subst.
    cbn [app scanHunk]. rewrite Hs, Hl. cbn [negb andb].
    rewrite IH by auto. cbn [oursLines theirsLines hs_endLine hs_theirsLabel].
    rewrite <- app_assoc. cbn [List.length app].
    now replace (S i + List.length ls) with (i + S (List.length ls)) by lia.
Qed.

(** The scan of a block: the lines up to the separator are ours, those up
    to the closing marker, or to the end of the file, are theirs. *)
Lemma scanHunk_block (oursL : list jsstring) (sepTail : jsstring)
    (theirsL : list jsstring) (closing : option (jsstring * list jsstring))
    i first :
  Forall (fun l => startsWith MARKER_SEPARATOR l = false) oursL ->
  Forall (fun l => startsWith MARKER_THEIRS l = false) theirsL ->
  scanHunk (oursL ++ (MARKER_SEPARATOR ++ sepTail) :: theirsL
            ++ match closing with
               | Some (label, after) => (MARKER_THEIRS ++ label) :: after
               | None => []
               end) i
    {| oursLines := []; theirsLines := []; separatorFound := false;
       hs_endLine := first; hs_theirsLabel := [] |}
  = {| oursLines := oursL; theirsLines := theirsL; separatorFound := true;
       hs_endLine := match closing with
                     | Some _ =>
                         i + List.length oursL + List.length theirsL + 2
                     | None => first
                     end;
       hs_theirsLabel := match closing with
                         | Some (label, _) => trim label
                         | None => []
                         end |}.
Proof.
  intros Ho Ht. rewrite scanHunk_ours by auto.
  cbn [app scanHunk separatorFound negb andb oursLines theirsLines
         hs_endLine hs_theirsLabel].
  rewrite (JsFacts.startsWith_app MARKER_SEPARATOR sepTail).
  rewrite scanHunk_theirs by auto.
  cbn [oursLines theirsLines hs_endLine hs_theirsLabel app].
  destruct closing as [[label after] |]; cbn [scanHunk].
  - cbn [separatorFound negb andb].
    rewrite (JsFacts.startsWith_app MARKER_THEIRS label).
    cbn [oursLines theirsLines].
    replace (S (i + List.length oursL) + List.length theirsL + 1)
      with (i + List.length oursL + List.length theirsL + 2) by lia.
    unfold slice. now rewrite skipn_app, skipn_all, Nat.sub_diag.
  - reflexivity.
Qed.

Lemma nth_error_middle {A : Type} (pre : list A) x rest :
  nth_error (pre ++ x :: rest) (List.length pre) = Some x.
Proof. induction pre; simpl; auto. Qed.

Lemma skipn_middle {A : Type} (pre : list A) x rest :
  skipn (List.length pre + 1) (pre ++ x :: rest) = rest.
Proof. induction pre; simpl; auto. Qed.

Lemma nth_middle_default {A : Type} (pre : list A) x rest d :
  nth (List.length pre) (pre ++ x :: rest) d = x.
Proof. induction pre; simpl; auto. Qed.

(** The loop steps over lines that do not open a conflict. *)
Lemma parseFrom_skip mid : forall pre rest fuel,
  Forall clean mid ->
  parseFrom (List.length mid + fuel) (pre ++ mid ++ rest) (List.length pre)
  = parseFrom fuel (pre ++ mid ++ rest) (List.length pre + List.length mid).
Proof.
  induction mid as [| m mid IH]; intros pre rest fuel Hmid.
  - simpl. now rewrite Nat.add_0_r.
  - inversion Hmid as [| ? ? Hm Hmid']; subst.
    cbn [List.length Nat.add parseFrom]. cbn [app].
    rewrite nth_error_middle, Hm.
    specialize (IH (pre ++ [m]) rest fuel Hmid').
    rewrite <- !app_assoc, length_app in IH. cbn [app List.length] in IH.
    replace (List.length pre + 1) with (S (List.length pre)) in IH by lia.
    rewrite IH. f_equal. lia.
Qed.

Lemma parseFrom_clean rest : forall pre fuel,
  Forall clean rest ->
  parseFrom fuel (pre ++ rest) (List.length pre) = [].
Proof.
  induction rest as [| l rest IH]; intros pre fuel H;
    (destruct fuel as [| fuel]; [reflexivity |]); cbn [parseFrom].
  - replace (nth_error (pre ++ []) (List.length pre)) with (@None jsstring);
      [reflexivity |].
    symmetry. apply nth_error_None. rewrite length_app. simpl. lia.
  - inversion H as [| ? ? Hl Hrest]; subst.
    rewrite nth_error_middle, Hl.
    specialize (IH (pre ++ [l]) fuel Hrest).
    rewrite <- app_assoc, length_app in IH. cbn [app List.length] in IH.
    replace (List.length pre + 1) with (S (List.length pre)) in IH by lia.
    exact IH.
Qed.

(** The parse of a file that holds one block, complete or cut short by the
    end of the file. *)
Lemma parse_block (before : list jsstring) (label1 : jsstring)
    (oursL : list jsstring) (sepTail : jsstring) (theirsL : list jsstring)
    (closing : option (jsstring * list jsstring)) :
  Forall clean before ->
  Forall (fun l => startsWith MARKER_SEPARATOR l = false) oursL ->
  Forall (fun l => startsWith MARKER_THEIRS l = false) theirsL ->
  match closing with
  | Some (_, after) => Forall clean after
  | None => Forall clean oursL /\ Forall clean theirsL
  end ->
  let lines :=
    before ++ [MARKER_OURS ++ label1] ++ oursL
    ++ [MARKER_SEPARATOR ++ sepTail] ++ theirsL
    ++ match closing with
       | Some (label, after) => (MARKER_THEIRS ++ label) :: after
       | None => []
       end in
  parseFrom (List.length lines) lines 0
  = [ {| startLine := List.length before + 1;
         endLine := match closing with
                    | Some _ =>
                        List.length before + List.length oursL
                        + List.length theirsL + 3
                    | None => List.length before + 1
                    end;
         ours := join [LF] oursL;
         theirs := join [LF] theirsL;
         oursLabel := trim label1;
         theirsLabel := match closing with
                        | Some (label, _) => trim label
                        | None => []
                        end |} ].
Proof.
  intros Hb Ho Ht Hc lines.
  set (block := [MARKER_OURS ++ label1] ++ oursL
                ++ [MARKER_SEPARATOR ++ sepTail] ++ theirsL
                ++ match closing with
                   | Some (label, after) => (MARKER_THEIRS ++ label) :: after
                   | None => []
                   end).
  assert (El : lines = [] ++ before ++ block) by reflexivity.
  assert (Hlen : List.length lines
                 = List.length before + S (List.length (tl block))).
  { rewrite El. cbn [app]. rewrite length_app. reflexivity. }
  rewrite Hlen, El.
  rewrite (@parseFrom_skip before [] block _ Hb).
  cbn [app List.length Nat.add parseFrom]. unfold block at 1. cbn [app].
  rewrite nth_error_middle, (JsFacts.startsWith_app MARKER_OURS label1).
  unfold parseOneHunk. cbn zeta. subst block. cbn [app tl].
  rewrite !skipn_middle, nth_middle_default.
  pose proof (@scanHunk_block oursL sepTail theirsL closing
                (List.length before + 1) (List.length before + 1) Ho Ht) as Hs.
  rewrite Hs.
  cbn [separatorFound negb oursLines theirsLines hs_endLine hs_theirsLabel
         endLine].
  unfold slice. rewrite skipn_app, skipn_all, Nat.sub_diag. cbn [skipn app].
  destruct closing as [[label after] |].
  - f_equal; [f_equal; lia |].
    replace (List.length before + 1 + List.length oursL + List.length theirsL + 2)
      with (List.length (before ++ (MARKER_OURS ++ label1) :: oursL
                         ++ (MARKER_SEPARATOR ++ sepTail) :: theirsL
                         ++ [MARKER_THEIRS ++ label])).
    2:{ rewrite length_app. cbn [List.length]. rewrite length_app.
        cbn [List.length]. rewrite length_app. cbn [List.length]. lia. }
    match goal with
    | |- parseFrom _ ?L _ = _ =>
        replace L
          with ((before ++ (MARKER_OURS ++ label1) :: oursL
                 ++ (MARKER_SEPARATOR ++ sepTail) :: theirsL
                 ++ [MARKER_THEIRS ++ label]) ++ after)
    end.
    2:{ repeat (rewrite <- app_assoc; cbn [app]). reflexivity. }
    now apply parseFrom_clean.
  - destruct Hc as [Hco Hct]. f_equal.
    replace (List.length before + 1)
      with (List.length (before ++ [MARKER_OURS ++ label1]))
      by (rewrite length_app; reflexivity).
    match goal with
    | |- parseFrom _ ?L _ = _ =>
        replace L
          with ((before ++ [MARKER_OURS ++ label1])
                ++ (oursL ++ (MARKER_SEPARATOR ++ sepTail) :: theirsL))
    end.
    2:{ rewrite app_nil_r.
        repeat (rewrite <- app_assoc; cbn [app]). reflexivity. }
    apply parseFrom_clean. apply Forall_app. split; [assumption |].
    constructor; [reflexivity | assumption].
Qed.


(** X5: a file whose lines are clean lines, then one conflict in the format
    of git -- an opening marker with a label, our lines, a separator, their
    lines, a closing marker with a label -- then clean lines again, parses
    into exactly one hunk: it starts at the opening marker and ends at the
    closing one (numbered from 1), its sides are the lines in between joined
    by newlines, its labels are the trimmed texts after the markers.  Our
    lines may be anything but a separator, their lines anything but a
    closing marker. *)
Theorem complete_conflict_parses_into_one_hunk content before label1 oursL
    sepTail theirsL label2 after :
  split LF content
  = before ++ [MARKER_OURS ++ label1] ++ oursL
    ++ [MARKER_SEPARATOR ++ sepTail] ++ theirsL
    ++ [MARKER_THEIRS ++ label2] ++ after ->
  Forall (fun l => startsWith MARKER_OURS l = false) before ->
  Forall (fun l => startsWith MARKER_SEPARATOR l = false) oursL ->
  Forall (fun l => startsWith MARKER_THEIRS l = false) theirsL ->
  Forall (fun l => startsWith MARKER_OURS l = false) after ->
  parseConflictMarkers content
  = [ {| startLine := List.length before + 1;
         endLine := List.length before + List.length oursL
                    + List.length theirsL + 3;
         ours := join [LF] oursL;
         theirs := join [LF] theirsL;
         oursLabel := trim label1;
         theirsLabel := trim label2 |} ].
Proof.
  intros E Hb Ho Ht Ha. unfold parseConflictMarkers. cbn zeta. rewrite E.
  exact (@parse_block before label1 oursL sepTail theirsL
           (Some (label2, after)) Hb Ho Ht Ha).
Qed.

(** X6: a conflict with a separator whose closing marker is missing is still
    reported: everything up to the end of the file is their side, the label
    of their side is empty, and the end line is the start line. *)
Theorem unterminated_conflict_runs_to_the_end_of_the_file content before label1
    oursL sepTail theirsL :
  split LF content
  = before ++ [MARKER_OURS ++ label1] ++ oursL
    ++ [MARKER_SEPARATOR ++ sepTail] ++ theirsL ->
  Forall (fun l => startsWith MARKER_OURS l = false) before ->
  Forall (fun l => startsWith MARKER_SEPARATOR l = false
                   /\ startsWith MARKER_OURS l = false) oursL ->
  Forall (fun l => startsWith MARKER_THEIRS l = false
                   /\ startsWith MARKER_OURS l = false) theirsL ->
  parseConflictMarkers content
  = [ {| startLine := List.length before + 1;
         endLine := List.length before + 1;
         ours := join [LF] oursL;
         theirs := join [LF] theirsL;
         oursLabel := trim label1;
         theirsLabel := [] |} ].
Proof.
  intros E Hb Ho Ht. unfold parseConflictMarkers. cbn zeta. rewrite E.
  rewrite Forall_forall in Ho, Ht.
  pose proof (@parse_block before label1 oursL sepTail theirsL None Hb) as H.
  cbn zeta in H. rewrite app_nil_r in H. apply H.
  - apply Forall_forall. intros l Hl. now apply Ho.
  - apply Forall_forall. intros l Hl. now apply Ht.
  - split; apply Forall_forall; intros l Hl; [now apply Ho | now apply Ht].
Qed.

Lemma scanHunk_endLine_le rest : forall i s n,
  i + List.length rest = n -> hs_endLine s <= n ->
  hs_endLine (scanHunk rest i s) <= n.
Proof.
  induction rest as [| l rest IH]; intros i s n Hi Hs; [exact Hs |].
  cbn [scanHunk]. cbn [List.length] in Hi.
  destruct (negb (separatorFound s) && startsWith MARKER_SEPARATOR l);
    [apply IH; simpl; lia |].
  destruct (separatorFound s && startsWith MARKER_THEIRS l); [simpl; lia |].
  destruct (separatorFound s); apply IH; simpl; lia.
Qed.

(** The end line moves only when the scan stops at a closing marker, whose
    text gives the label. *)
Lemma scanHunk_closing (lines rest : list jsstring) : forall i s first label,
  skipn i lines = rest ->
  hs_endLine s = first -> hs_theirsLabel s = label -> first <= i ->
  let s' := scanHunk rest i s in
  (hs_endLine s' = first /\ hs_theirsLabel s' = label)
  \/ (first < hs_endLine s'
      /\ startsWith MARKER_THEIRS (nth (hs_endLine s' - 1) lines []) = true
      /\ hs_theirsLabel s'
         = trim (slice (List.length MARKER_THEIRS)
                   (nth (hs_endLine s' - 1) lines []))).
Proof.
  induction rest as [| l rest IH]; intros i s first label Hsk Hs Hlab Hi;
    [left; split; assumption |].
  assert (Hl : nth i lines [] = l).
  { rewrite <- (firstn_skipn i lines) at 1. rewrite Hsk.
    assert (Hlen : List.length (firstn i lines) = i).
    { apply firstn_length_le. destruct (Nat.le_gt_cases i (List.length lines));
        [assumption |]. rewrite skipn_all2 in Hsk by lia. discriminate. }
    rewrite <- Hlen at 1. apply nth_middle_default. }
  assert (Hsk' : skipn (S i) lines = rest).
  { replace (S i) with (1 + i) by lia. rewrite <- skipn_skipn, Hsk.
    reflexivity. }
  cbn zeta. cbn [scanHunk].
  destruct (negb (separatorFound s) && startsWith MARKER_SEPARATOR l);
    [apply IH; simpl; auto |].
  destruct (separatorFound s && startsWith MARKER_THEIRS l) eqn:Ec.
  - right. cbn [hs_endLine hs_theirsLabel].
    replace (i + 1 - 1) with i by lia. rewrite Hl.
    apply andb_true_iff in Ec as [_ Ec]. repeat split; auto. lia.
  - destruct (separatorFound s); apply IH; simpl; auto.
Qed.

(** What holds of one hunk of a file of [lines]. *)
Local Abbreviation inFile lines :=
  (fun h : ConflictHunk =>
     1 <= startLine h /\ startLine h <= endLine h
     /\ endLine h <= List.length lines
     /\ startsWith MARKER_OURS (nth (startLine h - 1) lines []) = true
     /\ oursLabel h
        = trim (slice (List.length MARKER_OURS) (nth (startLine h - 1) lines []))
     /\ (endLine h = startLine h /\ theirsLabel h = []
         \/ startLine h < endLine h
            /\ startsWith MARKER_THEIRS (nth (endLine h - 1) lines []) = true
            /\ theirsLabel h
               = trim (slice (List.length MARKER_THEIRS)
                         (nth (endLine h - 1) lines [])))).

Lemma parseOneHunk_inFile (lines : list jsstring) i l hunk :
  nth_error lines i = Some l ->
  startsWith MARKER_OURS l = true ->
  parseOneHunk lines i = Some hunk ->
  startLine hunk = i + 1 /\ inFile lines hunk.
Proof.
  intros Hn Hl. unfold parseOneHunk. cbn zeta.
  assert (Hi : i < List.length lines) by (apply nth_error_Some; congruence).
  pose proof (@scanHunk_endLine_le (skipn (i + 1) lines) (i + 1)
                {| oursLines := []; theirsLines := []; separatorFound := false;
                   hs_endLine := i + 1; hs_theirsLabel := [] |}
                (List.length lines)) as Hle.
  pose proof (@ParserFacts.scanHunk_endLine (skipn (i + 1) lines) (i + 1)
                {| oursLines := []; theirsLines := []; separatorFound := false;
                   hs_endLine := i + 1; hs_theirsLabel := [] |} i) as Hge.
  pose proof (@scanHunk_closing lines (skipn (i + 1) lines) (i + 1)
                {| oursLines := []; theirsLines := []; separatorFound := false;
                   hs_endLine := i + 1; hs_theirsLabel := [] |} (i + 1) []
                eq_refl eq_refl eq_refl (Nat.le_refl _)) as Hcl.
  cbn zeta in Hcl.
  destruct (negb _); [discriminate |]. intros H. injection H as <-.
  cbn [startLine endLine oursLabel theirsLabel].
  replace (i + 1 - 1) with i by lia.
  rewrite (nth_error_nth lines i [] Hn).
  split; [reflexivity |].
  split; [lia |].
  split; [specialize (Hge ltac:(lia) ltac:(simpl; lia)); lia |].
  split; [apply Hle; [rewrite length_skipn; lia | simpl; lia] |].
  split; [assumption |]. split; [reflexivity |].
  destruct Hcl as [Hcl | Hcl]; [left; exact Hcl | right; exact Hcl].
Qed.

Lemma parseFrom_invariant (lines : list jsstring) : forall fuel i,
  Forall (inFile lines) (parseFrom fuel lines i)
  /\ Forall (fun h => i < startLine h) (parseFrom fuel lines i)
  /\ StronglySorted (fun h1 h2 => endLine h1 < startLine h2)
       (parseFrom fuel lines i).
Proof.
  induction fuel as [| fuel IH]; intros i; cbn [parseFrom];
    [repeat constructor |].
  destruct (nth_error lines i) as [l |] eqn:En; [| repeat constructor].
  destruct (startsWith MARKER_OURS l) eqn:El.
  2:{ destruct (IH (S i)) as (H1 & H2 & H3). repeat split; auto.
      eapply Forall_impl; [| exact H2]. simpl. intros h Hh. lia. }
  destruct (parseOneHunk lines i) as [hunk |] eqn:Eh.
  2:{ destruct (IH (S i)) as (H1 & H2 & H3). repeat split; auto.
      eapply Forall_impl; [| exact H2]. simpl. intros h Hh. lia. }
  destruct (@parseOneHunk_inFile lines i l hunk En El Eh) as (Es & Hin).
  destruct (IH (endLine hunk)) as (H1 & H2 & H3).
  split; [| split].
  - constructor; assumption.
  - constructor; [lia |].
    eapply Forall_impl; [| exact H2]. simpl. intros h Hh.
    destruct Hin as (_ & Hin & _). lia.
  - constructor; assumption.
Qed.

(** X7: whatever the content, the hunks come out in the order of the file
    and never overlap: each starts, on a line that opens with the opening
    marker, after the end of the one before; start and end lines lie within
    the file; a hunk either ends on a line that opens with the closing
    marker, whose text is its label, or has no closing marker at all, and
    then its end line is its start line and its label is empty. *)
Theorem hunks_are_ordered_and_within_the_file content :
  let lines := split LF content in
  let hunks := parseConflictMarkers content in
  StronglySorted (fun h1 h2 => endLine h1 < startLine h2) hunks
  /\ Forall
       (fun h =>
          1 <= startLine h /\ startLine h <= endLine h
          /\ endLine h <= List.length lines
          /\ startsWith MARKER_OURS (nth (startLine h - 1) lines []) = true
          /\ oursLabel h
             = trim (slice (List.length MARKER_OURS)
                       (nth (startLine h - 1) lines []))
          /\ (endLine h = startLine h /\ theirsLabel h = []
              \/ startLine h < endLine h
                 /\ startsWith MARKER_THEIRS (nth (endLine h - 1) lines [])
                    = true
                 /\ theirsLabel h
                    = trim (slice (List.length MARKER_THEIRS)
                              (nth (endLine h - 1) lines []))))
       hunks.
Proof.
  intros lines hunks.
  destruct (parseFrom_invariant lines (List.length lines) 0) as (H1 & _ & H3).
  split; assumption.
Qed.

(** X8: a file in which no line opens with the opening marker, or no line
    opens with the separator, has no hunk. *)
Theorem no_hunk_without_opening_marker_or_separator content :
  Forall (fun l => startsWith MARKER_OURS l = false) (split LF content)
  \/ Forall (fun l => startsWith MARKER_SEPARATOR l = false) (split LF content) ->
  parseConflictMarkers content = [].
Proof.
  intros [H | H].
  - unfold parseConflictMarkers. cbn zeta.
    exact (@parseFrom_clean (split LF content) [] _ H).
  - apply ParserFacts.parseConflictMarkers_no_separator.
    now apply Forall_forall.
Qed.

(** *** What a hunk holds *)

Lemma split_at_first (p : jsstring -> bool) (l : list jsstring) :
  exists a rest,
    l = a ++ rest
    /\ Forall (fun x => p x = false) a
    /\ match rest with
       | [] => True
       | x :: _ => p x = true
       end.
Proof.
  induction l as [| x l IH]; [exists [], []; auto |].
  destruct (p x) eqn:E.
  - exists [], (x :: l). auto.
  - destruct IH as (a & rest & -> & Ha & Hrest).
    exists (x :: a), rest. auto.
Qed.

Lemma parseFrom_origin (lines : list jsstring) hunk : forall fuel i,
  In hunk (parseFrom fuel lines i) ->
  exists j l,
    nth_error lines j = Some l
    /\ startsWith MARKER_OURS l = true
    /\ parseOneHunk lines j = Some hunk.
Proof.
  induction fuel as [| fuel IH]; intros i H; cbn [parseFrom] in H;
    [destruct H |].
  destruct (nth_error lines i) as [l |] eqn:En; [| destruct H].
  destruct (startsWith MARKER_OURS l) eqn:El; [| eauto].
  destruct (parseOneHunk lines i) as [h |] eqn:Eh; [| eauto].
  destruct H as [<- | H]; eauto.
Qed.

(** A hunk found at a line is made of the lines between the markers. *)
Lemma parseOneHunk_content (lines : list jsstring) i l hunk :
  nth_error lines i = Some l ->
  startsWith MARKER_OURS l = true ->
  parseOneHunk lines i = Some hunk ->
  exists (label1 : jsstring) (oursL : list jsstring) (sepTail : jsstring)
         (theirsL : list jsstring) (closing : option (jsstring * list jsstring)),
    lines
    = firstn i lines ++ [MARKER_OURS ++ label1] ++ oursL
      ++ [MARKER_SEPARATOR ++ sepTail] ++ theirsL
      ++ match closing with
         | Some (label2, after) => (MARKER_THEIRS ++ label2) :: after
         | None => []
         end
    /\ Forall (fun x => startsWith MARKER_SEPARATOR x = false) oursL
    /\ Forall (fun x => startsWith MARKER_THEIRS x = false) theirsL
    /\ hunk
       = {| startLine := i + 1;
            endLine := match closing with
                       | Some _ =>
                           i + List.length oursL + List.length theirsL + 3
                       | None => i + 1
                       end;
            ours := join [LF] oursL;
            theirs := join [LF] theirsL;
            oursLabel := trim label1;
            theirsLabel := match closing with
                           | Some (label2, _) => trim label2
                           | None => []
                           end |}.
Proof.
  intros Hn Hl Hh.
  apply JsFacts.startsWith_prefix in Hl as (label1 & ->).
  assert (Hlines : lines
                   = firstn i lines ++ (MARKER_OURS ++ label1)
                     :: skipn (i + 1) lines).
  { rewrite <- (firstn_skipn i lines) at 1. f_equal.
    replace (i + 1) with (1 + i) by lia. rewrite <- skipn_skipn.
    clear Hh. revert lines Hn. induction i as [| i IH]; intros [| x lines] Hn;
      try discriminate.
    - injection Hn as ->. reflexivity.
    - cbn [skipn]. apply IH. exact Hn. }
  destruct (split_at_first (startsWith MARKER_SEPARATOR) (skipn (i + 1) lines))
    as (oursL & r1 & E1 & Ho & Hr1).
  destruct r1 as [| sepLine r2].
  { rewrite app_nil_r in E1. rewrite ParserFacts.parseOneHunk_no_separator in Hh;
      [discriminate |].
    rewrite E1. intros x Hx. rewrite Forall_forall in Ho. now apply Ho. }
  apply JsFacts.startsWith_prefix in Hr1 as (sepTail & ->).
  destruct (split_at_first (startsWith MARKER_THEIRS) r2)
    as (theirsL & r3 & -> & Ht & Hr3).
  assert (Er3 : exists closing : option (jsstring * list jsstring),
            r3 = match closing with
                 | Some (label2, after) => (MARKER_THEIRS ++ label2) :: after
                 | None => []
                 end).
  { destruct r3 as [| x after]; [now exists None |].
    apply JsFacts.startsWith_prefix in Hr3 as (label2 & ->).
    now exists (Some (label2, after)). }
  destruct Er3 as (closing & ->). clear Hr3.
  exists label1, oursL, sepTail, theirsL, closing.
  split; [| split; [exact Ho | split; [exact Ht |]]].
  - rewrite Hlines at 1. rewrite E1. reflexivity.
  - unfold parseOneHunk in Hh. cbn zeta in Hh. rewrite E1 in Hh.
    remember (scanHunk _ _ _) as s eqn:Hs in Hh.
    pose proof (eq_trans Hs
                  (@scanHunk_block oursL sepTail theirsL closing (i + 1) (i + 1)
                     Ho Ht)) as ->.
    cbn [separatorFound negb oursLines theirsLines hs_endLine hs_theirsLabel]
      in Hh.
    injection Hh as <-. f_equal.
    + destruct closing; lia.
    + now rewrite (nth_error_nth lines i [] Hn).
Qed.

(** X9: whatever the content, every hunk that is reported is made of what
    lies between its markers: the file reads as some lines, a line that
    opens with the opening marker, our lines, none of which opens with the
    separator, a line that opens with the separator, their lines, none of
    which opens with the closing marker, and then either a line that opens
    with the closing marker or the end of the file; the hunk has these lines
    as its sides, the trimmed texts after the markers as its labels, and ends
    at the closing marker, or at its own start line when there is none. *)
Theorem every_hunk_is_what_lies_between_its_markers content hunk :
  In hunk (parseConflictMarkers content) ->
  exists (before : list jsstring) (label1 : jsstring) (oursL : list jsstring)
         (sepTail : jsstring) (theirsL : list jsstring)
         (closing : option (jsstring * list jsstring)),
    split LF content
    = before ++ [MARKER_OURS ++ label1] ++ oursL
      ++ [MARKER_SEPARATOR ++ sepTail] ++ theirsL
      ++ match closing with
         | Some (label2, after) => (MARKER_THEIRS ++ label2) :: after
         | None => []
         end
    /\ Forall (fun x => startsWith MARKER_SEPARATOR x = false) oursL
    /\ Forall (fun x => startsWith MARKER_THEIRS x = false) theirsL
    /\ hunk
       = {| startLine := List.length before + 1;
            endLine := match closing with
                       | Some _ =>
                           List.length before + List.length oursL
                           + List.length theirsL + 3
                       | None => List.length before + 1
                       end;
            ours := join [LF] oursL;
            theirs := join [LF] theirsL;
            oursLabel := trim label1;
            theirsLabel := match closing with
                           | Some (label2, _) => trim label2
                           | None => []
                           end |}.
Proof.
  unfold parseConflictMarkers. cbn zeta. intros H.
  apply parseFrom_origin in H as (j & l & Hn & Hl & Hh).
  destruct (parseOneHunk_content _ _ Hn Hl Hh)
    as (label1 & oursL & sepTail & theirsL & closing & E & Ho & Ht & ->).
  assert (Hj : List.length (firstn j (split LF content)) = j).
  { apply firstn_length_le.
    assert (j < List.length (split LF content))
      by (apply nth_error_Some; congruence). lia. }
  exists (firstn j (split LF content)), label1, oursL, sepTail, theirsL, closing.
  rewrite Hj. auto.
Qed.

Import ConflictSamples.

Lemma complete_conflict_parses_into_one_hunk_witness :
  parseConflictMarkers oneConflict
  = [ {| startLine := 2; endLine := 7;
         ours := lit "const x = 1;";
         theirs := join [LF] [lit "const x = 2;"; lit "const y = 3;"];
         oursLabel := lit "HEAD";
         theirsLabel := lit "feature" |} ].
Proof.
  apply (@complete_conflict_parses_into_one_hunk oneConflict
           [lit "import a"] (lit " HEAD") [lit "const x = 1;"] []
           [lit "const x = 2;"; lit "const y = 3;"] (lit " feature")
           [lit "done"]).
  - reflexivity.
  - repeat constructor.
  - repeat constructor.
  - repeat constructor.
  - repeat constructor.
Defined.

Lemma unterminated_conflict_runs_to_the_end_of_the_file_witness :
  parseConflictMarkers unterminatedConflict
  = [ {| startLine := 2; endLine := 2;
         ours := lit "const x = 1;";
         theirs := lit "const x = 2;";
         oursLabel := lit "HEAD";
         theirsLabel := [] |} ].
Proof.
  apply (@unterminated_conflict_runs_to_the_end_of_the_file unterminatedConflict
           [lit "import a"] (lit " HEAD") [lit "const x = 1;"] []
           [lit "const x = 2;"]).
  - reflexivity.
  - repeat constructor.
  - repeat constructor.
  - repeat constructor.
Defined.

Lemma no_hunk_without_opening_marker_or_separator_witness :
  parseConflictMarkers Samples.orphanBlock = [].
Proof.
  apply no_hunk_without_opening_marker_or_separator. right.
  vm_compute. repeat constructor.
Defined.

(** The hunk of the sample in which a block without separator comes
    before a complete one: it holds the markers in between as our lines. *)
Lemma every_hunk_is_what_lies_between_its_markers_witness :
  let hunk :=
    {| startLine := 1; endLine := 8;
       ours := join [LF] [lit "x"; lit ">>>>>>> B"; lit "<<<<<<< C"; lit "o"];
       theirs := lit "t";
       oursLabel := lit "A"; theirsLabel := lit "D" |} in
  In hunk (parseConflictMarkers Samples.orphanThenBlock)
  /\ exists (before : list jsstring) (label1 : jsstring)
            (oursL : list jsstring) (sepTail : jsstring)
            (theirsL : list jsstring)
            (closing : option (jsstring * list jsstring)),
       split LF Samples.orphanThenBlock
       = before ++ [MARKER_OURS ++ label1] ++ oursL
         ++ [MARKER_SEPARATOR ++ sepTail] ++ theirsL
         ++ match closing with
            | Some (label2, after) => (MARKER_THEIRS ++ label2) :: after
            | None => []
            end
       /\ Forall (fun x => startsWith MARKER_SEPARATOR x = false) oursL
       /\ Forall (fun x => startsWith MARKER_THEIRS x = false) theirsL
       /\ hunk
          = {| startLine := List.length before + 1;
               endLine := match closing with
                          | Some _ =>
                              List.length before + List.length oursL
                              + List.length theirsL + 3
                          | None => List.length before + 1
                          end;
               ours := join [LF] oursL;
               theirs := join [LF] theirsL;
               oursLabel := trim label1;
               theirsLabel := match closing with
                              | Some (label2, _) => trim label2
                              | None => []
                              end |}.
Proof.
  cbn zeta.
  assert (Hin : In {| startLine := 1; endLine := 8;
                      ours := join [LF] [lit "x"; lit ">>>>>>> B";
                                         lit "<<<<<<< C"; lit "o"];
                      theirs := lit "t";
                      oursLabel := lit "A"; theirsLabel := lit "D" |}
                  (parseConflictMarkers Samples.orphanThenBlock))
    by (vm_compute; left; reflexivity).
  split; [exact Hin |].
  exact (every_hunk_is_what_lies_between_its_markers _ _ Hin).
Defined.

End ConflictFacts.

Module CommentBlockFacts.
Import CommentBlocks.

Lemma lastIndexOf_none c s : lastIndexOf c s = None <-> ~ In c s.
Proof.
  induction s as [| x s IH]; simpl; [tauto |].
  destruct (lastIndexOf c s) as [i |].
  - split; [discriminate |]. intros H. exfalso. apply H. right.
    destruct (in_dec N.eq_dec c s) as [Hin | Hin]; [assumption |].
    apply IH in Hin. discriminate.
  - destruct (N.eqb_spec x c) as [-> | Hne].
    + split; [discriminate | intros H; exfalso; apply H; now left].
    + split; [| reflexivity]. intros _ [E | Hin]; [contradiction |].
      now apply IH.
Qed.

Lemma lastIndexOf_some [c s i] :
  lastIndexOf c s = Some i ->
  exists stem ext, s = stem ++ c :: ext /\ List.length stem = i /\ ~ In c ext.
Proof.
  revert i. induction s as [| x s IH]; intros i; simpl; [discriminate |].
  destruct (lastIndexOf c s) as [j |] eqn:E.
  - intros H. injection H as <-.
    destruct (IH j eq_refl) as (stem & ext & -> & <- & Hext).
    exists (x :: stem), ext. auto.
  - destruct (N.eqb_spec x c) as [-> | Hne]; [| discriminate].
    intros H. injection H as <-. exists [], s. repeat split.
    now apply lastIndexOf_none.
Qed.

Lemma lastIndexOf_last c stem ext :
  ~ In c ext -> lastIndexOf c (stem ++ c :: ext) = Some (List.length stem).
Proof.
  intros Hext. induction stem as [| x stem IH]; simpl.
  - apply lastIndexOf_none in Hext. rewrite Hext. now rewrite N.eqb_refl.
  - now rewrite IH.
Qed.

(** X10: the extension of a path is what follows its last dot, the dot
    included, whatever it is made of; a path without a dot has the empty
    extension, and no other path has. *)
Theorem getExtension_is_the_text_from_the_last_dot :
  (forall stem ext, ~ In DOT ext ->
     getExtension (stem ++ DOT :: ext) = DOT :: ext)
  /\ (forall filePath, getExtension filePath = [] <-> ~ In DOT filePath)
  /\ (forall filePath, exists stem, filePath = stem ++ getExtension filePath).
Proof.
  split; [| split].
  - intros stem ext Hext. unfold getExtension.
    rewrite lastIndexOf_last by assumption. unfold slice.
    rewrite skipn_app, skipn_all, Nat.sub_diag. reflexivity.
  - intros filePath. unfold getExtension.
    destruct (lastIndexOf DOT filePath) as [i |] eqn:E.
    + destruct (lastIndexOf_some E) as (stem & ext & -> & <- & Hext).
      unfold slice. rewrite skipn_app, skipn_all, Nat.sub_diag. simpl.
      split; [discriminate |]. intros H. exfalso. apply H.
      apply in_or_app. right. now left.
    + split; [| reflexivity]. intros _. now apply lastIndexOf_none.
  - intros filePath. unfold getExtension.
    destruct (lastIndexOf DOT filePath) as [i |].
    + exists (firstn i filePath). unfold slice. now rewrite firstn_skipn.
    + exists filePath. now rewrite app_nil_r.
Qed.

(** *** [deduplicateRanges] *)

Lemma skipOverlapping_incl prev blocks :
  incl (skipOverlapping prev blocks) blocks.
Proof.
  revert prev. induction blocks as [| curr rest IH]; intros prev; simpl.
  - apply incl_refl.
  - destruct (startLine curr <=? endLine prev).
    + apply incl_tl, IH.
    + apply incl_cons; [now left | apply incl_tl, IH].
Qed.

Lemma skipOverlapping_apart prev blocks :
  apart prev (skipOverlapping prev blocks).
Proof.
  revert prev. induction blocks as [| curr rest IH]; intros prev; simpl; auto.
  destruct (Z.leb_spec (startLine curr) (endLine prev)); simpl; auto.
Qed.

Lemma skipOverlapping_fixed prev blocks :
  apart prev blocks -> skipOverlapping prev blocks = blocks.
Proof.
  revert prev. induction blocks as [| curr rest IH]; intros prev; simpl; auto.
  intros [Hlt Hrest].
  destruct (Z.leb_spec (startLine curr) (endLine prev)); [lia |].
  now rewrite IH.
Qed.

Lemma apart_consecutive [prev blocks pre a b post] :
  apart prev blocks -> prev :: blocks = pre ++ a :: b :: post ->
  endLine a < startLine b.
Proof.
  revert prev blocks. induction pre as [| x pre IH]; intros prev blocks H E.
  - simpl in E. injection E as -> ->. now destruct H.
  - simpl in E. injection E as -> ->.
    destruct pre as [| y pre]; simpl in H.
    + destruct H as [_ H]. eapply (IH a (b :: post)); [exact H | reflexivity].
    + destruct H as [_ H].
      eapply (IH y (pre ++ a :: b :: post)); [exact H | reflexivity].
Qed.

Lemma skipOverlapping_dropped prev [blocks b] :
  In b blocks ->
  In b (skipOverlapping prev blocks)
  \/ exists kept, In kept (prev :: skipOverlapping prev blocks)
                  /\ startLine b <= endLine kept.
Proof.
  revert prev. induction blocks as [| curr rest IH]; intros prev; [intros [] |].
  intros [-> | Hin]; simpl.
  - destruct (Z.leb_spec (startLine b) (endLine prev)) as [Hle | Hgt].
    + right. exists prev. split; [now left | assumption].
    + left. now left.
  - destruct (Z.leb_spec (startLine curr) (endLine prev)) as [Hle | Hgt].
    + apply IH, Hin.
    + destruct (IH curr Hin) as [Hk | (kept & Hk & Hle)].
      * left. now right.
      * right. exists kept. split; [right; exact Hk | assumption].
Qed.

(** X11: in the result of [deduplicateRanges] every block starts after the
    end of the one before it; the first block of the input is always kept,
    nothing is added, and a block is only dropped when it starts no later
    than the end of a block that is kept; a second pass changes nothing. *)
Theorem deduplicateRanges_keeps_blocks_apart blocks :
  let result := deduplicateRanges blocks in
  (forall pre a b post, result = pre ++ a :: b :: post ->
     endLine a < startLine b)
  /\ hd_error result = hd_error blocks
  /\ incl result blocks
  /\ (forall b, In b blocks ->
        In b result
        \/ exists kept, In kept result /\ startLine b <= endLine kept)
  /\ deduplicateRanges result = result.
Proof.
  destruct blocks as [| first rest]; cbn zeta.
  - split; [| split; [| split; [| split]]].
    + intros [| ? ?] ? ? ? E; discriminate.
    + reflexivity.
    + apply incl_refl.
    + intros b [].
    + reflexivity.
  - cbn [deduplicateRanges].
    pose proof (skipOverlapping_apart first rest) as Hap.
    split; [| split; [| split; [| split]]].
    + intros pre a b post E. exact (apart_consecutive Hap E).
    + reflexivity.
    + apply incl_cons; [now left |]. apply incl_tl, skipOverlapping_incl.
    + intros b [<- | Hin]; [left; now left |].
      destruct (skipOverlapping_dropped first Hin) as [Hk | Hk]; auto.
      left. now right.
    + now rewrite skipOverlapping_fixed.
Qed.

(** X12: when no block ends before it starts, the blocks of the result are
    pairwise disjoint and in ascending order. *)
Theorem deduplicateRanges_result_is_disjoint blocks :
  Forall (fun b => startLine b <= endLine b) blocks ->
  StronglySorted (fun a b => endLine a < startLine b) (deduplicateRanges blocks).
Proof.
  intros Hwf.
  assert (Hres : Forall (fun b => startLine b <= endLine b)
                   (deduplicateRanges blocks)).
  { apply Forall_forall. intros b Hb. rewrite Forall_forall in Hwf.
    apply Hwf. destruct blocks as [| first rest]; [destruct Hb |].
    destruct Hb as [<- | Hb]; [now left | right].
    exact (@skipOverlapping_incl first rest b Hb). }
  assert (Hap : match deduplicateRanges blocks with
                | [] => True
                | first :: rest => apart first rest
                end).
  { destruct blocks as [| first rest]; simpl; auto.
    apply skipOverlapping_apart. }
  destruct (deduplicateRanges blocks) as [| first rest]; [constructor |].
  clear Hwf. revert first Hres Hap.
  induction rest as [| b rest IH]; intros first Hres Hap.
  - repeat constructor.
  - destruct Hap as [Hlt Hap].
    inversion Hres as [| ? ? Hf Hres']; subst.
    specialize (IH b Hres' Hap).
    constructor; [assumption |].
    constructor; [assumption |].
    inversion IH as [| ? ? _ Hall]; subst.
    inversion Hres' as [| ? ? Hb _]; subst.
    eapply Forall_impl; [| exact Hall]. simpl. intros c Hc. lia.
Qed.

(** *** [getCommentAge] *)

(** X13: the age of a comment is the age of the first blame range that
    covers its start line -- from the start line of the range to
    [startLine + lineCount - 1], both included --, and there is no age
    exactly when no range covers it. *)
Theorem getCommentAge_is_the_age_of_the_first_covering_range (Days : Type)
    comment (blameRanges : list (BlameRange Days)) :
  let covered (range : BlameRange Days) :=
    br_startLine range <= startLine comment
    <= br_startLine range + br_lineCount range - 1 in
  match getCommentAge comment blameRanges with
  | Some age =>
      exists pre range post,
        blameRanges = pre ++ range :: post
        /\ Forall (fun r => ~ covered r) pre
        /\ covered range
        /\ age = br_ageDays range
  | None => Forall (fun r => ~ covered r) blameRanges
  end.
Proof.
  cbn zeta. induction blameRanges as [| range rest IH]; simpl; [constructor |].
  unfold covers. cbn zeta.
  destruct (Z.leb_spec (br_startLine range) (startLine comment)) as [H1 | H1];
    [destruct (Z.leb_spec (startLine comment)
                 (br_startLine range + br_lineCount range - 1)) as [H2 | H2] |];
    cbn [andb].
  - exists [], range, rest. repeat split; auto.
  - destruct (getCommentAge comment rest) as [age |].
    + destruct IH as (pre & r & post & -> & Hpre & Hr & ->).
      exists (range :: pre), r, post. repeat split; try tauto.
      constructor; [lia | assumption].
    + constructor; [lia | assumption].
  - destruct (getCommentAge comment rest) as [age |].
    + destruct IH as (pre & r & post & -> & Hpre & Hr & ->).
      exists (range :: pre), r, post. repeat split; try tauto.
      constructor; [lia | assumption].
    + constructor; [lia | assumption].
Qed.

Import CommentSamples.

Lemma deduplicateRanges_result_is_disjoint_witness :
  StronglySorted (fun a b => endLine a < startLine b) (deduplicateRanges blocks).
Proof.
  apply deduplicateRanges_result_is_disjoint.
  repeat constructor; vm_compute; discriminate.
Defined.

End CommentBlockFacts.

Module SplitFacts.

Lemma split_not_nil c s : split c s <> [].
Proof.
  destruct s as [| x s]; simpl; [discriminate |].
  destruct (N.eqb x c); [discriminate |].
  destruct (split c s); discriminate.
Qed.

(** Splitting and joining with the same separator gives the string back. *)
Lemma join_split c s : join [c] (split c s) = s.
Proof.
  induction s as [| x s IH]; [reflexivity |]. simpl.
  pose proof (split_not_nil c s) as Hne.
  destruct (N.eqb_spec x c) as [-> | Hx];
    destruct (split c s) as [| p ps]; try contradiction.
  - change (join [c] ([] :: p :: ps)) with ([] ++ [c] ++ join [c] (p :: ps)).
    now rewrite IH.
  - destruct ps as [| q ps].
    + simpl in *. now rewrite IH.
    + change (join [c] ((x :: p) :: q :: ps))
        with (x :: (p ++ [c] ++ join [c] (q :: ps))).
      change (join [c] (p :: q :: ps)) with (p ++ [c] ++ join [c] (q :: ps)) in IH.
      now rewrite IH.
Qed.

(** The first piece ends at the first separator. *)
Lemma split_app c (a b : jsstring) :
  ~ In c a -> split c (a ++ c :: b) = a :: split c b.
Proof.
  intros Ha. induction a as [| x a IH]; simpl.
  - now rewrite N.eqb_refl.
  - destruct (N.eqb_spec x c) as [-> | Hx]; [exfalso; apply Ha; now left |].
    rewrite IH; [reflexivity |]. intros H. apply Ha. now right.
Qed.

Lemma split_none c (a : jsstring) : ~ In c a -> split c a = [a].
Proof.
  intros Ha. induction a as [| x a IH]; simpl; [reflexivity |].
  destruct (N.eqb_spec x c) as [-> | Hx]; [exfalso; apply Ha; now left |].
  rewrite IH; [reflexivity |]. intros H. apply Ha. now right.
Qed.

End SplitFacts.

Module ProposalFacts.
Import Comments SplitFacts.

Section Parser.

Variable toUpperCase : jsstring -> jsstring.

(** X14: whatever the model answers, every proposal of the comments tool has
    severity info, the path of the file under review and no metadata; it
    is titled either 'Remove comment' or 'Rewrite comment'; a removal never
    carries a suggested fix, and the fix of a rewrite is described as
    'Suggested rewrite' and placed at the location of the proposal. *)
Theorem comment_proposals_have_a_fixed_shape content path d :
  In d (parseModelResponse toUpperCase content path) ->
  d_severity d = sev_info
  /\ filePath (d_location d) = path
  /\ d_metadata d = None
  /\ ((d_title d = lit "Remove comment" /\ d_suggestedFix d = None)
      \/ (d_title d = lit "Rewrite comment"
          /\ forall proposed, d_suggestedFix d = Some proposed ->
               fix_description proposed = lit "Suggested rewrite"
               /\ fix_location proposed = d_location d)).
Proof.
  unfold parseModelResponse. intros H. apply in_flat_map in H as (l & _ & H).
  unfold findingOfActionLine in H.
  destruct (split PIPE l) as [| action [| startStr [| endStr [| reason parts]]]];
    try contradiction.
  destruct (negb _ && negb _); [contradiction |].
  destruct (parseInt (trim startStr)) as [first |]; [| contradiction].
  destruct (parseInt (trim endStr)) as [last |]; [| contradiction].
  destruct H as [<- | []]. cbn [d_severity d_location d_metadata d_title
                                d_suggestedFix filePath].
  split; [reflexivity |]. split; [reflexivity |]. split; [reflexivity |].
  destruct (Js.eqb (toUpperCase (trim action)) REMOVE) eqn:Er.
  - left. split; [reflexivity |].
    apply JsFacts.eqb_eq in Er. rewrite Er.
    destruct parts; reflexivity.
  - right. split; [reflexivity |]. intros proposed Hfix.
    destruct parts as [| p parts]; [discriminate |].
    destruct (Js.eqb (toUpperCase (trim action)) REWRITE); [| discriminate].
    injection Hfix as <-. split; reflexivity.
Qed.

(** X15: a line in the format the prompt asks for is accepted as it reads.
    When the action, once trimmed and put in upper case, is REMOVE or
    REWRITE, the two line fields parse as integers and the first four
    fields hold no pipe, the proposal has these lines and the trimmed
    reason; for a REWRITE with a fifth field the replacement is all the
    text after the fourth pipe, trimmed, pipes included; a REMOVE, and a
    line of four fields only, have no fix. *)
Theorem comment_line_in_format_is_accepted path action startStr endStr reason
    (replacement : option jsstring) first last :
  ~ In PIPE action -> ~ In PIPE startStr -> ~ In PIPE endStr ->
  ~ In PIPE reason ->
  toUpperCase (trim action) = REMOVE \/ toUpperCase (trim action) = REWRITE ->
  parseInt (trim startStr) = Some first ->
  parseInt (trim endStr) = Some last ->
  findingOfActionLine toUpperCase path
    (action ++ [PIPE] ++ startStr ++ [PIPE] ++ endStr ++ [PIPE] ++ reason
     ++ match replacement with
        | Some text => PIPE :: text
        | None => []
        end)
  = Some {| d_title :=
              if Js.eqb (toUpperCase (trim action)) REMOVE
              then lit "Remove comment" else lit "Rewrite comment";
            d_description := trim reason;
            d_location := loc path first last;
            d_severity := sev_info;
            d_suggestedFix :=
              match replacement with
              | Some text =>
                  if Js.eqb (toUpperCase (trim action)) REWRITE
                  then Some {| fix_description := lit "Suggested rewrite";
                               fix_replacement := trim text;
                               fix_location := loc path first last |}
                  else None
              | None => None
              end;
            d_metadata := None |}.
Proof.
  intros Ha Hs He Hr Hact Hfirst Hlast. unfold findingOfActionLine.
  cbn [app]. rewrite !split_app by assumption.
  assert (Hsplit : split PIPE (reason ++ match replacement with
                                         | Some text => PIPE :: text
                                         | None => []
                                         end)
                   = reason :: match replacement with
                               | Some text => split PIPE text
                               | None => []
                               end).
  { destruct replacement as [text |].
    - now apply split_app.
    - rewrite app_nil_r. now apply split_none. }
  rewrite Hsplit, Hfirst, Hlast.
  assert (Hkeep : negb (Js.eqb (toUpperCase (trim action)) REMOVE)
                  && negb (Js.eqb (toUpperCase (trim action)) REWRITE) = false).
  { destruct Hact as [-> | ->]; reflexivity. }
  rewrite Hkeep. f_equal. f_equal.
  destruct replacement as [text |]; [| reflexivity].
  pose proof (split_not_nil PIPE text) as Hne.
  pose proof (join_split PIPE text) as Hjoin.
  destruct (split PIPE text) as [| p ps]; [contradiction |].
  now rewrite Hjoin.
Qed.

End Parser.

Import ProposalSamples.

Lemma comment_proposals_have_a_fixed_shape_witness :
  let d := {| d_title := lit "Remove comment";
              d_description := lit "restates the code";
              d_location := loc (lit "a.ts") 3 4;
              d_severity := sev_info;
              d_suggestedFix := None;
              d_metadata := None |} in
  In d (parseModelResponse DeadCode.toUpperCaseAscii proposals (lit "a.ts"))
  /\ d_severity d = sev_info
  /\ filePath (d_location d) = lit "a.ts"
  /\ d_metadata d = None
  /\ ((d_title d = lit "Remove comment" /\ d_suggestedFix d = None)
      \/ (d_title d = lit "Rewrite comment"
          /\ forall proposed, d_suggestedFix d = Some proposed ->
               fix_description proposed = lit "Suggested rewrite"
               /\ fix_location proposed = d_location d)).
Proof.
  cbn zeta.
  assert (Hin : In {| d_title := lit "Remove comment";
                      d_description := lit "restates the code";
                      d_location := loc (lit "a.ts") 3 4;
                      d_severity := sev_info;
                      d_suggestedFix := None;
                      d_metadata := None |}
                  (parseModelResponse DeadCode.toUpperCaseAscii proposals
                     (lit "a.ts")))
    by (vm_compute; left; reflexivity).
  split; [exact Hin |].
  exact (@comment_proposals_have_a_fixed_shape DeadCode.toUpperCaseAscii
           proposals (lit "a.ts") _ Hin).
Defined.

Lemma comment_line_in_format_is_accepted_witness :
  findingOfActionLine DeadCode.toUpperCaseAscii (lit "a.ts")
    (lit "rewrite" ++ [PIPE] ++ lit "12" ++ [PIPE] ++ lit " 14" ++ [PIPE]
     ++ lit "too long" ++ PIPE :: lit "// a | b")
  = Some {| d_title := lit "Rewrite comment";
            d_description := lit "too long";
            d_location := loc (lit "a.ts") 12 14;
            d_severity := sev_info;
            d_suggestedFix :=
              Some {| fix_description := lit "Suggested rewrite";
                      fix_replacement := lit "// a | b";
                      fix_location := loc (lit "a.ts") 12 14 |};
            d_metadata := None |}.
Proof.
  apply (@comment_line_in_format_is_accepted DeadCode.toUpperCaseAscii
           (lit "a.ts") (lit "rewrite") (lit "12") (lit " 14") (lit "too long")
           (Some (lit "// a | b")) 12 14).
  - vm_compute. intuition discriminate.
  - vm_compute. intuition discriminate.
  - vm_compute. intuition discriminate.
  - vm_compute. intuition discriminate.
  - right. reflexivity.
  - reflexivity.
  - reflexivity.
Defined.

End ProposalFacts.

Module MatchFacts.
Import Regex.

(** A match at the position where the search starts is the one it finds. *)
Lemma search_here r behind ahead st :
  matchAt r behind ahead = Some st -> search r behind ahead = Some (behind, st).
Proof. intros H. destruct ahead; cbn [search]; now rewrite H. Qed.

Lemma run_bol k st :
  backtrack Bol k st = match before st with
                       | [] => k st
                       | _ :: _ => None
                       end.
Proof. reflexivity. Qed.

Lemma run_alt r1 r2 k st :
  backtrack (Alt r1 r2) k st = match backtrack r1 k st with
                               | Some res => Some res
                               | None => backtrack r2 k st
                               end.
Proof. reflexivity. Qed.

(** The state once the code units of [w] have been consumed. *)
Lemma iterate_char p k : forall w fuel st r res,
  rest st = w ++ r ->
  forallb p w = true ->
  match r with
  | [] => True
  | c :: _ => p c = false
  end ->
  (List.length w <= fuel)%nat ->
  k {| before := rev w ++ before st; rest := r; captures := captures st |}
  = Some res ->
  iterate (Char p) k fuel st = Some res.
Proof.
  induction w as [| c w IH]; intros fuel st r res Hrest Hw Hr Hfuel Hk.
  - simpl in Hrest, Hk.
    assert (Est : {| before := before st; rest := r; captures := captures st |}
                  = st) by (destruct st; simpl in *; now subst).
    rewrite Est in Hk.
    destruct fuel as [| fuel]; cbn [iterate]; [exact Hk |].
    rewrite RegexFacts.run_char, Hrest.
    destruct r as [| d r]; [exact Hk |]. now rewrite Hr.
  - destruct fuel as [| fuel]; [simpl in Hfuel; lia |].
    cbn [forallb] in Hw. apply andb_true_iff in Hw as [Hc Hw].
    cbn [iterate]. rewrite RegexFacts.run_char, Hrest. cbn [app]. rewrite Hc.
    cbn [step rest].
    assert (Hlt : Nat.ltb (List.length (w ++ r)) (List.length (c :: w ++ r)) = true)
      by (apply Nat.ltb_lt; simpl; lia).
    rewrite Hlt.
    rewrite (IH fuel (step c (w ++ r) st) r res); auto.
    + simpl in Hfuel. lia.
    + cbn [step before captures]. cbn [rev] in Hk.
      now rewrite <- app_assoc in Hk.
Qed.

(** [(p+)] takes the longest run of code units that satisfy [p], provided
    what follows the group matches from there. *)
Lemma group_plus_here i p k st w r res :
  rest st = w ++ r ->
  w <> [] ->
  forallb p w = true ->
  match r with
  | [] => True
  | c :: _ => p c = false
  end ->
  k {| before := rev w ++ before st; rest := r;
       captures := (i, w) :: captures st |} = Some res ->
  backtrack (Group i (Plus (Char p))) k st = Some res.
Proof.
  intros Hrest Hne Hw Hr Hk. destruct w as [| c w]; [contradiction |].
  rewrite RegexFacts.run_group. unfold Plus.
  rewrite RegexFacts.run_seq, RegexFacts.run_char, Hrest. cbn [app].
  cbn [forallb] in Hw. apply andb_true_iff in Hw as [Hc Hw]. rewrite Hc.
  rewrite RegexFacts.run_star. cbn [step rest].
  apply (@iterate_char p _ w _ _ r res); auto.
  - rewrite length_app. lia.
  - cbn [step before captures]. unfold capture. cbn [before rest captures].
    rewrite Hrest.
    replace (List.length ((c :: w) ++ r) - List.length r)%nat
      with (List.length (c :: w) + 0)%nat by (rewrite length_app; lia).
    rewrite firstn_app_2, firstn_O, app_nil_r.
    cbn [rev] in Hk. now rewrite <- app_assoc in Hk.
Qed.

(** Where a search finds its match. *)
Lemma search_position r : forall ahead behind start st,
  search r behind ahead = Some (start, st) ->
  exists skipped ahead',
    ahead = skipped ++ ahead' /\ start = rev skipped ++ behind
    /\ matchAt r start ahead' = Some st.
Proof.
  induction ahead as [| c ahead IH]; intros behind start st H;
    cbn [search] in H.
  - destruct (matchAt r behind []) eqn:E; [| discriminate].
    injection H as <- <-. exists [], []. auto.
  - destruct (matchAt r behind (c :: ahead)) eqn:E.
    + injection H as <- <-. exists [], (c :: ahead). auto.
    + apply IH in H as (skipped & ahead' & -> & -> & H).
      exists (c :: skipped), ahead'. cbn [rev app].
      rewrite <- app_assoc. auto.
Qed.

Lemma char_inv p k st res :
  backtrack (Char p) k st = Some res ->
  exists c r, rest st = c :: r /\ p c = true /\ k (step c r st) = Some res.
Proof.
  rewrite RegexFacts.run_char. destruct (rest st) as [| c r]; [discriminate |].
  destruct (p c) eqn:E; [| discriminate]. eauto.
Qed.

(** What [(p+)] has taken when the match goes through. *)
Lemma group_plus_inv i p k st res :
  backtrack (Group i (Plus (Char p))) k st = Some res ->
  exists w r b,
    w <> [] /\ forallb p w = true /\ rest st = w ++ r
    /\ k {| before := b; rest := r; captures := (i, w) :: captures st |}
       = Some res.
Proof.
  rewrite RegexFacts.run_group. intros H.
  apply RegexFacts.run_plus_char in H as (c & w & st' & Hw & Hr & Hc & Hk).
  exists (c :: w), (rest st'), (before st').
  split; [discriminate |]. split; [assumption |]. split; [assumption |].
  unfold capture in Hk. rewrite Hc, Hr, length_app in Hk.
  replace (List.length (c :: w) + List.length (rest st')
           - List.length (rest st'))%nat
    with (List.length (c :: w) + 0)%nat in Hk by lia.
  now rewrite firstn_app_2, firstn_O, app_nil_r in Hk.
Qed.

Lemma digit_not_space c : isDigit c = true -> isSpace c = false.
Proof.
  unfold isDigit, isSpace, isWhiteSpace, isLineTerminator. intros H.
  apply andb_true_iff in H as [H1 H2].
  apply N.leb_le in H1, H2.
  repeat match goal with
         | |- context [N.eqb c ?k] =>
             replace (N.eqb c k) with false
               by (symmetry; apply N.eqb_neq; lia)
         | |- context [N.leb ?k c] =>
             replace (N.leb k c) with false
               by (symmetry; apply N.leb_gt; lia)
         end.
  reflexivity.
Qed.

(** On a run of digits [parseInt] is the value of the numeral. *)
Lemma parseInt_digits digits :
  digits <> [] -> forallb isDigit digits = true ->
  parseInt digits = Some (digitsValue 0 digits).
Proof.
  intros Hne Hd. destruct digits as [| c rest]; [contradiction |].
  cbn [forallb] in Hd. apply andb_true_iff in Hd as [Hc _].
  unfold parseInt. cbn [trimStart]. rewrite (digit_not_space _ Hc).
  assert (E1 : N.eqb c 45 = false).
  { unfold isDigit in Hc. apply andb_true_iff in Hc as [H1 H2].
    apply N.leb_le in H1, H2. apply N.eqb_neq. lia. }
  assert (E2 : N.eqb c 43 = false).
  { unfold isDigit in Hc. apply andb_true_iff in Hc as [H1 H2].
    apply N.leb_le in H1, H2. apply N.eqb_neq. lia. }
  rewrite E1, E2. now rewrite Hc.
Qed.

End MatchFacts.

Module ReviewFacts.
Import Regex Lint MatchFacts.

(** The part of the pattern after the first group. *)
Local Abbreviation fields :=
  (seq [Char (N.eqb PIPE); Group 2 (Plus (notChar PIPE));
        Char (N.eqb PIPE); Group 3 (Plus digit);
        Char (N.eqb PIPE); Group 4 (Plus dot); Eol]).

Lemma fields_here (path digits text : jsstring) st :
  rest st = [PIPE] ++ path ++ [PIPE] ++ digits ++ [PIPE] ++ text ->
  path <> [] -> forallb (fun c => negb (N.eqb c PIPE)) path = true ->
  digits <> [] -> forallb isDigit digits = true ->
  text <> [] -> forallb (fun c => negb (isLineTerminator c)) text = true ->
  exists final,
    backtrack fields Some st = Some final
    /\ captures final
       = (4%nat, text) :: (3%nat, digits) :: (2%nat, path) :: captures st.
Proof.
  intros Hrest Hp Hpath Hd Hdigits Ht Htext. eexists.
  cbn [seq fold_right]. rewrite RegexFacts.run_seq, RegexFacts.run_char, Hrest.
  cbn [app]. rewrite N.eqb_refl. rewrite RegexFacts.run_seq.
  split.
  - unfold notChar.
    eapply (@group_plus_here 2 _ _ _ path (PIPE :: digits ++ PIPE :: text));
      [reflexivity | assumption | assumption | now rewrite N.eqb_refl |].
    rewrite RegexFacts.run_seq, RegexFacts.run_char. cbn [rest].
    rewrite N.eqb_refl. rewrite RegexFacts.run_seq. unfold digit.
    eapply (@group_plus_here 3 _ _ _ digits (PIPE :: text));
      [reflexivity | assumption | assumption | reflexivity |].
    rewrite RegexFacts.run_seq, RegexFacts.run_char. cbn [rest].
    rewrite N.eqb_refl. rewrite RegexFacts.run_seq. unfold dot.
    eapply (@group_plus_here 4 _ _ _ text []);
      [cbn [step rest]; now rewrite app_nil_r | assumption | assumption
      | exact I |].
    reflexivity.
  - reflexivity.
Qed.

(** A line in the format is accepted as it reads. *)
Lemma review_line_accepted (issue : bool)
    (path digits text : jsstring) :
  path <> [] -> forallb (fun c => negb (N.eqb c PIPE)) path = true ->
  digits <> [] -> forallb isDigit digits = true ->
  text <> [] -> forallb (fun c => negb (isLineTerminator c)) text = true ->
  findingOfReviewLine
    ((if issue then lit "ISSUE" else lit "SUGGESTION")
     ++ [PIPE] ++ path ++ [PIPE] ++ digits ++ [PIPE] ++ text)
  = Some {| d_title :=
              if issue then lit "Code smell detected"
              else lit "Best practice suggestion";
            d_description := trim text;
            d_location :=
              loc (trim path) (digitsValue 0 digits) (digitsValue 0 digits);
            d_severity := if issue then sev_warning else sev_info;
            d_suggestedFix := None;
            d_metadata := Some [(lit "source", JsStr (lit "model"))] |}.
Proof.
  intros Hp Hpath Hd Hdigits Ht Htext.
  set (type := if issue then lit "ISSUE" else lit "SUGGESTION").
  set (tail := [PIPE] ++ path ++ [PIPE] ++ digits ++ [PIPE] ++ text).
  destruct (@fields_here path digits text
              {| before := rev type; rest := tail; captures := [(1%nat, type)] |}
              eq_refl Hp Hpath Hd Hdigits Ht Htext) as (final & Hrun & Hcaps).
  assert (Hmatch : match_ reviewLine (type ++ tail) = Some (captures final)).
  { unfold match_.
    rewrite (@search_here reviewLine [] (type ++ tail) final); [reflexivity |].
    unfold matchAt, reviewLine. cbn [seq fold_right].
    rewrite RegexFacts.run_seq, run_bol. cbn [before].
    rewrite RegexFacts.run_seq, RegexFacts.run_group, run_alt.
    assert (Hgroup :
      backtrack (Lit type)
        (fun st' =>
           backtrack fields Some
             (capture 1 {| before := []; rest := type ++ tail; captures := [] |}
                st'))
        {| before := []; rest := type ++ tail; captures := [] |}
      = Some final).
    { rewrite DeadCodeFacts.run_lit. cbn [rest before captures].
      rewrite JsFacts.startsWith_app.
      rewrite skipn_app, skipn_all, Nat.sub_diag. cbn [skipn app].
      unfold capture. cbn [rest before captures].
      replace (List.length (type ++ tail) - List.length tail)%nat
        with (List.length type + 0)%nat by (rewrite length_app; lia).
      rewrite firstn_app_2, firstn_O, !app_nil_r.
      exact Hrun. }
    destruct issue; subst type.
    - cbn [seq fold_right] in Hgroup. now rewrite Hgroup.
    - rewrite DeadCodeFacts.run_lit. cbn [rest].
      change (startsWith (lit "ISSUE") (lit "SUGGESTION" ++ tail)) with false.
      cbn [seq fold_right] in Hgroup. exact Hgroup. }
  change (findingOfReviewLine
            ((if issue then lit "ISSUE" else lit "SUGGESTION") ++ tail))
    with (findingOfReviewLine (type ++ tail)).
  unfold findingOfReviewLine. rewrite Hmatch, Hcaps. cbn [group Nat.eqb captures].
  unfold lineNumber. rewrite parseInt_digits by assumption.
  destruct issue; reflexivity.
Qed.

(** A line that matches the pattern is in the format. *)
Lemma reviewLine_inv l m :
  match_ reviewLine l = Some m ->
  exists (issue : bool) (path digits text : jsstring),
    path <> [] /\ forallb (fun c => negb (N.eqb c PIPE)) path = true
    /\ digits <> [] /\ forallb isDigit digits = true
    /\ text <> [] /\ forallb (fun c => negb (isLineTerminator c)) text = true
    /\ l = (if issue then lit "ISSUE" else lit "SUGGESTION")
           ++ [PIPE] ++ path ++ [PIPE] ++ digits ++ [PIPE] ++ text.
Proof.
  unfold match_. intros H.
  destruct (search reviewLine [] l) as [[start st] |] eqn:E; [| discriminate].
  clear H. apply search_position in E as (skipped & ahead & -> & -> & H).
  unfold matchAt, reviewLine in H. cbn [seq fold_right] in H.
  rewrite RegexFacts.run_seq, run_bol in H. cbn [before] in H.
  rewrite app_nil_r in H.
  destruct (rev skipped) as [| x y] eqn:Eskip; [| discriminate].
  apply (f_equal (@rev N)) in Eskip. rewrite rev_involutive in Eskip.
  subst skipped. cbn [rev app] in *.
  rewrite RegexFacts.run_seq, RegexFacts.run_group, run_alt in H.
  assert (Htype :
    exists (issue : bool) tail st1,
      ahead = (if issue then lit "ISSUE" else lit "SUGGESTION") ++ tail
      /\ rest st1 = tail
      /\ backtrack fields Some st1 = Some st).
  { match type of H with
    | match ?x with _ => _ end = _ => destruct x as [res |] eqn:E1
    end.
    - injection H as ->. rewrite DeadCodeFacts.run_lit in E1. cbn [rest] in E1.
      destruct (startsWith (lit "ISSUE") ahead) eqn:Es; [| discriminate].
      apply JsFacts.startsWith_prefix in Es as (tail & ->).
      exists true, tail. eexists. split; [reflexivity |].
      split; [| exact E1]. cbn [capture rest].
      now rewrite skipn_app, skipn_all, Nat.sub_diag.
    - rewrite DeadCodeFacts.run_lit in H. cbn [rest] in H.
      destruct (startsWith (lit "SUGGESTION") ahead) eqn:Es; [| discriminate].
      apply JsFacts.startsWith_prefix in Es as (tail & ->).
      exists false, tail. eexists. split; [reflexivity |].
      split; [| exact H]. cbn [capture rest].
      now rewrite skipn_app, skipn_all, Nat.sub_diag. }
  clear H. destruct Htype as (issue & tail & st1 & -> & Hrest & H).
  cbn [seq fold_right] in H. rewrite RegexFacts.run_seq in H.
  apply char_inv in H as (c1 & r1 & Hr1 & Hc1 & H).
  apply N.eqb_eq in Hc1. subst c1.
  rewrite RegexFacts.run_seq in H. unfold notChar in H.
  apply group_plus_inv in H as (path & r2 & b2 & Hp & Hpath & Hr2 & H).
  cbn [step rest] in Hr2. subst r1.
  rewrite RegexFacts.run_seq in H.
  apply char_inv in H as (c3 & r3 & Hr3 & Hc3 & H).
  apply N.eqb_eq in Hc3. subst c3. cbn [rest] in Hr3. subst r2.
  rewrite RegexFacts.run_seq in H. unfold digit in H.
  apply group_plus_inv in H as (digits & r4 & b4 & Hd & Hdigits & Hr4 & H).
  cbn [step rest] in Hr4. subst r3.
  rewrite RegexFacts.run_seq in H.
  apply char_inv in H as (c5 & r5 & Hr5 & Hc5 & H).
  apply N.eqb_eq in Hc5. subst c5. cbn [rest] in Hr5. subst r4.
  rewrite RegexFacts.run_seq in H. unfold dot in H.
  apply group_plus_inv in H as (text & r6 & b6 & Ht & Htext & Hr6 & H).
  cbn [step rest] in Hr6. subst r5.
  cbn [backtrack rest] in H. destruct r6 as [| x r6]; [| discriminate].
  exists issue, path, digits, text.
  repeat (split; [assumption |]).
  rewrite <- Hrest, Hr1. cbn [app]. now rewrite app_nil_r.
Qed.

Lemma forallb_not_pipe (s : jsstring) :
  forallb (fun c => negb (N.eqb c PIPE)) s = true -> ~ In PIPE s.
Proof.
  intros H Hin. rewrite forallb_forall in H. apply H in Hin.
  now rewrite N.eqb_refl in Hin.
Qed.

Lemma digits_not_pipe (s : jsstring) :
  forallb isDigit s = true -> ~ In PIPE s.
Proof.
  intros H Hin. rewrite forallb_forall in H. apply H in Hin. discriminate Hin.
Qed.

(** The third field of a line in the format is its run of digits. *)
Lemma review_line_field (issue : bool) (path digits text : jsstring) :
  forallb (fun c => negb (N.eqb c PIPE)) path = true ->
  forallb isDigit digits = true ->
  nth 2
    (split PIPE
       ((if issue then lit "ISSUE" else lit "SUGGESTION")
        ++ [PIPE] ++ path ++ [PIPE] ++ digits ++ [PIPE] ++ text)) []
  = digits.
Proof.
  intros Hpath Hdigits.
  assert (Htype : ~ In PIPE (if issue then lit "ISSUE" else lit "SUGGESTION")).
  { destruct issue; vm_compute; intuition discriminate. }
  cbn [app].
  rewrite (@SplitFacts.split_app PIPE _ _ Htype).
  rewrite (@SplitFacts.split_app PIPE _ _ (@forallb_not_pipe _ Hpath)).
  rewrite (@SplitFacts.split_app PIPE _ _ (@digits_not_pipe _ Hdigits)).
  reflexivity.
Qed.

(** X16: on a line whose third field denotes a safe integer, the lines of a
    review that give a finding are exactly those in the format the prompt
    asks for: [ISSUE] or [SUGGESTION], a pipe, a path without pipe, a pipe, a
    run of digits, a pipe, and a text without line terminator, none of them
    empty.  The finding is then a warning titled 'Code smell detected' for
    an issue and an info titled 'Best practice suggestion' for a suggestion,
    at the line the digits denote of the trimmed path, described by the
    trimmed text, which may hold pipes. *)
Theorem review_line_is_accepted_iff_in_format l d :
  lineFieldInRange l = true ->
  (findingOfReviewLine l = Some d
   <-> exists (issue : bool) (path digits text : jsstring),
         path <> [] /\ forallb (fun c => negb (N.eqb c PIPE)) path = true
         /\ digits <> [] /\ forallb isDigit digits = true
         /\ digitsValue 0 digits <= MAX_SAFE_INTEGER
         /\ text <> []
         /\ forallb (fun c => negb (isLineTerminator c)) text = true
         /\ l = (if issue then lit "ISSUE" else lit "SUGGESTION")
                ++ [PIPE] ++ path ++ [PIPE] ++ digits ++ [PIPE] ++ text
         /\ d = {| d_title :=
                     if issue then lit "Code smell detected"
                     else lit "Best practice suggestion";
                   d_description := trim text;
                   d_location :=
                     loc (trim path) (digitsValue 0 digits)
                       (digitsValue 0 digits);
                   d_severity := if issue then sev_warning else sev_info;
                   d_suggestedFix := None;
                   d_metadata := Some [(lit "source", JsStr (lit "model"))] |}).
Proof.
  intros Hrange. split.
  - intros H.
    assert (Hm : exists m, match_ reviewLine l = Some m).
    { unfold findingOfReviewLine in H.
      destruct (match_ reviewLine l) as [m |]; [eauto | discriminate]. }
    destruct Hm as (m & Hm).
    apply reviewLine_inv in Hm
      as (issue & path & digits & text & Hp & Hpath & Hd & Hdigits & Ht
          & Htext & ->).
    rewrite (review_line_accepted issue Hp Hpath Hd Hdigits Ht Htext) in H.
    injection H as <-.
    unfold lineFieldInRange in Hrange.
    rewrite (@review_line_field issue path digits text Hpath Hdigits) in Hrange.
    apply Z.leb_le in Hrange.
    exists issue, path, digits, text. repeat (split; [assumption |]).
    split; reflexivity.
  - intros (issue & path & digits & text & Hp & Hpath & Hd & Hdigits & _ & Ht
            & Htext & -> & ->).
    now apply review_line_accepted.
Qed.

Lemma review_line_is_accepted_iff_in_format_witness :
  let l := lit "ISSUE|a.ts|12|desc" in
  let d := {| d_title := lit "Code smell detected";
              d_description := lit "desc";
              d_location := loc (lit "a.ts") 12 12;
              d_severity := sev_warning;
              d_suggestedFix := None;
              d_metadata := Some [(lit "source", JsStr (lit "model"))] |} in
  lineFieldInRange l = true
  /\ findingOfReviewLine l = Some d
  /\ (findingOfReviewLine l = Some d
      <-> exists (issue : bool) (path digits text : jsstring),
            path <> [] /\ forallb (fun c => negb (N.eqb c PIPE)) path = true
            /\ digits <> [] /\ forallb isDigit digits = true
            /\ digitsValue 0 digits <= MAX_SAFE_INTEGER
            /\ text <> []
            /\ forallb (fun c => negb (isLineTerminator c)) text = true
            /\ l = (if issue then lit "ISSUE" else lit "SUGGESTION")
                   ++ [PIPE] ++ path ++ [PIPE] ++ digits ++ [PIPE] ++ text
            /\ d = {| d_title :=
                        if issue then lit "Code smell detected"
                        else lit "Best practice suggestion";
                      d_description := trim text;
                      d_location :=
                        loc (trim path) (digitsValue 0 digits)
                          (digitsValue 0 digits);
                      d_severity := if issue then sev_warning else sev_info;
                      d_suggestedFix := None;
                      d_metadata :=
                        Some [(lit "source", JsStr (lit "model"))] |}).
Proof.
  cbn zeta. split; [reflexivity |]. split; [reflexivity |].
  apply (@review_line_is_accepted_iff_in_format (lit "ISSUE|a.ts|12|desc")).
  reflexivity.
Defined.

(** X17: a line of the review that ends with a carriage return, as every
    line of an answer with Windows line ends does, gives no finding. *)
Theorem review_line_with_carriage_return_is_dropped l :
  findingOfReviewLine (l ++ [CR]) = None.
Proof.
  unfold findingOfReviewLine.
  destruct (match_ reviewLine (l ++ [CR])) as [m |] eqn:E; [| reflexivity].
  apply reviewLine_inv in E
    as (issue & path & digits & text & _ & _ & _ & _ & Ht & Htext & E).
  exfalso.
  rewrite !app_assoc in E.
  destruct (exists_last Ht) as (text' & c & ->).
  rewrite app_assoc in E. apply app_inj_tail in E as [_ <-].
  rewrite forallb_app in Htext. apply andb_true_iff in Htext as [_ Htext].
  discriminate Htext.
Qed.

Lemma review_line_accepted_example :
  findingOfReviewLine (lit "SUGGESTION|src/a.ts |12| prefer const | not let")
  = Some {| d_title := lit "Best practice suggestion";
            d_description := lit "prefer const | not let";
            d_location := loc (lit "src/a.ts") 12 12;
            d_severity := sev_info;
            d_suggestedFix := None;
            d_metadata := Some [(lit "source", JsStr (lit "model"))] |}.
Proof.
  apply (@review_line_accepted false (lit "src/a.ts ") (lit "12")
           (lit " prefer const | not let")).
  - discriminate.
  - reflexivity.
  - discriminate.
  - reflexivity.
  - discriminate.
  - reflexivity.
Qed.

End ReviewFacts.

Module ExtractionFacts.
Import Regex DeadCode Escape ScanState.

Lemma wordChar_not_special c : isWordChar c = true -> isSpecial c = false.
Proof.
  unfold isWordChar, isDigit. intros H.
  assert (Hc : (97 <= c <= 122 \/ 65 <= c <= 90 \/ 48 <= c <= 57 \/ c = 95)%N).
  { repeat (apply orb_true_iff in H as [H | H]);
      try (apply andb_true_iff in H as [H1 H2]; apply N.leb_le in H1, H2);
      try (apply N.eqb_eq in H); lia. }
  clear H. unfold isSpecial. cbn [lit list_ascii_of_string List.map app existsb].
  repeat match goal with
         | |- context [N.eqb c ?k] =>
             replace (N.eqb c k) with false
               by (symmetry; apply N.eqb_neq; vm_compute N_of_ascii;
                   unfold BACKSLASH; lia)
         end.
  reflexivity.
Qed.

Lemma escapeRegex_plain s :
  forallb (fun c => negb (isSpecial c)) s = true -> escapeRegex s = s.
Proof.
  induction s as [| c s IH]; [reflexivity |]. cbn [forallb]. intros H.
  apply andb_true_iff in H as [Hc Hs]. apply negb_true_iff in Hc.
  unfold escapeRegex in *. cbn [flat_map]. rewrite Hc, IH by assumption.
  reflexivity.
Qed.

(** X18: on every name of a named export that the extractors give,
    [escapeRegex] changes nothing, so that the pattern built from the name
    is the name between two word boundaries; the same holds of every string
    of word characters. *)
Theorem escapeRegex_leaves_export_names_unchanged :
  (forall s, forallb isWordChar s = true -> escapeRegex s = s)
  /\ (forall lang content e,
        In e (exportsOf lang content) -> isDefault (kind e) = false ->
        escapeRegex (name e) = name e).
Proof.
  assert (Hword : forall s, forallb isWordChar s = true -> escapeRegex s = s).
  { intros s Hs. apply escapeRegex_plain. rewrite forallb_forall in *.
    intros c Hc. apply negb_true_iff, wordChar_not_special. now apply Hs. }
  split; [exact Hword |].
  intros lang content e Hin Hk. apply Hword.
  pose proof (DeadCodeFacts.exportsOf_wordName _ _ _ Hin Hk) as Hn.
  unfold isWordName in Hn. destruct (name e); [discriminate | exact Hn].
Qed.

(** *** The loop over the lines *)

Section OverLines.

Variable f : jsstring -> Z -> option ExportInfo.
Hypothesis f_line : forall l n e, f l n = Some e -> line e = n.
Arguments f_line : clear implicits.

Lemma overLines_lines lines : forall i,
  Forall (fun e => exists k l,
              nth_error lines k = Some l
              /\ line e = Z.of_nat (i + k) + 1
              /\ f l (line e) = Some e)
    (overLines f lines i).
Proof.
  induction lines as [| l lines IH]; intros i; cbn [overLines]; [constructor |].
  assert (Htail : Forall (fun e => exists k l0,
                            nth_error (l :: lines) k = Some l0
                            /\ line e = Z.of_nat (i + k) + 1
                            /\ f l0 (line e) = Some e)
                    (overLines f lines (S i))).
  { eapply Forall_impl; [| exact (IH (S i))]. cbn beta.
    intros e (k & l0 & Hk & Hl & Hf). exists (S k), l0.
    split; [exact Hk |]. split; [| exact Hf]. rewrite Hl. f_equal. lia. }
  destruct (f l (Z.of_nat i + 1)) as [e |] eqn:E; [| exact Htail].
  constructor; [| exact Htail].
  exists O, l. pose proof (f_line _ _ _ E) as Hl.
  split; [reflexivity |]. split; [rewrite Hl; f_equal; lia |].
  now rewrite Hl.
Qed.

Lemma overLines_sorted lines : forall i,
  StronglySorted (fun a b => line a < line b) (overLines f lines i)
  /\ Forall (fun e => Z.of_nat i < line e) (overLines f lines i).
Proof.
  induction lines as [| l lines IH]; intros i; cbn [overLines];
    [split; constructor |].
  destruct (IH (S i)) as [Hs Hb].
  assert (Hb' : Forall (fun e => Z.of_nat i < line e) (overLines f lines (S i))).
  { eapply Forall_impl; [| exact Hb]. cbn beta. intros e He. lia. }
  destruct (f l (Z.of_nat i + 1)) as [e |] eqn:E; [| split; assumption].
  pose proof (f_line _ _ _ E) as Hl. split.
  - constructor; [assumption |].
    eapply Forall_impl; [| exact Hb]. cbn beta. intros e' He'. lia.
  - constructor; [lia | assumption].
Qed.

End OverLines.

Lemma firstMatch_line patterns l n e :
  firstMatch patterns l n = Some e -> line e = n.
Proof.
  induction patterns as [| [r k] patterns IH]; cbn [firstMatch]; [discriminate |].
  destruct (match_ r l); [| exact IH]. intros H. now injection H as <-.
Qed.

Lemma exportOfLine_line l n e : exportOfLine l n = Some e -> line e = n.
Proof.
  unfold exportOfLine.
  destruct (firstMatch namedExports l n) as [e' |] eqn:E.
  - intros H. injection H as <-. exact (firstMatch_line _ _ _ E).
  - destruct (match_ exportDefault l); [| discriminate].
    intros H. now injection H as <-.
Qed.

(** What a line of a Python file gives: a public name, and for a variable
    a name without lower-case letter. *)
Lemma pythonExportOfLine_public l n e :
  pythonExportOfLine l n = Some e ->
  line e = n
  /\ startsWith [UNDERSCORE] (name e) = false
  /\ (kind e = k_function \/ kind e = k_class
      \/ (kind e = k_variable /\ toUpperCaseAscii (name e) = name e)).
Proof.
  unfold pythonExportOfLine. cbn zeta. intros H.
  assert (Hrest :
    match
      match match_ pythonClass l with
      | Some m =>
          if negb (startsWith [UNDERSCORE] (group 1 m))
          then Some {| name := group 1 m; line := n; kind := k_class |}
          else None
      | None => None
      end
    with
    | Some e => Some e
    | None =>
        match match_ pythonAssign l with
        | Some m =>
            if negb (startsWith [UNDERSCORE] (group 1 m))
               && Js.eqb (group 1 m) (toUpperCaseAscii (group 1 m))
            then Some {| name := group 1 m; line := n; kind := k_variable |}
            else None
        | None => None
        end
    end = Some e ->
    line e = n
    /\ startsWith [UNDERSCORE] (name e) = false
    /\ (kind e = k_function \/ kind e = k_class
        \/ (kind e = k_variable /\ toUpperCaseAscii (name e) = name e))).
  { clear H. intros H.
    assert (Hassign :
      match match_ pythonAssign l with
      | Some m =>
          if negb (startsWith [UNDERSCORE] (group 1 m))
             && Js.eqb (group 1 m) (toUpperCaseAscii (group 1 m))
          then Some {| name := group 1 m; line := n; kind := k_variable |}
          else None
      | None => None
      end = Some e ->
      line e = n
      /\ startsWith [UNDERSCORE] (name e) = false
      /\ (kind e = k_function \/ kind e = k_class
          \/ (kind e = k_variable /\ toUpperCaseAscii (name e) = name e))).
    { intros Ha. destruct (match_ pythonAssign l) as [m |]; [| discriminate].
      destruct (negb _ && _) eqn:Ec; [| discriminate].
      injection Ha as <-. cbn [name line kind].
      apply andb_true_iff in Ec as [Hp Hu].
      apply negb_true_iff in Hp. apply JsFacts.eqb_eq in Hu.
      split; [reflexivity |]. split; [exact Hp |]. right. right. auto. }
    destruct (match_ pythonClass l) as [m |]; [| exact (Hassign H)].
    destruct (negb (startsWith [UNDERSCORE] (group 1 m))) eqn:Ep;
      [| exact (Hassign H)].
    injection H as <-. cbn [name line kind]. apply negb_true_iff in Ep. auto. }
  destruct (match_ pythonDef l) as [m |]; [| exact (Hrest H)].
  destruct (negb (startsWith [UNDERSCORE] (group 1 m))) eqn:Ep;
    [| exact (Hrest H)].
  injection H as <-. cbn [name line kind]. apply negb_true_iff in Ep. auto.
Qed.

(** X19: the exports of a file come out in the order of its lines, at most
    one for each line: the line numbers are strictly increasing, they count
    from 1 within the file, and each export is what the patterns give on
    the line it is reported at -- of several exports on one line only the
    one of the first pattern that matches is reported. *)
Theorem exports_are_in_line_order_one_per_line content :
  let lines := split LF content in
  let numbered (f : jsstring -> Z -> option ExportInfo) (exports : list ExportInfo) :=
    StronglySorted (fun a b => line a < line b) exports
    /\ Forall (fun e => exists k l,
                 nth_error lines k = Some l
                 /\ line e = Z.of_nat k + 1
                 /\ f l (line e) = Some e) exports in
  numbered exportOfLine (extractExports content)
  /\ numbered pythonExportOfLine (extractPythonExports content).
Proof.
  cbn zeta. unfold extractExports, extractPythonExports.
  assert (Hpy : forall l n e, pythonExportOfLine l n = Some e -> line e = n).
  { intros l n e H. now apply pythonExportOfLine_public in H. }
  split; split.
  - apply (@overLines_sorted exportOfLine exportOfLine_line).
  - exact (@overLines_lines exportOfLine exportOfLine_line (split LF content) 0).
  - apply (@overLines_sorted pythonExportOfLine Hpy).
  - exact (@overLines_lines pythonExportOfLine Hpy (split LF content) 0).
Qed.

(** X20: the Python extractor reports public names only: no reported name
    starts with an underscore, every name is a non-empty string of word
    characters, the kinds are function, class and variable, and a variable
    is reported only when its name has no lower-case letter. *)
Theorem python_exports_are_public_names content :
  Forall (fun e =>
            startsWith [UNDERSCORE] (name e) = false
            /\ isWordName (name e) = true
            /\ (kind e = k_function \/ kind e = k_class
                \/ (kind e = k_variable /\ toUpperCaseAscii (name e) = name e)))
    (extractPythonExports content).
Proof.
  apply Forall_forall. intros e He. unfold extractPythonExports in He.
  apply DeadCodeFacts.overLines_In in He as (l & n & H).
  pose proof (DeadCodeFacts.pythonExportOfLine_wordName _ _ H) as Hw.
  apply pythonExportOfLine_public in H as (_ & Hp & Hk). auto.
Qed.

(** *** The maps of the scan *)

Lemma mapSet_keys {V : Type} key (v : V) m :
  List.map fst (mapSet key v m)
  = if existsb (Js.eqb key) (List.map fst m) then List.map fst m
    else List.map fst m ++ [key].
Proof.
  induction m as [| [k v'] m IH]; cbn [mapSet List.map existsb fst];
    [reflexivity |].
  destruct (Js.eqb k key) eqn:E.
  - apply JsFacts.eqb_eq in E. subst k. now rewrite JsFacts.eqb_refl.
  - assert (E' : Js.eqb key k = false).
    { destruct (Js.eqb key k) eqn:E2; [| reflexivity].
      apply JsFacts.eqb_eq in E2. subst k. now rewrite JsFacts.eqb_refl in E. }
    rewrite E'. cbn [orb List.map fst]. rewrite IH.
    now destruct (existsb (Js.eqb key) (List.map fst m)).
Qed.

Lemma key_among_keys key (keys : list jsstring) :
  existsb (Js.eqb key) keys = true <-> In key keys.
Proof.
  rewrite existsb_exists. split.
  - intros (k & Hk & E). apply JsFacts.eqb_eq in E. now subst.
  - intros H. exists key. split; [assumption | apply JsFacts.eqb_refl].
Qed.

Lemma mapSet_NoDup {V : Type} key (v : V) m :
  NoDup (List.map fst m) -> NoDup (List.map fst (mapSet key v m)).
Proof.
  intros H. rewrite mapSet_keys.
  destruct (existsb (Js.eqb key) (List.map fst m)) eqn:E; [assumption |].
  apply NoDup_app; [assumption | repeat constructor; intros [] |].
  intros k Hk [<- | []].
  apply key_among_keys in Hk. congruence.
Qed.

Lemma mapSet_length {V : Type} key (v : V) m :
  (List.length (mapSet key v m) <= S (List.length m))%nat.
Proof.
  rewrite <- !(length_map fst), mapSet_keys.
  destruct (existsb _ _); [lia |]. rewrite length_app. simpl. lia.
Qed.

Lemma mapSet_key_in {V : Type} key (v : V) m k :
  In k (List.map fst (mapSet key v m)) <-> k = key \/ In k (List.map fst m).
Proof.
  rewrite mapSet_keys.
  destruct (existsb (Js.eqb key) (List.map fst m)) eqn:E.
  - apply key_among_keys in E. split; [auto |]. intros [-> | H]; assumption.
  - rewrite in_app_iff. simpl. intuition congruence.
Qed.

Lemma scanFile_invariant n sc f :
  scanInvariant n sc -> scanInvariant (S n) (scanFile sc f).
Proof.
  intros (H1 & H2 & H3 & H4 & H5). unfold scanFile.
  destruct (text f) as [content |];
    [| repeat split; auto].
  cbn zeta. unfold scanInvariant. cbn [fileContents allExports].
  split; [now apply mapSet_NoDup |].
  assert (Hlen : (List.length (mapSet (relPath f) content (fileContents sc))
                  <= S n)%nat).
  { pose proof (mapSet_length (relPath f) content (fileContents sc)). lia. }
  destruct (exportsOf (language f) content) as [| e es] eqn:E.
  - split; [assumption |]. split; [| split; assumption].
    intros k Hk. apply mapSet_key_in. right. now apply H3.
  - split; [now apply mapSet_NoDup |]. split; [| split; [| assumption]].
    + intros k Hk. apply mapSet_key_in in Hk as [-> | Hk];
        apply mapSet_key_in; [now left | right; now apply H3].
    + apply Forall_forall. intros [k v] Hin.
      apply DeadCodeFacts.mapSet_In in Hin as [(_ & ->) | Hin];
        [discriminate |].
      rewrite Forall_forall in H4. exact (H4 _ Hin).
Qed.

Lemma fold_scanFile_invariant files : forall n sc,
  scanInvariant n sc ->
  scanInvariant (n + List.length files) (fold_left scanFile files sc).
Proof.
  induction files as [| f files IH]; intros n sc H; cbn [fold_left List.length].
  - now rewrite Nat.add_0_r.
  - replace (n + S (List.length files))%nat
      with (S n + List.length files)%nat by lia.
    apply IH. now apply scanFile_invariant.
Qed.

(** X21: after the scan, whatever the files are, no path occurs twice in the
    contents nor in the exports; every path with exports has a content;
    no path is recorded with an empty list of exports; and at most
    [MAX_FILES] contents are held, one for each file read at most. *)
Theorem scan_maps_are_consistent files :
  let sc := scanFiles files in
  NoDup (List.map fst (fileContents sc))
  /\ NoDup (List.map fst (allExports sc))
  /\ incl (List.map fst (allExports sc)) (List.map fst (fileContents sc))
  /\ Forall (fun entry => snd entry <> []) (allExports sc)
  /\ (List.length (fileContents sc) <= Nat.min MAX_FILES (List.length files))%nat.
Proof.
  cbn zeta. unfold scanFiles.
  pose proof (@fold_scanFile_invariant (firstn MAX_FILES files) 0
                {| fileContents := []; allExports := [] |}) as H.
  destruct H as (H1 & H2 & H3 & H4 & H5).
  { repeat split; cbn; try constructor. intros k []. }
  repeat split; auto.
  rewrite length_firstn in H5. exact H5.
Qed.

End ExtractionFacts.

Module DiscoveryFacts.
Import DeadCode Discovery.

Section Host.

Variable pathJoin : jsstring -> jsstring -> jsstring.
Variable extname : jsstring -> jsstring.
Variable valid : list jsstring.

Local Abbreviation visit := (visit pathJoin extname valid).
Local Abbreviation visitAll := (visitAll pathJoin extname valid).
Local Abbreviation walk := (walk pathJoin extname valid).
Local Abbreviation Found := (Found pathJoin extname valid).

(** Induction on a directory entry and on the listings below it. *)
Lemma Dirent_induction (P : Dirent -> Prop) (Q : list Dirent -> Prop) :
  (forall name, P (FileEntry name)) ->
  (forall name, P (OtherEntry name)) ->
  (forall name, P (DirEntry name None)) ->
  (forall name entries, Q entries -> P (DirEntry name (Some entries))) ->
  Q [] ->
  (forall e es, P e -> Q es -> Q (e :: es)) ->
  forall e, P e.
Proof.
  intros Hfile Hother Hnone Hdir Hnil Hcons.
  fix F 1. intros [name | name [entries |] | name].
  - apply Hfile.
  - apply Hdir. induction entries as [| e es IH]; [exact Hnil |].
    apply Hcons; [apply F | exact IH].
  - apply Hnone.
  - apply Hother.
Qed.

Lemma visit_dir dir name listing files :
  visit dir (DirEntry name listing) files
  = if has SKIP_DIRS name then files
    else walk (pathJoin dir name) listing files.
Proof.
  cbn [Discovery.visit]. destruct (has SKIP_DIRS name); [reflexivity |].
  unfold Discovery.walk. cbn zeta.
  destruct (Nat.leb MAX_FILES (List.length files)); [reflexivity |].
  destruct listing as [entries |]; [| reflexivity].
  revert files. induction entries as [| e es IH]; intros files; [reflexivity |].
  cbn [Discovery.visitAll].
  destruct (Nat.leb MAX_FILES (List.length files)); [reflexivity |].
  apply IH.
Qed.

Lemma Found_incl dir entries entries' path :
  incl entries entries' -> Found dir entries path -> Found dir entries' path.
Proof.
  intros Hincl H. destruct H as [dir entries name Hin Hv
                                | dir entries name children path Hin Hs Hf].
  - apply FoundHere; auto.
  - eapply FoundBelow; eauto.
Qed.

Lemma Found_cons dir e es path :
  Found dir (e :: es) path -> Found dir [e] path \/ Found dir es path.
Proof.
  intros H. inversion H as [dir' entries name Hin Hv
                           | dir' entries name children path' Hin Hs Hf]; subst.
  - destruct Hin as [-> | Hin].
    + left. apply FoundHere; [now left | assumption].
    + right. now apply FoundHere.
  - destruct Hin as [-> | Hin].
    + left. eapply FoundBelow; eauto. now left.
    + right. eapply FoundBelow; eauto.
Qed.

Local Abbreviation visitAdds := (visitAdds pathJoin extname valid).
Local Abbreviation loopAdds := (loopAdds pathJoin extname valid).

Lemma nothing_added (files : list jsstring) : files = files ++ [].
Proof. now rewrite app_nil_r. Qed.

Lemma visit_adds : forall e dir files, exists added, visitAdds dir e files added.
Proof.
  apply (@Dirent_induction
           (fun e => forall dir files, exists added, visitAdds dir e files added)
           (fun es => forall dir files, exists added, loopAdds dir es files added)).
  - (* a file *)
    intros name dir files. unfold Discovery.visitAdds. cbn [Discovery.visit].
    destruct (has valid (extname name)) eqn:Hv.
    + exists [pathJoin dir name]. split; [reflexivity |]. split; [| split].
      * constructor; [| constructor].
        apply FoundHere; [now left | assumption].
      * rewrite length_app. simpl. lia.
      * intros _ path H.
        inversion H as [dir' entries name' Hin Hv'
                       | dir' entries name' children path' Hin Hs Hf]; subst;
          destruct Hin as [Hin | []]; [| discriminate].
        injection Hin as <-. now left.
    + exists []. split; [apply nothing_added |]. split; [constructor |].
      split; [rewrite app_nil_r; lia |].
      intros _ path H.
      inversion H as [dir' entries name' Hin Hv'
                     | dir' entries name' children path' Hin Hs Hf]; subst;
        destruct Hin as [Hin | []]; [| discriminate].
      injection Hin as <-. congruence.
  - (* neither a file nor a directory *)
    intros name dir files. exists []. unfold Discovery.visitAdds.
    cbn [Discovery.visit].
    split; [apply nothing_added |]. split; [constructor |].
    split; [rewrite app_nil_r; lia |].
    intros _ path H.
    inversion H as [dir' entries name' Hin Hv'
                   | dir' entries name' children path' Hin Hs Hf]; subst;
      destruct Hin as [Hin | []]; discriminate.
  - (* a directory that cannot be read *)
    intros name dir files. exists []. unfold Discovery.visitAdds.
    rewrite visit_dir.
    assert (E : (if has SKIP_DIRS name then files
                 else walk (pathJoin dir name) None files) = files).
    { unfold Discovery.walk. destruct (has SKIP_DIRS name); [reflexivity |].
      now destruct (Nat.leb MAX_FILES (List.length files)). }
    rewrite E. split; [apply nothing_added |]. split; [constructor |].
    split; [rewrite app_nil_r; lia |].
    intros _ path H.
    inversion H as [dir' entries name' Hin Hv'
                   | dir' entries name' children path' Hin Hs Hf]; subst;
      destruct Hin as [Hin | []]; discriminate.
  - (* a directory *)
    intros name entries IH dir files. unfold Discovery.visitAdds.
    rewrite visit_dir.
    destruct (has SKIP_DIRS name) eqn:Hskip.
    { exists []. split; [apply nothing_added |]. split; [constructor |].
      split; [rewrite app_nil_r; lia |].
      intros _ path H.
      inversion H as [dir' es name' Hin Hv'
                     | dir' es name' children path' Hin Hs Hf]; subst;
        destruct Hin as [Hin | []]; [discriminate |].
      injection Hin as <- <-. congruence. }
    unfold Discovery.walk.
    destruct (Nat.leb_spec MAX_FILES (List.length files)) as [Hfull | Hroom].
    { exists []. split; [apply nothing_added |]. split; [constructor |].
      rewrite app_nil_r. split; [lia |]. intros Hlt. lia. }
    destruct (IH (pathJoin dir name) files) as (added & E & Hf & Hb & Hc).
    exists added. split; [exact E |]. split; [| split].
    + eapply Forall_impl; [| exact Hf]. cbn beta. intros path Hp.
      eapply FoundBelow; [now left | exact Hskip | exact Hp].
    + intros _. lia.
    + intros Hlt path H.
      inversion H as [dir' es name' Hin Hv'
                     | dir' es name' children path' Hin Hs Hfound]; subst;
        destruct Hin as [Hin | []]; [discriminate |].
      injection Hin as <- <-. now apply Hc.
  - (* the empty listing *)
    intros dir files. exists []. unfold Discovery.loopAdds.
    cbn [Discovery.visitAll].
    split; [apply nothing_added |]. split; [constructor |].
    split; [rewrite app_nil_r; lia |].
    intros _ path H.
    inversion H as [dir' es name' Hin Hv'
                   | dir' es name' children path' Hin Hs Hfound]; subst;
      destruct Hin.
  - (* one more entry *)
    intros e es IHe IHes dir files. unfold Discovery.loopAdds.
    cbn [Discovery.visitAll].
    destruct (Nat.leb_spec MAX_FILES (List.length files)) as [Hfull | Hroom].
    { exists []. split; [apply nothing_added |]. split; [constructor |].
      rewrite app_nil_r. split; [lia |]. intros Hlt. lia. }
    destruct (IHe dir files) as (added1 & E1 & Hf1 & Hb1 & Hc1).
    destruct (IHes dir (files ++ added1)) as (added2 & E2 & Hf2 & Hb2 & Hc2).
    exists (added1 ++ added2). rewrite E1, E2, <- app_assoc.
    split; [reflexivity |]. split; [| split].
    + apply Forall_app. split.
      * eapply Forall_impl; [| exact Hf1]. cbn beta. intros path.
        apply Found_incl. intros x [<- | []]. now left.
      * eapply Forall_impl; [| exact Hf2]. cbn beta. intros path.
        apply Found_incl. intros x Hx. now right.
    + specialize (Hb1 Hroom). rewrite <- app_assoc in Hb2. lia.
    + intros Hlt path H. rewrite app_assoc in Hlt.
      assert (Hlt1 : (List.length (files ++ added1) < MAX_FILES)%nat).
      { rewrite length_app in Hlt. lia. }
      apply in_or_app. apply Found_cons in H as [H | H]; [left | right]; auto.
Qed.

Lemma walk_adds dir listing files :
  exists added,
    walk dir listing files = files ++ added
    /\ Forall (fun path => match listing with
                           | Some entries => Found dir entries path
                           | None => False
                           end) added
    /\ (List.length (files ++ added)
        <= Nat.max MAX_FILES (List.length files))%nat
    /\ ((List.length (files ++ added) < MAX_FILES)%nat ->
        forall path,
          match listing with
          | Some entries => Found dir entries path
          | None => False
          end -> In path added).
Proof.
  pose proof (visit_adds (DirEntry [] listing) [] files) as H.
  unfold Discovery.walk.
  destruct (Nat.leb_spec MAX_FILES (List.length files)) as [Hfull | Hroom].
  { exists []. split; [apply nothing_added |]. split; [constructor |].
    rewrite app_nil_r. split; [lia |]. intros Hlt. lia. }
  destruct listing as [entries |].
  - clear H.
    assert (Hall : forall es dir files, exists added, loopAdds dir es files added).
    { induction es as [| e es IH]; intros d fs.
      - exists []. unfold Discovery.loopAdds. cbn [Discovery.visitAll].
        split; [apply nothing_added |]. split; [constructor |].
        split; [rewrite app_nil_r; lia |].
        intros _ path H.
        inversion H as [dir' es' name' Hin Hv'
                       | dir' es' name' children path' Hin Hs Hfound]; subst;
          destruct Hin.
      - unfold Discovery.loopAdds. cbn [Discovery.visitAll].
        destruct (Nat.leb_spec MAX_FILES (List.length fs)) as [Hfull | Hroom'].
        { exists []. split; [apply nothing_added |]. split; [constructor |].
          rewrite app_nil_r. split; [lia |]. intros Hlt. lia. }
        destruct (visit_adds e d fs) as (added1 & E1 & Hf1 & Hb1 & Hc1).
        destruct (IH d (fs ++ added1)) as (added2 & E2 & Hf2 & Hb2 & Hc2).
        exists (added1 ++ added2). rewrite E1, E2, <- app_assoc.
        split; [reflexivity |]. split; [| split].
        + apply Forall_app. split.
          * eapply Forall_impl; [| exact Hf1]. cbn beta. intros path.
            apply Found_incl. intros x [<- | []]. now left.
          * eapply Forall_impl; [| exact Hf2]. cbn beta. intros path.
            apply Found_incl. intros x Hx. now right.
        + specialize (Hb1 Hroom'). rewrite <- app_assoc in Hb2. lia.
        + intros Hlt path H. rewrite app_assoc in Hlt.
          assert (Hlt1 : (List.length (fs ++ added1) < MAX_FILES)%nat).
          { rewrite length_app in Hlt. lia. }
          apply in_or_app. apply Found_cons in H as [H | H]; [left | right]; auto. }
    exact (Hall entries dir files).
  - exists []. split; [apply nothing_added |]. split; [constructor |].
    rewrite app_nil_r. split; [lia |]. intros _ path [].
Qed.

Local Abbreviation visitRoot := (visitRoot pathJoin extname valid).
Local Abbreviation collectable := (collectable pathJoin extname valid).

(** What the loop over the roots adds to the array. *)
Lemma roots_add roots : forall files,
  exists added,
    fold_left visitRoot roots files = files ++ added
    /\ Forall (fun path => exists root, In root roots /\ collectable root path)
         added
    /\ (List.length (files ++ added)
        <= Nat.max MAX_FILES (List.length files)
           + List.length (filter isRootFile roots))%nat
    /\ ((List.length (files ++ added) < MAX_FILES)%nat ->
        forall root path,
          In root roots -> collectable root path -> In path added).
Proof.
  induction roots as [| root roots IH]; intros files; cbn [fold_left].
  - exists []. split; [apply nothing_added |]. split; [constructor |].
    rewrite app_nil_r. split; [cbn [filter List.length]; lia |].
    intros _ root path [].
  - assert (Hstep :
      exists added1,
        visitRoot files root = files ++ added1
        /\ Forall (collectable root) added1
        /\ (List.length (files ++ added1)
            <= Nat.max MAX_FILES (List.length files)
               + (if isRootFile root then 1 else 0))%nat
        /\ ((List.length (files ++ added1) < MAX_FILES)%nat ->
            forall path, collectable root path -> In path added1)).
    { unfold Discovery.visitRoot, Discovery.collectable, isRootFile.
      destruct root as [path [[listing | |] |]]; cbn [fst snd].
      - destruct (walk_adds path listing files) as (added1 & E & Hf & Hb & Hc).
        exists added1. split; [exact E |]. split; [| split].
        + eapply Forall_impl; [| exact Hf]. cbn beta. intros p.
          now destruct listing.
        + lia.
        + intros Hlt p Hp. apply Hc; [assumption |]. now destruct listing.
      - exists [path]. split; [reflexivity |].
        split; [repeat constructor |]. split.
        + rewrite length_app. cbn [List.length]. lia.
        + intros _ p ->. now left.
      - exists []. split; [apply nothing_added |]. split; [constructor |].
        rewrite app_nil_r. split; [lia |]. intros _ p [].
      - exists []. split; [apply nothing_added |]. split; [constructor |].
        rewrite app_nil_r. split; [lia |]. intros _ p []. }
    destruct Hstep as (added1 & E1 & Hf1 & Hb1 & Hc1).
    destruct (IH (files ++ added1)) as (added2 & E2 & Hf2 & Hb2 & Hc2).
    exists (added1 ++ added2). rewrite E1, E2, <- app_assoc.
    split; [reflexivity |]. split; [| split].
    + apply Forall_app. split.
      * eapply Forall_impl; [| exact Hf1]. cbn beta. intros p Hp.
        exists root. split; [now left | assumption].
      * eapply Forall_impl; [| exact Hf2]. cbn beta.
        intros p (r & Hr & Hp). exists r. split; [now right | assumption].
    + rewrite <- app_assoc in Hb2. cbn [filter].
      destruct (isRootFile root); cbn [List.length]; lia.
    + intros Hlt r p Hr Hp. rewrite app_assoc in Hlt.
      assert (Hlt1 : (List.length (files ++ added1) < MAX_FILES)%nat).
      { rewrite length_app in Hlt. lia. }
      apply in_or_app. destruct Hr as [<- | Hr]; [left | right]; eauto.
Qed.

End Host.



Import DiscoverySamples.

(** The files of the sample tree, with the languages TypeScript and
    Python enabled. *)
Example collect_example :
  collectSourceFiles slashJoin lastDotExtension roots
    [typescript; python]
  = [lit "/repo/a.ts"; lit "/repo/lib/b.py"; lit "/notes.txt"].
Proof. vm_compute. reflexivity. Qed.


End DiscoveryFacts.

Module SummaryFacts.
Import Summary.

Lemma setAdd_spec set key :
  NoDup set ->
  NoDup (setAdd set key)
  /\ (forall k, In k (setAdd set key) <-> k = key \/ In k set).
Proof.
  intros Hnd. unfold setAdd.
  destruct (existsb (Js.eqb key) set) eqn:E.
  - split; [assumption |]. intros k. split; [auto |].
    intros [-> | H]; [| assumption].
    apply existsb_exists in E as (k' & Hk' & E).
    apply JsFacts.eqb_eq in E. now subst.
  - split.
    + apply NoDup_app; [assumption | repeat constructor; intros [] |].
      intros k Hk [E' | []]. subst k.
      assert (Hex : existsb (Js.eqb key) set = true).
      { apply existsb_exists. exists key. split; [assumption |].
        apply JsFacts.eqb_refl. }
      congruence.
    + intros k. rewrite in_app_iff. simpl. intuition congruence.
Qed.

Lemma countOf_cons s f findings :
  countOf s (f :: findings)
  = (if hasSeverity s f then 1 else 0) + countOf s findings.
Proof.
  unfold countOf. cbn [filter]. destruct (hasSeverity s f); cbn [List.length]; lia.
Qed.

Lemma tally_fold findings : forall counts set,
  NoDup set ->
  let acc := fold_left tally findings (counts, set) in
  n_error (fst acc) = n_error counts + countOf sev_error findings
  /\ n_warning (fst acc) = n_warning counts + countOf sev_warning findings
  /\ n_info (fst acc) = n_info counts + countOf sev_info findings
  /\ n_hint (fst acc) = n_hint counts + countOf sev_hint findings
  /\ NoDup (snd acc)
  /\ (forall k, In k (snd acc)
                <-> In k set
                    \/ In k (List.map (fun f => filePath (location f)) findings)).
Proof.
  induction findings as [| f findings IH]; intros counts set Hnd; cbn zeta.
  - cbn [fold_left fst snd List.map]. unfold countOf. cbn [filter List.length].
    repeat (split; [lia |]). split; [assumption |]. intros k. cbn [In]. tauto.
  - cbn [fold_left].
    change (tally (counts, set) f)
      with (increment counts (severity f), setAdd set (filePath (location f))).
    destruct (setAdd_spec (filePath (location f)) Hnd) as [Hnd' Hin].
    destruct (IH (increment counts (severity f))
                (setAdd set (filePath (location f))) Hnd')
      as (He & Hw & Hi & Hh & Hn & Hk).
    cbn zeta in *. rewrite He, Hw, Hi, Hh, !countOf_cons. unfold hasSeverity.
    split; [| split; [| split; [| split; [| split]]]];
      try (destruct (severity f);
           cbn [increment n_error n_warning n_info n_hint]; lia).
    + assumption.
    + intros k. rewrite Hk, Hin. cbn [List.map In]. intuition congruence.
Qed.

(** X24: in the summary of a list of findings the counter of each severity
    is the number of findings of that severity, so that the four counters
    add up to [totalFindings]; [filesWithFindings] is the number of distinct
    paths among the findings, at least one when there is a finding and at
    most [totalFindings]; [filesScanned] is the number handed in, whatever
    it is; and the summary of no finding and no file is the empty one. *)
Theorem summary_counts_are_consistent findings scanned :
  let s := buildScanSummary findings scanned in
  n_error (bySeverity s) = countOf sev_error findings
  /\ n_warning (bySeverity s) = countOf sev_warning findings
  /\ n_info (bySeverity s) = countOf sev_info findings
  /\ n_hint (bySeverity s) = countOf sev_hint findings
  /\ n_error (bySeverity s) + n_warning (bySeverity s)
     + n_info (bySeverity s) + n_hint (bySeverity s) = totalFindings s
  /\ totalFindings s = Z.of_nat (List.length findings)
  /\ filesWithFindings s
     = Z.of_nat (List.length
                   (nodup (list_eq_dec N.eq_dec)
                      (List.map (fun f => filePath (location f)) findings)))
  /\ filesWithFindings s <= totalFindings s
  /\ (filesWithFindings s = 0 <-> findings = [])
  /\ filesScanned s = scanned
  /\ buildScanSummary [] 0 = emptyScanSummary.
Proof.
  cbn zeta. unfold buildScanSummary. cbn zeta.
  cbn [totalFindings bySeverity filesScanned filesWithFindings].
  destruct (@tally_fold findings
              {| n_error := 0; n_warning := 0; n_info := 0; n_hint := 0 |} []
              (NoDup_nil _)) as (He & Hw & Hi & Hh & Hn & Hk).
  cbn zeta in *. cbn [n_error n_warning n_info n_hint] in *.
  set (acc := fold_left tally findings
                ({| n_error := 0; n_warning := 0; n_info := 0; n_hint := 0 |}, []))
    in *.
  set (paths := List.map (fun f => filePath (location f)) findings) in *.
  assert (Hsum : countOf sev_error findings + countOf sev_warning findings
                 + countOf sev_info findings + countOf sev_hint findings
                 = Z.of_nat (List.length findings)).
  { clear. induction findings as [| f findings IH]; [reflexivity |].
    rewrite !countOf_cons. unfold hasSeverity. cbn [List.length].
    destruct (severity f); lia. }
  assert (Hlen : List.length (snd acc)
                 = List.length (nodup (list_eq_dec N.eq_dec) paths)).
  { apply Nat.le_antisymm; apply NoDup_incl_length;
      try assumption; try apply NoDup_nodup.
    - intros k H. apply nodup_In. apply Hk in H as [[] | H]. exact H.
    - intros k H. apply nodup_In in H. apply Hk. now right. }
  assert (Hle : (List.length (snd acc) <= List.length findings)%nat).
  { rewrite Hlen. unfold paths.
    rewrite <- (length_map (fun f => filePath (location f)) findings).
    apply NoDup_incl_length; [apply NoDup_nodup |].
    intros k H. now apply nodup_In in H. }
  rewrite He, Hw, Hi, Hh. cbn [Z.add].
  do 4 (split; [reflexivity |]). split; [exact Hsum |].
  split; [reflexivity |]. split; [now rewrite Hlen |]. split; [lia |].
  split; [| split; reflexivity].
  split.
  - intros H0. destruct findings as [| f findings]; [reflexivity |]. exfalso.
    assert (Hin : In (filePath (location f)) (snd acc)).
    { apply Hk. right. now left. }
    destruct (snd acc); [destruct Hin | simpl in H0; lia].
  - intros ->. reflexivity.
Qed.

End SummaryFacts.

Module TrimFacts.

Lemma trimStart_spaces s :
  exists spaces, s = spaces ++ trimStart s /\ forallb isSpace spaces = true.
Proof.
  induction s as [| c s IH]; [exists []; auto |]. cbn [trimStart].
  destruct (isSpace c) eqn:E.
  - destruct IH as (spaces & Hs & Hall). exists (c :: spaces).
    split; [simpl; congruence | simpl; now rewrite E].
  - exists []. auto.
Qed.

Lemma trimStart_head s c rest : trimStart s = c :: rest -> isSpace c = false.
Proof.
  induction s as [| d s IH]; [discriminate |]. cbn [trimStart].
  destruct (isSpace d) eqn:E; [exact IH |]. intros H. now injection H as <- _.
Qed.

(** A trimmed string does not begin with white space. *)
Lemma trim_head s c rest : trim s = c :: rest -> isSpace c = false.
Proof.
  unfold trim, trimEnd. intros H.
  destruct (trimStart_spaces (rev (trimStart s))) as (spaces & Hs & Hall).
  apply (f_equal (@rev N)) in Hs. rewrite rev_involutive, rev_app_distr, H in Hs.
  destruct (trimStart s) as [| d t] eqn:E; [discriminate |].
  cbn [app] in Hs. injection Hs as -> _. exact (trimStart_head _ E).
Qed.

End TrimFacts.

Module ConflictFilesFacts.
Import ConflictFiles.

Lemma split_pieces c s : Forall (fun piece => ~ In c piece) (split c s).
Proof.
  induction s as [| x s IH]; cbn [split]; [repeat constructor; intros [] |].
  destruct (N.eqb_spec x c) as [-> | Hx].
  - constructor; [intros [] | exact IH].
  - destruct (split c s) as [| p ps]; [repeat constructor; intros [E | []]; auto |].
    inversion IH as [| ? ? Hp Hps]; subst. constructor; [| assumption].
    intros [E | Hin]; [congruence | contradiction].
Qed.

(** X25: [getConflictFiles] returns no path exactly when git fails or prints
    nothing but white space; the paths it returns are the non-empty lines of
    the trimmed output, all of them when git has not failed: none is empty
    and none holds a line feed. *)
Theorem conflict_files_are_the_lines_of_the_output exitCode stdout :
  (getConflictFiles exitCode stdout = [] <-> exitCode <> 0 \/ trim stdout = [])
  /\ (forall path,
         In path (getConflictFiles exitCode stdout)
         <-> exitCode = 0 /\ In path (split LF (trim stdout)) /\ path <> [])
  /\ Forall (fun path => path <> [] /\ ~ In LF path)
       (getConflictFiles exitCode stdout).
Proof.
  unfold getConflictFiles. split; [| split].
  - destruct (Z.eqb_spec exitCode 0) as [-> | Hne]; cbn [negb orb].
    + destruct (trim stdout) as [| c rest] eqn:E; cbn [isEmpty].
      * split; auto.
      * split; [| intros [H | H]; [contradiction | discriminate]].
        intros H. exfalso.
        pose proof (TrimFacts.trim_head _ E) as Hc.
        assert (Hlf : N.eqb c LF = false).
        { destruct (N.eqb_spec c LF) as [-> | _]; [discriminate Hc | reflexivity]. }
        cbn [split] in H. rewrite Hlf in H.
        destruct (split LF rest); discriminate H.
    + split; auto.
  - intros path.
    destruct (Z.eqb_spec exitCode 0) as [-> | Hne]; cbn [negb orb].
    + destruct (trim stdout) as [| c rest] eqn:E; cbn [isEmpty].
      * split; [intros [] |]. intros (_ & [<- | []] & Hp). now apply Hp.
      * rewrite filter_In. split.
        -- intros (Hin & Hp). repeat split; auto. now destruct path.
        -- intros (_ & Hin & Hp). split; auto. now destruct path.
    + split; [intros [] | intros (E & _); contradiction].
  - destruct (negb (exitCode =? 0) || isEmpty (trim stdout)); [constructor |].
    apply Forall_forall. intros path Hin. apply filter_In in Hin as [Hin Hne].
    split; [now destruct path |].
    pose proof (split_pieces LF (trim stdout)) as Hall.
    rewrite Forall_forall in Hall. now apply Hall.
Qed.

End ConflictFilesFacts.

Module ReviewRequestFacts.
Import DeadCode ReviewRequest.

Lemma mapGet_In {V : Type} key (m : list (jsstring * V)) v :
  mapGet key m = Some v -> In (key, v) m.
Proof.
  induction m as [| [k v'] m IH]; cbn [mapGet]; [discriminate |].
  destruct (Js.eqb k key) eqn:E.
  - apply JsFacts.eqb_eq in E. subst k. intros H. injection H as <-. now left.
  - intros H. right. auto.
Qed.

Lemma has_In set key : has set key = true <-> In key set.
Proof.
  unfold has. rewrite existsb_exists. split.
  - intros (k & Hk & E). apply JsFacts.eqb_eq in E. now subst.
  - intros H. exists key. split; [assumption | apply JsFacts.eqb_refl].
Qed.

Lemma has_app set key other :
  has (set ++ [other]) key = has set key || Js.eqb key other.
Proof.
  unfold has. rewrite existsb_app. cbn [existsb]. now rewrite orb_false_r.
Qed.

(** The files shown: each is the file of one of the findings, not seen
    before, with the beginning of its content, which is not empty. *)
Lemma snippetFiles_spec fileContents findings : forall seen,
  let files := snippetFiles fileContents seen findings in
  NoDup (List.map fst files)
  /\ Forall (fun file =>
               ~ In (fst file) seen
               /\ In (fst file)
                    (List.map (fun f => filePath (location f)) findings)
               /\ exists content,
                    mapGet (fst file) fileContents = Some content
                    /\ content <> []
                    /\ snd file = firstn MAX_CONTENT_FOR_MODEL content)
       files
  /\ (forall f content,
        In f findings -> ~ In (filePath (location f)) seen ->
        mapGet (filePath (location f)) fileContents = Some content ->
        content <> [] ->
        In (filePath (location f),
            firstn MAX_CONTENT_FOR_MODEL content) files).
Proof.
  induction findings as [| f findings IH]; intros seen; cbn zeta.
  - cbn [snippetFiles List.map]. split; [constructor |].
    split; [constructor |]. intros f content [].
  - cbn [snippetFiles]. cbn zeta.
    set (path := filePath (location f)).
    destruct (has seen path) eqn:Hseen.
    + destruct (IH seen) as (Hnd & Hall & Hcomplete).
      split; [exact Hnd |]. split.
      * eapply Forall_impl; [| exact Hall]. cbn beta.
        intros file (H1 & H2 & H3). split; [exact H1 |].
        split; [| exact H3]. cbn [List.map]. now right.
      * intros g content [<- | Hg] Hnot Hget Hne.
        -- exfalso. apply Hnot. now apply has_In.
        -- now apply Hcomplete.
    + destruct (IH (seen ++ [path])) as (Hnd & Hall & Hcomplete).
      assert (Hnot : ~ In path seen).
      { intros H. apply has_In in H. congruence. }
      assert (Hall' :
        Forall (fun file =>
                  ~ In (fst file) seen
                  /\ In (fst file)
                       (List.map (fun f => filePath (location f)) (f :: findings))
                  /\ exists content,
                       mapGet (fst file) fileContents = Some content
                       /\ content <> []
                       /\ snd file = firstn MAX_CONTENT_FOR_MODEL content)
          (snippetFiles fileContents (seen ++ [path]) findings)).
      { eapply Forall_impl; [| exact Hall]. cbn beta.
        intros file (H1 & H2 & H3). split; [| split; [| exact H3]].
        - intros H. apply H1. apply in_or_app. now left.
        - cbn [List.map]. now right. }
      assert (Hfresh :
        ~ In path (List.map fst
                     (snippetFiles fileContents (seen ++ [path]) findings))).
      { intros H. apply in_map_iff in H as (file & E & Hin).
        rewrite Forall_forall in Hall. destruct (Hall _ Hin) as (H1 & _).
        apply H1. apply in_or_app. right. left. symmetry. exact E. }
      assert (Hrest :
        forall g content,
          In g findings -> ~ In (filePath (location g)) seen ->
          mapGet (filePath (location g)) fileContents = Some content ->
          content <> [] ->
          filePath (location g) = path
          \/ In (filePath (location g), firstn MAX_CONTENT_FOR_MODEL content)
               (snippetFiles fileContents (seen ++ [path]) findings)).
      { intros g content Hg Hnotg Hget Hne.
        destruct (list_eq_dec N.eq_dec (filePath (location g)) path) as [E | E];
          [now left | right].
        apply Hcomplete; auto. intros H. apply in_app_or in H as [H | [H | []]];
          [contradiction | congruence]. }
      destruct (mapGet path fileContents) as [[| c content] |] eqn:Hget.
      * split; [exact Hnd |]. split; [exact Hall' |].
        intros g content [<- | Hg] Hnotg Hgetg Hne.
        -- fold path in Hgetg. rewrite Hget in Hgetg. injection Hgetg as <-.
           contradiction.
        -- destruct (Hrest g content Hg Hnotg Hgetg Hne) as [E | H]; [| exact H].
           rewrite E, Hget in Hgetg. injection Hgetg as <-. contradiction.
      * split; [| split].
        -- cbn [List.map fst]. constructor; assumption.
        -- constructor; [| exact Hall']. cbn [fst snd]. split; [exact Hnot |].
           split; [cbn [List.map]; now left |].
           exists (c :: content). split; [exact Hget |].
           split; [discriminate | reflexivity].
        -- intros g content' [<- | Hg] Hnotg Hgetg Hne.
           ++ fold path in Hgetg. rewrite Hget in Hgetg. injection Hgetg as <-.
              now left.
           ++ destruct (Hrest g content' Hg Hnotg Hgetg Hne) as [E | H];
                [| now right].
              rewrite E, Hget in Hgetg. injection Hgetg as <-.
              left. now rewrite E.
      * split; [exact Hnd |]. split; [exact Hall' |].
        intros g content [<- | Hg] Hnotg Hgetg Hne.
        -- fold path in Hgetg. rewrite Hget in Hgetg. discriminate.
        -- destruct (Hrest g content Hg Hnotg Hgetg Hne) as [E | H]; [| exact H].
           rewrite E, Hget in Hgetg. discriminate.
Qed.


End ReviewRequestFacts.
